(** * m4300-project: CSV ingestion of daily price series

    A shallow embedding of the two programs of the repository,

    - [src/main.cc]: the header indexer [indexOf], the date-synchronised
      scanner [read_until] and the column extractor [read_stock_data];
    - [src/getstock.cc]: the builders [make_url] and [make_filename] and the
      fetch loop of [main];

    followed by the properties the specification states about them.

    Conventions of the embedding.

    - A C string ([char const *], [std::string]) is a [list ascii]: the bytes
      before the terminating NUL.  Text streams hold no NUL byte.
    - [int] and [size_t] counters are [nat]; [time_t] is [Z].
    - [die] ends the program: a computation that reaches it yields [Die]
      with the site it was reached at.  Undefined behaviour of the C++
      program (a dereferenced null pointer, [back()] of an empty string) is
      [Fault].  Loops over a stream are bounded by the number of unread
      bytes; [Diverge] marks an exhausted bound and is shown unreachable. *)

From Stdlib Require Import Ascii String ZArith QArith Bool Arith Lia List.
Import ListNotations.

Close Scope Q_scope.
Open Scope nat_scope.

Set Implicit Arguments.

(* ================================================================== *)
(** ** Characters and C strings *)

Definition cstring : Type := list ascii.

(** A string literal as a C string. *)
Definition lit (s : string) : cstring := list_ascii_of_string s.

Definition LF : ascii := ascii_of_nat 10.

(** A line of text with its line feed. *)
Definition ln (s : string) : cstring := lit s ++ [LF].

(** [#define DATA_SEP ','] *)
Definition DATA_SEP : ascii := ascii_of_nat 44.

Definition code (c : ascii) : nat := nat_of_ascii c.

Definition isupper (c : ascii) : bool := (65 <=? code c) && (code c <=? 90).
Definition islower (c : ascii) : bool := (97 <=? code c) && (code c <=? 122).
Definition isdigit (c : ascii) : bool := (48 <=? code c) && (code c <=? 57).

(** [isspace] in the C locale: space, and the controls 9 to 13. *)
Definition isspace (c : ascii) : bool :=
  (code c =? 32) || ((9 <=? code c) && (code c <=? 13)).

Definition tolower (c : ascii) : ascii :=
  if isupper c then ascii_of_nat (code c + 32) else c.

Definition toupper (c : ascii) : ascii :=
  if islower c then ascii_of_nat (code c - 32) else c.

Definition digit_val (c : ascii) : Z := Z.of_nat (code c) - 48.

(** [strcmp]: the difference of the first bytes that differ, the end of a
    string counting as byte 0. *)
Fixpoint strcmp (s1 s2 : cstring) : Z :=
  match s1, s2 with
  | [], [] => 0
  | [], c2 :: _ => 0 - Z.of_nat (code c2)
  | c1 :: _, [] => Z.of_nat (code c1)
  | c1 :: t1, c2 :: t2 =>
      if Ascii.eqb c1 c2 then strcmp t1 t2
      else Z.of_nat (code c1) - Z.of_nat (code c2)
  end.

(** [strncasecmp]: as [strcmp] on lower-cased bytes, over at most [n]
    bytes. *)
Fixpoint strncasecmp (s1 s2 : cstring) (n : nat) {struct n} : Z :=
  match n with
  | O => 0
  | S n' =>
      match s1, s2 with
      | [], [] => 0
      | [], c2 :: _ => 0 - Z.of_nat (code (tolower c2))
      | c1 :: _, [] => Z.of_nat (code (tolower c1))
      | c1 :: t1, c2 :: t2 =>
          if Ascii.eqb (tolower c1) (tolower c2) then strncasecmp t1 t2 n'
          else Z.of_nat (code (tolower c1)) - Z.of_nat (code (tolower c2))
      end
  end.

(** [strchr s c] on a pointer into a buffer, the pointer being the text it
    points at: the suffix that starts at the first [c], or [None] for
    NULL. *)
Fixpoint strchr (s : cstring) (c : ascii) : option cstring :=
  match s with
  | [] => None
  | x :: t => if Ascii.eqb x c then Some s else strchr t c
  end.

(** The same search on offsets into [line]: the offset of the first [c] at
    or after [from]. *)
Fixpoint find_from (s : cstring) (c : ascii) (from : nat) : option nat :=
  match s with
  | [] => None
  | x :: t =>
      match from with
      | O => if Ascii.eqb x c then Some 0
             else option_map S (find_from t c 0)
      | S from' => option_map S (find_from t c from')
      end
  end.

(** [strchrnul]: as [strchr], but the offset of the terminator when [c] is
    absent.  Called on an offset past the terminator the C function reads
    outside the string; [indexOf] does so once, after the last field, and
    never uses what it gets, which is modelled as the offset itself. *)
Definition strchrnul_from (s : cstring) (c : ascii) (from : nat) : nat :=
  match find_from s c from with
  | Some i => i
  | None => Nat.max from (length s)
  end.

(* ================================================================== *)
(** ** Outcomes of a run *)

(** The sites of [die] in [src/main.cc], by their message. *)
Inductive fatal : Type :=
| FieldNotFoundInString   (* "Field (%s) not found in string: %s" *)
| FieldNotFoundInData     (* "Field not found in data" *)
| FileIsEmpty             (* "File is empty" *)
| DateFieldNotFound       (* "Date field not found in data" *)
| FailedToParseDate       (* "Failed to parse date in file" *)
| FailedToOpenFile        (* "failed to open file: %s" *)
| ParsingAdjClose.        (* perror("Parsing Adj. Close"); "Aborting" *)

Inductive outcome (A : Type) : Type :=
| Ret (a : A)
| Die (e : fatal)
| Fault
| Diverge.

Arguments Ret {A} a.
Arguments Die {A} e.
Arguments Fault {A}.
Arguments Diverge {A}.

Definition bind {A B : Type} (m : outcome A) (k : A -> outcome B) : outcome B :=
  match m with
  | Ret a => k a
  | Die e => Die e
  | Fault => Fault
  | Diverge => Diverge
  end.

Notation "x <- m ;; k" := (bind m (fun x => k))
  (at level 61, m at next level, right associativity).

(* ================================================================== *)
(** ** [indexOf] (src/main.cc) *)

(** The number of separators in the line: the closing [for] loop. *)
Fixpoint count_sep (line : cstring) : nat :=
  match line with
  | [] => 0
  | c :: t => (if Ascii.eqb c DATA_SEP then 1 else 0) + count_sep t
  end.

(** The [while (begin < lineEnd)] loop.  [begin], [end_] and [lineEnd] are
    offsets into [line]; the text at pointer [begin] is [skipn begin line].
    Every round moves [begin] forward, so [S (length line)] rounds are
    enough (lemma [indexOf_loop_returns]). *)
Fixpoint indexOf_loop (fuel : nat) (line field : cstring)
         (begin end_ lineEnd index : nat) : outcome nat :=
  if begin <? lineEnd then
    match fuel with
    | O => Diverge
    | S fuel' =>
        let size := end_ - begin in
        if (strncasecmp (skipn begin line) field size =? 0)%Z then Ret index
        else
          let begin' := end_ + 1 in
          let end' := strchrnul_from line DATA_SEP begin' in
          indexOf_loop fuel' line field begin' end' lineEnd (index + 1)
    end
  else Ret index.

Definition indexOf (line field : cstring) : outcome nat :=
  match find_from line DATA_SEP 0 with
  | None =>
      if (strcmp line field =? 0)%Z then Ret 0
      else Die FieldNotFoundInString
  | Some end_ =>
      let lineEnd := length line in
      index <- indexOf_loop (S lineEnd) line field 0 end_ lineEnd 0 ;;
      let nsep := count_sep line in
      if nsep <? index then Die FieldNotFoundInData else Ret index
  end.

(* ================================================================== *)
(** ** Streams: [FILE], [fgets], [fseek] *)

(** An input stream: the bytes of the file and the read position. *)
Record FILE : Type := mkFILE { contents : cstring; pos : nat }.

Definition fopen_text (text : cstring) : FILE := mkFILE text 0.

(** The unread bytes. *)
Definition unread (file : FILE) : cstring := skipn (pos file) (contents file).


(** What one [fgets] stores: at most [n] bytes, ending after the first line
    feed. *)
Fixpoint take_line (n : nat) (s : cstring) : cstring :=
  match n with
  | O => []
  | S n' =>
      match s with
      | [] => []
      | c :: t => if Ascii.eqb c LF then [c] else c :: take_line n' t
      end
  end.

(** [fgets(buf, size, file)]: [None] is the NULL of end-of-file, where
    nothing is stored and the position stays; otherwise the bytes stored
    in [buf] and the stream after them. *)
Definition fgets (size : nat) (file : FILE) : option (cstring * FILE) :=
  match take_line (size - 1) (unread file) with
  | [] => None
  | buf => Some (buf, mkFILE (contents file) (pos file + length buf))
  end.

Definition SEEK_SET : Z := 0.
Definition SEEK_CUR : Z := 1.
Definition SEEK_END : Z := 2.

(** [fseek(file, offset, whence)]: the status and the stream.  A [whence]
    that is none of the three constants, or a negative target, is EINVAL:
    status -1 and the position unchanged. *)
Definition fseek (file : FILE) (offset whence : Z) : Z * FILE :=
  let base : option Z :=
    if (whence =? SEEK_SET)%Z then Some 0%Z
    else if (whence =? SEEK_CUR)%Z then Some (Z.of_nat (pos file))
    else if (whence =? SEEK_END)%Z then Some (Z.of_nat (length (contents file)))
    else None in
  match base with
  | None => ((-1)%Z, file)
  | Some b =>
      if (b + offset <? 0)%Z then ((-1)%Z, file)
      else (0%Z, mkFILE (contents file) (Z.to_nat (b + offset)))
  end.

(* ================================================================== *)
(** ** Dates: [strptime] with ["%Y-%m-%d"], [mktime] *)

Definition time_t : Type := Z.

(** The fields of [struct tm] that ["%Y-%m-%d"] sets; the others stay 0
    from the [memset]. *)
Record tm : Type := mkTm { tm_year : Z; tm_mon : Z; tm_mday : Z }.

Fixpoint skip_space (rp : cstring) : cstring :=
  match rp with
  | c :: t => if isspace c then skip_space t else rp
  | [] => []
  end.

(** The digits after the first one: at most [n] more, while ten times the
    value still fits under [hi]. *)
Fixpoint more_digits (n : nat) (hi val : Z) (rp : cstring) : Z * cstring :=
  match n with
  | O => (val, rp)
  | S n' =>
      match rp with
      | c :: t =>
          if (val * 10 <=? hi)%Z && isdigit c
          then more_digits n' hi (val * 10 + digit_val c)%Z t
          else (val, rp)
      | [] => (val, rp)
      end
  end.

(** glibc's [get_number (lo, hi, n)]: white space, then one to [n] digits
    of a number between [lo] and [hi]. *)
Definition get_number (lo hi : Z) (n : nat) (rp : cstring)
  : option (Z * cstring) :=
  match skip_space rp with
  | c :: t =>
      if isdigit c then
        let '(val, rest) := more_digits (n - 1) hi (digit_val c) t in
        if (val <? lo)%Z || (hi <? val)%Z then None else Some (val, rest)
      else None
  | [] => None
  end.

Definition match_char (c : ascii) (rp : cstring) : option cstring :=
  match rp with
  | x :: t => if Ascii.eqb x c then Some t else None
  | [] => None
  end.

Definition DASH : ascii := ascii_of_nat 45.

(** [strptime(s, DATE_FMT, &tm)] for [DATE_FMT = "%Y-%m-%d"]: [None] is
    NULL.  What follows the day is left unread. *)
Definition strptime (s : cstring) : option tm :=
  match get_number 0 9999 4 s with
  | None => None
  | Some (y, s1) =>
      match match_char DASH s1 with
      | None => None
      | Some s2 =>
          match get_number 1 12 2 s2 with
          | None => None
          | Some (m, s3) =>
              match match_char DASH s3 with
              | None => None
              | Some s4 =>
                  match get_number 1 31 2 s4 with
                  | None => None
                  | Some (d, _) =>
                      Some (mkTm (y - 1900) (m - 1) d)
                  end
              end
          end
      end
  end.

(** Days from 1970-01-01 to the civil date [y]-[m]-[d] (proleptic
    Gregorian calendar); a day past the end of its month runs into the
    next month, as [mktime] normalises it. *)
Definition days_from_civil (y m d : Z) : Z :=
  let y' := if (m <=? 2)%Z then (y - 1)%Z else y in
  let era := (y' / 400)%Z in
  let yoe := (y' - era * 400)%Z in
  let mp := if (m <=? 2)%Z then (m + 9)%Z else (m - 3)%Z in
  let doy := ((153 * mp + 2) / 5 + d - 1)%Z in
  let doe := (yoe * 365 + yoe / 4 - yoe / 100 + doy)%Z in
  (era * 146097 + doe - 719468)%Z.

(** Seconds west of UTC of the process' time zone; the model runs in UTC. *)
Definition timezone : Z := 0.

(** [mktime] of a [struct tm] at midnight. *)
Definition mktime (t : tm) : time_t :=
  (days_from_civil (tm_year t + 1900) (tm_mon t + 1) (tm_mday t) * 86400
   + timezone)%Z.

(* ================================================================== *)
(** ** [read_until] (src/main.cc) *)

(** The [for] loop that moves [date] past [date_index] separators. *)
Fixpoint date_field (date_index : nat) (date : cstring) : outcome cstring :=
  match date_index with
  | O => Ret date
  | S i =>
      match strchr date DATA_SEP with
      | None => Die DateFieldNotFound
      | Some q => date_field i (tl q)
      end
  end.

(** The date of one row: the body of the [while] loop up to [mktime]. *)
Definition row_date (date_index : nat) (buf : cstring) : outcome time_t :=
  date <- date_field date_index buf ;;
  match strptime date with
  | None => Die FailedToParseDate
  | Some t => Ret (mktime t)
  end.

(** The [while (fgets(...))] loop.  It returns the date and the stream as
    the call leaves it.  The call to [fseek] is the source's, argument for
    argument: [fseek(file, SEEK_CUR, -nread)]. *)
Fixpoint read_until_loop (fuel : nat) (file : FILE) (begin : time_t)
         (date_index : nat) : outcome (time_t * FILE) :=
  match fgets 256 file with
  | None => Ret (0%Z, file)
  | Some (buf, file1) =>
      match fuel with
      | O => Diverge
      | S fuel' =>
          let nread := length buf in
          tmp <- row_date date_index buf ;;
          if (tmp >=? begin)%Z then
            let '(_, file2) := fseek file1 SEEK_CUR (- Z.of_nat nread) in
            Ret (tmp, file2)
          else read_until_loop fuel' file1 begin date_index
      end
  end.

Definition read_until (file : FILE) (begin : time_t) : outcome (time_t * FILE) :=
  match fgets 256 file with
  | None => Die FileIsEmpty
  | Some (buf, file1) =>
      date_index <- indexOf buf (lit "date") ;;
      read_until_loop (length (unread file1)) file1 begin date_index
  end.

(** The stream of the specification's scanner example. *)
Definition scanner_example : FILE :=
  fopen_text (ln "Date,Close" ++ ln "2018-01-02,10" ++ ln "2018-01-03,11"
              ++ ln "2018-01-05,12").

Definition date_2018_01_03 : time_t := 1514937600%Z.

(* ================================================================== *)
(** ** Numbers: [strtod] *)

(** A [double] as the exact value of the text read: rounding to
    binary64 is not modelled, nor the overflow of a large text to
    infinity or the underflow of a small one to zero, and both zeros are
    [Num 0]. *)
Inductive double : Type :=
| Num (q : Q)
| Inf (negative : bool)
| NaN.

Definition decval (c : ascii) : option Z :=
  if isdigit c then Some (digit_val c) else None.

Definition hexval (c : ascii) : option Z :=
  if isdigit c then Some (digit_val c)
  else if (97 <=? code (tolower c)) && (code (tolower c) <=? 102)
       then Some (Z.of_nat (code (tolower c)) - 87)%Z
       else None.

(** A run of digits in [base], continuing the value [acc]: the value, the
    number of digits read and the rest. *)
Fixpoint read_digits (digit : ascii -> option Z) (base acc : Z) (count : nat)
         (s : cstring) : Z * nat * cstring :=
  match s with
  | c :: t =>
      match digit c with
      | Some d => read_digits digit base (acc * base + d)%Z (S count) t
      | None => (acc, count, s)
      end
  | [] => (acc, count, s)
  end.

Definition DOT : ascii := ascii_of_nat 46.

(** Digits, with an optional point among them; at least one digit.  The
    result is the digits read as one integer, the number of them after
    the point, and the rest. *)
Definition read_mantissa (digit : ascii -> option Z) (base : Z) (s : cstring)
  : option (Z * nat * cstring) :=
  let '(ip, n1, r1) := read_digits digit base 0%Z 0 s in
  match r1 with
  | c :: t =>
      if Ascii.eqb c DOT then
        let '(m, n2, r2) := read_digits digit base ip 0 t in
        if n1 + n2 =? 0 then None else Some (m, n2, r2)
      else if n1 =? 0 then None else Some (ip, 0, r1)
  | [] => if n1 =? 0 then None else Some (ip, 0, r1)
  end.

Definition read_sign (s : cstring) : bool * cstring :=
  match s with
  | c :: t =>
      if Ascii.eqb c DASH then (true, t)
      else if Ascii.eqb c (ascii_of_nat 43) then (false, t)
      else (false, s)
  | [] => (false, s)
  end.

(** An exponent part: the marker ([e] or [p], either case), an optional
    sign and at least one decimal digit; otherwise nothing is read. *)
Definition read_exponent (marker : ascii) (s : cstring) : Z * cstring :=
  match s with
  | c :: t =>
      if Ascii.eqb (tolower c) marker then
        let '(neg, t') := read_sign t in
        let '(e, n, r) := read_digits decval 10%Z 0%Z 0 t' in
        if n =? 0 then (0%Z, s) else ((if neg then - e else e)%Z, r)
      else (0%Z, s)
  | [] => (0%Z, s)
  end.

(** [m * base ^ e] as a reduced fraction. *)
Definition scale (m base e : Z) : Q :=
  if (0 <=? e)%Z then Qred (Qmake (m * base ^ e) 1)
  else Qred (Qmake m (Z.to_pos (base ^ (- e)))).

(** Does [s] start with the word [w], letter case apart? *)
Fixpoint starts_with_word (w s : cstring) : option cstring :=
  match w with
  | [] => Some s
  | x :: w' =>
      match s with
      | c :: t => if Ascii.eqb (tolower c) x then starts_with_word w' t else None
      | [] => None
      end
  end.

Definition negate (neg : bool) (q : Q) : Q := if neg then Qred (Qopp q) else q.

(** [strtod(nptr, &endptr)]: the value and [endptr], a pointer into the
    text of [nptr].  White space, an optional sign, then [infinity] or
    [inf], [nan], a hexadecimal or a decimal number.  With nothing to
    convert the value is zero and [endptr] is [nptr]. *)
Definition strtod (nptr : cstring) : double * cstring :=
  let '(neg, s) := read_sign (skip_space nptr) in
  match starts_with_word (lit "infinity") s with
  | Some r => (Inf neg, r)
  | None =>
  match starts_with_word (lit "inf") s with
  | Some r => (Inf neg, r)
  | None =>
  match starts_with_word (lit "nan") s with
  | Some r => (NaN, r)
  | None =>
      let hex :=
        match starts_with_word (lit "0x") s with
        | Some t =>
            match read_mantissa hexval 16%Z t with
            | Some (m, n2, r) =>
                let '(e, r') := read_exponent (ascii_of_nat 112) r in
                Some (Num (negate neg (scale m 2 (e - 4 * Z.of_nat n2))), r')
            | None => None
            end
        | None => None
        end in
      match hex with
      | Some res => res
      | None =>
          match read_mantissa decval 10%Z s with
          | Some (m, n2, r) =>
              let '(e, r') := read_exponent (ascii_of_nat 101) r in
              (Num (negate neg (scale m 10 (e - Z.of_nat n2))), r')
          | None => (Num 0, nptr)
          end
      end
  end end end.

(** [price == 0.0] *)
Definition is_zero (d : double) : bool :=
  match d with
  | Num q => Qeq_bool q 0
  | _ => false
  end.

(** Equality of two pointers into one buffer, each being the text up to
    the buffer's terminator. *)
Definition same_ptr (p q : cstring) : bool := length p =? length q.

(* ================================================================== *)
(** ** [read_stock_data] (src/main.cc) *)

(** [fopen(f, "r")] on the files there are: [None] is NULL. *)
Definition filesystem : Type := cstring -> option cstring.

(** The [for] loop that moves [p] past [close_index] separators.  It does
    not test what [strchr] returns: on a row with too few separators [p]
    becomes NULL + 1 and the next use of it is undefined. *)
Fixpoint price_field (close_index : nat) (p : cstring) : outcome cstring :=
  match close_index with
  | O => Ret p
  | S i =>
      match strchr p DATA_SEP with
      | None => Fault
      | Some q => price_field i (tl q)
      end
  end.

(** The price of one row: the body of the inner [while] loop up to the
    test after [strtod]. *)
Definition row_price (close_index : nat) (buf : cstring) : outcome double :=
  p <- price_field close_index buf ;;
  let '(price, endptr) := strtod p in
  if is_zero price && same_ptr endptr p then Die ParsingAdjClose
  else Ret price.

(** The inner [while (fgets(...))] loop; [prices] is the vector the rows
    are pushed to and [buf] the array [fgets] stores to ([None] while
    nothing was stored). *)
Fixpoint read_rows (fuel : nat) (file : FILE) (close_index : nat)
         (prices : list double) (buf : option cstring)
  : outcome (list double * option cstring) :=
  match fgets 256 file with
  | None => Ret (prices, buf)
  | Some (line, file1) =>
      match fuel with
      | O => Diverge
      | S fuel' =>
          price <- row_price close_index line ;;
          read_rows fuel' file1 close_index (prices ++ [price]) (Some line)
      end
  end.

(** The loop over [filepaths].  [data], [prices] and [buf] are declared
    before the loop and live across its rounds. *)
Fixpoint read_files (fs : filesystem) (filepaths : list cstring)
         (data : list (list double)) (prices : list double)
         (buf : option cstring) : outcome (list (list double)) :=
  match filepaths with
  | [] => Ret data
  | fp :: rest =>
      match fs fp with
      | None => Die FailedToOpenFile
      | Some text =>
          let file := fopen_text text in
          (* fgets(buf, sizeof buf, file); its result is not tested *)
          let '(buf1, file1) :=
            match fgets 256 file with
            | Some (line, f) => (Some line, f)
            | None => (buf, file)
            end in
          match buf1 with
          | None => Fault
          | Some header =>
              close_index <- indexOf header (lit "Adj. Close") ;;
              r <- read_rows (length (unread file1)) file1 close_index
                     prices buf1 ;;
              let '(prices1, buf2) := r in
              read_files fs rest (data ++ [prices1]) prices1 buf2
          end
      end
  end.

Definition read_stock_data (fs : filesystem) (filepaths : list cstring)
  : outcome (list (list double)) :=
  read_files fs filepaths [] [] None.

(* ================================================================== *)
(** ** The builders and the fetch loop (src/getstock.cc) *)

Definition urlbase : cstring := lit "https://www.quandl.com/api/v3/datasets/WIKI/".

Definition SLASH : ascii := ascii_of_nat 47.

(** [upper]: every byte through [toupper]. *)
Definition upper (s : cstring) : cstring := map toupper s.

(** [make_url]; a date is [None] for a null pointer. *)
Definition make_url (ticker token : cstring) (begin end_ : option cstring)
  : cstring :=
  let url := urlbase ++ ticker ++ lit ".csv?order=asc&api_key=" ++ token in
  let url :=
    match begin with
    | Some b => (url ++ lit "&start_date=") ++ b
    | None => url
    end in
  let url :=
    match end_ with
    | Some e => (url ++ lit "&end_date=") ++ e
    | None => url
    end in
  url.

(** [s.back()]: the last byte; undefined on the empty string. *)
Definition back (s : cstring) : option ascii :=
  match rev s with
  | c :: _ => Some c
  | [] => None
  end.

(** [make_filename]. *)
Definition make_filename (dbroot ticker : cstring) (begin end_ : option cstring)
  : outcome cstring :=
  match back dbroot with
  | None => Fault
  | Some c =>
      let fname := dbroot in
      let fname := if Ascii.eqb c SLASH then fname else fname ++ [SLASH] in
      let fname := fname ++ ticker in
      let fname :=
        match begin, end_ with
        | Some b, Some e => fname ++ [DOT] ++ b ++ [DOT] ++ e
        | _, _ => fname
        end in
      Ret (fname ++ lit ".csv")
  end.

(** The loop of [main] that removes the slashes at the end of [dbroot],
    on the reversed string: [pop_back] while there is more than one byte
    and the last one is a slash. *)
Fixpoint pop_slashes (r : cstring) : cstring :=
  match r with
  | c :: (_ :: _) as t => if Ascii.eqb c SLASH then pop_slashes t else r
  | _ => r
  end.

Definition strip_dbroot (dbroot : cstring) : cstring :=
  rev (pop_slashes (rev dbroot)).

(** What the option loop of [main] leaves: the key read from the [-k]
    file, the [-b] and [-e] dates and the [-o] directory.  The three
    [std::string]s start empty and stay so when their option is absent. *)
Record options : Type := mkOptions {
  api_key : cstring;
  begin : cstring;
  end_ : cstring;
  dbroot : cstring
}.

(** One round of the fetch loop: the URL requested and where the body
    goes: the file of that name, or standard output for [None]. *)
Record fetch : Type := mkFetch { url : cstring; filename : option cstring }.

(** The loop [for ( ; ac && *av; ac--, av++)] of [main], over the ticker
    arguments.  [c_str()] of a [std::string] is never null, so both dates
    reach the builders as present. *)
Fixpoint fetch_loop (o : options) (root : cstring) (av : list cstring)
  : outcome (list fetch) :=
  match av with
  | [] => Ret []
  | a :: av' =>
      let ticker := upper a in
      let u := make_url ticker (api_key o) (Some (begin o)) (Some (end_ o)) in
      target <-
        match root with
        | [] => Ret None
        | _ => f <- make_filename root ticker (Some (begin o)) (Some (end_ o)) ;;
               Ret (Some f)
        end ;;
      more <- fetch_loop o root av' ;;
      Ret (mkFetch u target :: more)
  end.

(** [main] from the point where the options are read. *)
Definition main_fetch (o : options) (av : list cstring) : outcome (list fetch) :=
  let root := match dbroot o with
              | [] => []
              | r => strip_dbroot r
              end in
  fetch_loop o root av.


(* ================================================================== *)
(** ** [parse_date], [strtotime] (src/main.cc) *)

(** Both functions have one body: zero when [strptime] fails. *)
Definition parse_date (s : cstring) : time_t :=
  match strptime s with
  | None => 0%Z
  | Some t => mktime t
  end.

Definition strtotime (s : cstring) : time_t :=
  match strptime s with
  | None => 0%Z
  | Some t => mktime t
  end.

(* ================================================================== *)
(** ** [lstrip], [rstrip], [strip], [slurp], [curl_callback]
       (src/getstock.cc) *)

(** [std::find_if(first, last, pred)] as the offset of the first byte
    that satisfies [pred], the length when none does. *)
Fixpoint find_if (pred : ascii -> bool) (s : cstring) : nat :=
  match s with
  | [] => 0
  | c :: t => if pred c then 0 else S (find_if pred t)
  end.

(** [std::rotate(first, middle, last)] with [middle] at offset [k]: the
    text from [middle] on comes first; the result is the new offset of
    the byte that was first. *)
Definition rotate (k : nat) (s : cstring) : cstring * nat :=
  (skipn k s ++ firstn k s, length s - k).

(** [s->erase(from, s->end())]. *)
Definition erase_from (from : nat) (s : cstring) : cstring := firstn from s.

Definition not_space (c : ascii) : bool := negb (isspace c).

Definition lstrip (s : cstring) : cstring :=
  let begin := find_if not_space s in
  if begin =? length s then s
  else
    let '(rotated, newend) := rotate begin s in
    erase_from newend rotated.

(** The reverse iterator that [find_if] returns over [rbegin .. rend] is
    [j] bytes from the end; its [base()] is at offset [length - j]. *)
Definition rstrip (s : cstring) : cstring :=
  let j := find_if not_space (rev s) in
  erase_from (length s - j) s.

Definition strip (s : cstring) : cstring := rstrip (lstrip s).

(** [slurp]: the text of the file, the empty string when it does not
    open. *)
Definition slurp (fs : filesystem) (filename : cstring) : cstring :=
  match fs filename with
  | Some text => text
  | None => []
  end.

(** [curl_callback(buf, size, nmemb, cbuf)]: the client buffer after the
    call and the number returned.  [buf] holds [size * nmemb] bytes. *)
Definition curl_callback (buf : cstring) (size nmemb : nat) (cbuf : cstring)
  : cstring * nat :=
  (cbuf ++ firstn (size * nmemb) buf, size * nmemb).

(** What [curl_easy_perform] does with the write function: it hands the
    body over piece by piece, each with [size] 1, and gives up when the
    function returns another number than it was given.  The result is
    the client buffer and whether the transfer went through. *)
Fixpoint curl_easy_perform (chunks : list cstring) (cbuf : cstring)
  : cstring * bool :=
  match chunks with
  | [] => (cbuf, true)
  | chunk :: rest =>
      let '(cbuf', written) := curl_callback chunk 1 (length chunk) cbuf in
      if written =? 1 * length chunk then curl_easy_perform rest cbuf'
      else (cbuf', false)
  end.

(* ================================================================== *)
(** ** Command lines, and how a run ends *)

(** What [*av] is: an argument, the null pointer that ends [argv], or
    whatever lies behind it. *)
Inductive slot : Type :=
| Arg (s : cstring)
| Null
| Wild.

Definition arg_at (argv : list cstring) (av : nat) : slot :=
  match nth_error argv av with
  | Some s => Arg s
  | None => if av =? length argv then Null else Wild
  end.

(** The end of a run: [return] from [main], [exit(1)] at a site of [die]
    or [usage], undefined behaviour, or a loop bound that ran out: shown
    not to happen for the loops of [getstock]; a loop that runs out of
    every bound does not end. *)
Inductive ending (E : Type) : Type :=
| Returned
| Exited (e : E)
| Undefined
| Unfinished.

Arguments Returned {E}.
Arguments Exited {E} e.
Arguments Undefined {E}.
Arguments Unfinished {E}.

(** A part of a run that goes on with a state or ends the run. *)
Inductive step (E S : Type) : Type :=
| Go (s : S)
| Halt (e : ending E).

Arguments Go {E S} s.
Arguments Halt {E S} e.

(* ================================================================== *)
(** ** [database_init], [writef] and [main] (src/getstock.cc) *)

(** What [mkdir(path, 0755)] does: status 0, or -1 with errno [EEXIST],
    or -1 with another errno. *)
Inductive mkdir_outcome : Type :=
| Created
| AlreadyExists
| MkdirFailed.

(** What the run meets outside: the files it reads, [mkdir] and [stat],
    whether a file opens for writing, and the pieces in which the body
    of a URL arrives. *)
Record world : Type := mkWorld {
  key_files : filesystem;
  mkdir : cstring -> mkdir_outcome;
  stat_is_dir : cstring -> bool;
  fopen_w : cstring -> bool;
  http : cstring -> list cstring
}.

Definition database_init (w : world) (path : cstring) : Z :=
  match mkdir w path with
  | Created => 0%Z
  | AlreadyExists => if stat_is_dir w path then 0%Z else (-1)%Z
  | MkdirFailed => (-1)%Z
  end.

(** [size_t] to [int], as [int bufsize = buffer.size()] converts. *)
Definition to_int (n : nat) : Z :=
  let m := (Z.of_nat n mod 2 ^ 32)%Z in
  if (m <? 2 ^ 31)%Z then m else (m - 2 ^ 32)%Z.

(** [writef]: the bytes [fwrite(buf, bufsize, 1, file)] writes; [None]
    when [bufsize] is negative, which [fwrite] takes for a size beyond
    the buffer. *)
Definition writef (buffer : cstring) : option cstring :=
  let bufsize := to_int (length buffer) in
  if (bufsize <? 0)%Z then None
  else Some (firstn (Z.to_nat bufsize) buffer).

(** [sprintf(msgbuf, "<label>%s\n", ticker)] into [char msgbuf[64]]:
    the text, or [None] when it does not fit with its terminator. *)
Definition sprintf_msgbuf (label ticker : cstring) : option cstring :=
  let text := label ++ ticker ++ [LF] in
  if length text <? 64 then Some text else None.

(** The sites of [usage] and [die] in [src/getstock.cc]. *)
Inductive getstock_exit : Type :=
| Usage
| NoStockSymbol           (* "Must specify at least one stock symbol" *)
| ApiKeyFileMissing       (* "API Key file missing" *)
| FailedToReadApiKey      (* "Failed to read api key from file: %s" *)
| FailedToInitDatabase    (* "Failed to initialize the database" *)
| FailedToOpenOutput.     (* "Failed to open file: %s" *)

(** The four strings the option loop fills. *)
Record cli : Type := mkCli {
  api_key_file : cstring;
  cli_begin : cstring;
  cli_end : cstring;
  cli_dbroot : cstring
}.

Definition cli_empty : cli := mkCli [] [] [] [].

(** The [switch] on the option letter, for the letters that take a
    value; [None] is the way to [usage]. *)
Definition set_option (c : ascii) (tmp : cstring) (st : cli) : option cli :=
  if Ascii.eqb c "k" then
    Some (mkCli tmp (cli_begin st) (cli_end st) (cli_dbroot st))
  else if Ascii.eqb c "b" then
    Some (mkCli (api_key_file st) tmp (cli_end st) (cli_dbroot st))
  else if Ascii.eqb c "e" then
    Some (mkCli (api_key_file st) (cli_begin st) tmp (cli_dbroot st))
  else if Ascii.eqb c "o" then
    Some (mkCli (api_key_file st) (cli_begin st) (cli_end st) tmp)
  else None.

(** The option loop
    [for (ac = argc - 1, av = argv + 1; ac && *av && av[0][0] == '-' && av[0][1]; ac--, av++)].
    Every case of the [switch] sets [brk_] or leaves through [usage], so
    the inner loop over the letters of an argument runs once, on the
    letter after the dash.  [tmp] is the rest of the argument or, when
    there is none, the next argument, [ac] and [av] stepping to it; a
    [tmp] that is no argument is assigned to a [std::string], which is
    undefined. *)
Fixpoint getstock_options (fuel : nat) (argv : list cstring) (st : cli)
         (ac : Z) (av : nat) : step getstock_exit (cli * Z * nat) :=
  if (ac =? 0)%Z then Go (st, ac, av)
  else
    match arg_at argv av with
    | Wild => Halt Undefined
    | Null => Go (st, ac, av)
    | Arg s =>
        match s with
        | d :: c :: v =>
            if negb (Ascii.eqb d DASH) then Go (st, ac, av)
            else if Ascii.eqb c DASH && match v with [] => true | _ => false end
            then Go (st, (ac - 1)%Z, S av)
            else
              match fuel with
              | O => Halt Unfinished
              | S fuel' =>
                  let '(tmp, ac1, av1) :=
                    match v with
                    | [] => (arg_at argv (S av), (ac - 1)%Z, S av)
                    | _ :: _ => (Arg v, ac, av)
                    end in
                  match set_option c [] st with
                  | None => Halt (Exited Usage)
                  | Some _ =>
                      match tmp with
                      | Arg t =>
                          match set_option c t st with
                          | Some st' =>
                              getstock_options fuel' argv st' (ac1 - 1)%Z (S av1)
                          | None => Halt (Exited Usage)
                          end
                      | Null | Wild => Halt Undefined
                      end
                  end
              end
        | _ => Go (st, ac, av)
        end
    end.

(** What a run does that can be seen from outside. *)
Inductive action : Type :=
| Fetched (u : cstring)                      (* the GET of curl_easy_perform *)
| Wrote (name : cstring) (body : cstring)    (* fopen "w", writef, fclose *)
| Printed (text : cstring).                  (* fwrite to stdout *)

Record trace (E : Type) : Type := mkTrace {
  actions : list action;
  ended : ending E
}.

Arguments mkTrace {E} actions ended.

Definition after {E : Type} (done : list action) (t : trace E) : trace E :=
  mkTrace (done ++ actions t) (ended t).

(** One round of the loop over the tickers, for the argument [a]: what
    it fetches, writes and prints, and whether the loop goes on
    ([Returned]) or the run ends.  [buffer] is the string the body is
    appended to. *)
Definition fetch_round (w : world) (o : options) (a : cstring)
           (buffer : cstring) : trace getstock_exit :=
  let ticker := upper a in
  let u := make_url ticker (api_key o) (Some (begin o)) (Some (end_ o)) in
  let buffer := fst (curl_easy_perform (http w u) buffer) in
  after [Fetched u]
    match dbroot o with
    | _ :: _ =>
        match make_filename (dbroot o) ticker
                            (Some (begin o)) (Some (end_ o)) with
        | Ret name =>
            if fopen_w w name then
              match writef buffer with
              | Some body => mkTrace [Wrote name body] Returned
              | None => mkTrace [] Undefined
              end
            else mkTrace [] (Exited FailedToOpenOutput)
        | _ => mkTrace [] Undefined
        end
    | [] =>
        match sprintf_msgbuf (lit "begin:") ticker with
        | None => mkTrace [] Undefined
        | Some head =>
            match writef buffer with
            | None => mkTrace [Printed head] Undefined
            | Some body =>
                match sprintf_msgbuf (lit "end:") ticker with
                | None => mkTrace [Printed head; Printed body] Undefined
                | Some foot =>
                    mkTrace [Printed head; Printed body; Printed foot]
                            Returned
                end
            end
        end
    end.

(** The loop [for ( ; ac && *av; ac--, av++)] over the tickers.  The
    buffer is cleared at the end of every round. *)
Fixpoint fetch_io (fuel : nat) (w : world) (argv : list cstring) (o : options)
         (ac : Z) (av : nat) (buffer : cstring) : trace getstock_exit :=
  if (ac =? 0)%Z then mkTrace [] Returned
  else
    match arg_at argv av with
    | Wild => mkTrace [] Undefined
    | Null => mkTrace [] Returned
    | Arg a =>
        match fuel with
        | O => mkTrace [] Unfinished
        | S fuel' =>
            let round := fetch_round w o a buffer in
            match ended round with
            | Returned =>
                (* buffer.clear() *)
                after (actions round)
                      (fetch_io fuel' w argv o (ac - 1)%Z (S av) [])
            | _ => round
            end
        end
    end.

(** [main] after the option loop. *)
Definition getstock_run (w : world) (argv : list cstring) (st : cli)
           (ac : Z) (av : nat) : trace getstock_exit :=
  if (ac =? 0)%Z then mkTrace [] (Exited NoStockSymbol)
  else
    match api_key_file st with
    | [] => mkTrace [] (Exited ApiKeyFileMissing)
    | _ :: _ =>
        let key := strip (slurp (key_files w) (api_key_file st)) in
        match key with
        | [] => mkTrace [] (Exited FailedToReadApiKey)
        | _ :: _ =>
            let root : option cstring :=
              match cli_dbroot st with
              | [] => Some []
              | r =>
                  if (database_init w r =? -1)%Z then None
                  else Some (strip_dbroot r)
              end in
            match root with
            | None => mkTrace [] (Exited FailedToInitDatabase)
            | Some r =>
                fetch_io (length argv) w argv
                         (mkOptions key (cli_begin st) (cli_end st) r)
                         ac av []
            end
        end
    end.

(** [main]: [argv] holds [argc] arguments, the name of the program
    first. *)
Definition getstock_main (w : world) (argv : list cstring)
  : trace getstock_exit :=
  if length argv <? 2 then mkTrace [] (Exited Usage)
  else
    match nth_error argv 1 with
    | None => mkTrace [] (Exited Usage)
    | Some a1 =>
        if (strcmp a1 (lit "-h") =? 0)%Z || (strcmp a1 (lit "--help") =? 0)%Z
        then mkTrace [] (Exited Usage)
        else
          match getstock_options (length argv) argv cli_empty
                                 (Z.of_nat (length argv) - 1)%Z 1 with
          | Halt e => mkTrace [] e
          | Go (st, ac, av) => getstock_run w argv st ac av
          end
    end.

(* ================================================================== *)
(** ** [main] (src/main.cc) *)

Inductive TCostModel : Type := TCostNULL | TCostPerTrade | TCostPerShare.
Inductive EModels : Type := ModelNULL | MeanVar.

Definition DEFAULT_VARIANCE : double := Num (1 # 10).
Definition DEFAULT_MEAN_RETURN : double := Num (5 # 100).
Definition DEFAULT_TCOST : double := Num (10 # 1).

(** The variables the option loop of [main] fills. *)
Record settings : Type := mkSettings {
  models : list EModels;
  initial_capital : double;
  variance : double;
  mean_return : double;
  tcost : double;
  tcm : TCostModel
}.

(** [main] starts with the numbers at 0.0, [tcm] at [TCostNULL] and no
    model. *)
Definition settings_start : settings :=
  mkSettings [] (Num 0) (Num 0) (Num 0) (Num 0) TCostNULL.

(** The sites of [usage] and [die] in [main], and a [die] of
    [read_stock_data]. *)
Inductive main_exit : Type :=
| MainUsage
| BadCostModel            (* "Transaction cost model must be ..."; usage *)
| MissingCostValue        (* "Transaction cost option is missing its value."; usage *)
| BadInitialCapital       (* "Failed to parse initial capital: %s" *)
| BadTransactionCost      (* "Failed to parse transaction cost value: %s" *)
| UnknownModel            (* "Unknown model name: %s" *)
| BadVariance             (* "Failed to parse variance: %s" *)
| BadMeanReturn           (* "Failed to parse mean_return: %s" *)
| BadBeginDate            (* "Error parsing date: %s", the first date *)
| BadEndDate              (* "Error parsing date: %s", the second date *)
| Library (e : fatal).

(** The messages of [warn] when a default is taken. *)
Inductive warning : Type :=
| NoModels | NoCostModel | NoVariance | NoMeanReturn.

(** [x = strtod(tmp, &endptr); if (x == 0.0 && endptr == tmp) die(...)]. *)
Definition parse_number (tmp : cstring) : option double :=
  let '(x, endptr) := strtod tmp in
  if is_zero x && same_ptr endptr tmp then None else Some x.

(** The [while (tmp != NULL && *tmp != '-')] loop of the case [m]: the
    models pushed, and [ac], [av] and [tmp] as the loop leaves them. *)
Fixpoint models_loop (fuel : nat) (argv : list cstring) (ms : list EModels)
         (ac : Z) (av : nat) (tmp : slot)
  : step main_exit (list EModels * Z * nat * slot) :=
  match tmp with
  | Wild => Halt Undefined
  | Null => Go (ms, ac, av, tmp)
  | Arg s =>
      match s with
      | c :: _ =>
          if Ascii.eqb c DASH then Go (ms, ac, av, tmp)
          else
            match fuel with
            | O => Halt Unfinished
            | S fuel' =>
                if (strcmp s (lit "meanvar") =? 0)%Z then
                  models_loop fuel' argv (ms ++ [MeanVar]) (ac - 1)%Z (S av)
                              (arg_at argv (S av))
                else Halt (Exited UnknownModel)
            end
      | [] =>
          match fuel with
          | O => Halt Unfinished
          | S fuel' => Halt (Exited UnknownModel)
          end
      end
  end.

(** One case of the [switch], from [tmp] on; [ac] and [av] are those
    after [tmp] was taken.  The result is the variables, [ac] and [av]
    at the [break]. *)
Definition main_case (fuel : nat) (argv : list cstring) (st : settings)
           (c : ascii) (tmp : slot) (ac : Z) (av : nat)
  : step main_exit (settings * Z * nat) :=
  if Ascii.eqb c "c" then
    match tmp with
    | Arg t =>
        match parse_number t with
        | Some x => Go (mkSettings (models st) x (variance st) (mean_return st)
                                   (tcost st) (tcm st), ac, av)
        | None => Halt (Exited BadInitialCapital)
        end
    | _ => Halt Undefined
    end
  else if Ascii.eqb c "t" then
    match tmp with
    | Arg t =>
        let model :=
          if (strcmp t (lit "ps") =? 0)%Z then Some TCostPerShare
          else if (strcmp t (lit "pt") =? 0)%Z then Some TCostPerTrade
          else None in
        match model with
        | None => Halt (Exited BadCostModel)
        | Some m =>
            (* --ac; ++av; tmp = av[0]; then the test of tmp[0] against the dash *)
            match arg_at argv (S av) with
            | Arg t2 =>
                if match t2 with c2 :: _ => Ascii.eqb c2 DASH | [] => false end
                then Halt (Exited MissingCostValue)
                else
                  match parse_number t2 with
                  | Some x =>
                      Go (mkSettings (models st) (initial_capital st)
                                     (variance st) (mean_return st) x m,
                          (ac - 1)%Z, S av)
                  | None => Halt (Exited BadTransactionCost)
                  end
            | _ => Halt Undefined
            end
        end
    | _ => Halt Undefined
    end
  else if Ascii.eqb c "m" then
    match models_loop fuel argv (models st) ac av tmp with
    | Halt e => Halt e
    | Go (ms, ac1, av1, tmp1) =>
        let st' := mkSettings ms (initial_capital st) (variance st)
                              (mean_return st) (tcost st) (tcm st) in
        match tmp1 with
        | Arg (c1 :: _) =>
            if Ascii.eqb c1 DASH then
              (* ++ac; --av: [av1] is at least 1 here *)
              Go (st', (ac1 + 1)%Z, av1 - 1)
            else Go (st', ac1, av1)
        | _ => Go (st', ac1, av1)
        end
    end
  else if Ascii.eqb c "v" then
    match tmp with
    | Arg t =>
        match parse_number t with
        | Some x => Go (mkSettings (models st) (initial_capital st) x
                                   (mean_return st) (tcost st) (tcm st), ac, av)
        | None => Halt (Exited BadVariance)
        end
    | _ => Halt Undefined
    end
  else if Ascii.eqb c "r" then
    match tmp with
    | Arg t =>
        match parse_number t with
        | Some x => Go (mkSettings (models st) (initial_capital st) (variance st)
                                   x (tcost st) (tcm st), ac, av)
        | None => Halt (Exited BadMeanReturn)
        end
    | _ => Halt Undefined
    end
  else Halt (Exited MainUsage).

(** The option loop, as that of [getstock]: every case sets [brk_] or
    leaves the program, so one letter is read of every argument. *)
Fixpoint main_options (fuel : nat) (argv : list cstring) (st : settings)
         (ac : Z) (av : nat) : step main_exit (settings * Z * nat) :=
  if (ac =? 0)%Z then Go (st, ac, av)
  else
    match arg_at argv av with
    | Wild => Halt Undefined
    | Null => Go (st, ac, av)
    | Arg s =>
        match s with
        | d :: c :: v =>
            if negb (Ascii.eqb d DASH) then Go (st, ac, av)
            else if Ascii.eqb c DASH && match v with [] => true | _ => false end
            then Go (st, (ac - 1)%Z, S av)
            else
              match fuel with
              | O => Halt Unfinished
              | S fuel' =>
                  let '(tmp, ac1, av1) :=
                    match v with
                    | [] => (arg_at argv (S av), (ac - 1)%Z, S av)
                    | _ :: _ => (Arg v, ac, av)
                    end in
                  match main_case (length argv) argv st c tmp ac1 av1 with
                  | Halt e => Halt e
                  | Go (st', ac2, av2) =>
                      main_options fuel' argv st' (ac2 - 1)%Z (S av2)
                  end
              end
        | _ => Go (st, ac, av)
        end
    end.

(** The defaults that follow the option loop, with their warnings. *)
Definition apply_defaults (st : settings) : settings * list warning :=
  let '(ms, w1) :=
    match models st with
    | [] => ([MeanVar], [NoModels])
    | ms => (ms, [])
    end in
  let '(m, cost, w2) :=
    match tcm st with
    | TCostNULL => (TCostPerTrade, DEFAULT_TCOST, [NoCostModel])
    | m => (m, tcost st, [])
    end in
  let '(v, w3) :=
    if is_zero (variance st) then (DEFAULT_VARIANCE, [NoVariance])
    else (variance st, []) in
  let '(r, w4) :=
    if is_zero (mean_return st) then (DEFAULT_MEAN_RETURN, [NoMeanReturn])
    else (mean_return st, []) in
  (mkSettings ms (initial_capital st) v r cost m, w1 ++ w2 ++ w3 ++ w4).

(** [std::cin >> word]: white space is passed over and the bytes up to
    the next white space are the word; [None] when the input ends
    first. *)
Fixpoint take_word (s : cstring) : cstring * cstring :=
  match s with
  | [] => ([], [])
  | c :: t =>
      if isspace c then ([], s)
      else let '(word, rest) := take_word t in (c :: word, rest)
  end.

Definition cin_word (input : cstring) : option (cstring * cstring) :=
  match skip_space input with
  | [] => None
  | s => Some (take_word s)
  end.

(** [while (std::cin >> tmp) files.emplace_back(tmp)]; a word has a
    byte at least, so the bound is the length of the input. *)
Fixpoint cin_words (fuel : nat) (input : cstring) : list cstring :=
  match fuel with
  | O => []
  | S fuel' =>
      match cin_word input with
      | None => []
      | Some (word, rest) => word :: cin_words fuel' rest
      end
  end.

(** What [main] has when it returns 0: the variables, the warnings it
    printed and the data read. *)
Record main_state : Type := mkMainState {
  final : settings;
  warned : list warning;
  data : list (list double)
}.

(** [main] after the option loop: the defaults, the two dates and the
    file names from the standard input, the files. *)
Definition main_run (input : cstring) (fs : filesystem) (st : settings)
  : step main_exit main_state :=
  let '(st', warnings) := apply_defaults st in
  let '(begin_date, rest1) :=
    match cin_word input with
    | Some r => r
    | None => ([], [])
    end in
  let '(end_date, rest2) :=
    match cin_word rest1 with
    | Some r => r
    | None => ([], [])
    end in
  let begin := parse_date begin_date in
  let end_ := parse_date end_date in
  if (begin =? 0)%Z then Halt (Exited BadBeginDate)
  else if (end_ =? 0)%Z then Halt (Exited BadEndDate)
  else
    let files := cin_words (length rest2) rest2 in
    match read_stock_data fs files with
    | Ret d => Go (mkMainState st' warnings d)
    | Die e => Halt (Exited (Library e))
    | Fault => Halt Undefined
    | Diverge => Halt Unfinished
    end.

Definition main_cc (argv : list cstring) (input : cstring) (fs : filesystem)
  : step main_exit main_state :=
  match main_options (length argv) argv settings_start
                     (Z.of_nat (length argv) - 1)%Z 1 with
  | Halt e => Halt e
  | Go (st, _, _) => main_run input fs st
  end.

(* ================================================================== *)
(** ** Notions the statements use *)

(** [p] starts [s]. *)
Fixpoint is_prefix (p s : cstring) : bool :=
  match p, s with
  | [], _ => true
  | _ :: _, [] => false
  | x :: p', c :: s' => Ascii.eqb x c && is_prefix p' s'
  end.

(** The number of positions of [s] at which [p] occurs. *)
Fixpoint occurrences (p s : cstring) : nat :=
  (if is_prefix p s then 1 else 0)
  + match s with
    | [] => 0
    | _ :: t => occurrences p t
    end.

(** A query parameter: its name and value when the date is there. *)
Definition date_param (name : cstring) (d : option cstring) : cstring :=
  match d with
  | Some v => name ++ v
  | None => []
  end.

Definition AMP : ascii := ascii_of_nat 38.

(** A reversed path without its leading slashes, and a path without the
    slashes that end it. *)
Fixpoint drop_slashes (r : cstring) : cstring :=
  match r with
  | c :: t => if Ascii.eqb c SLASH then drop_slashes t else r
  | [] => []
  end.

Definition trim_slashes (root : cstring) : cstring :=
  rev (drop_slashes (rev root)).

(** Two texts that differ in letter case only. *)
Definition same_caseless (a b : cstring) : Prop :=
  map tolower a = map tolower b.

(** A line of a text file as [fgets] reads it whole into [char buf[256]]:
    at most 254 bytes without line feed, then a line feed. *)
Definition is_line (l : cstring) : Prop :=
  exists body, l = body ++ [LF] /\ ~ In LF body /\ length body < 255.

(** The stream over a header line and rows. *)
Definition stream_of (header : cstring) (rows : list cstring) : FILE :=
  fopen_text (header ++ concat rows).

(** The rows [read_until] reads: up to the first one dated [begin] or
    later, that row included. *)
Fixpoint rows_read (begin : time_t) (rows : list cstring) (dates : list time_t)
  : list cstring :=
  match rows, dates with
  | r :: rows', t :: dates' =>
      if (t >=? begin)%Z then [r] else r :: rows_read begin rows' dates'
  | _, _ => []
  end.

(** Does the text start, after white space and a sign, with something
    [strtod] converts: a digit, a point and a digit, [inf] or [nan]? *)
Definition has_numeric_prefix (p : cstring) : bool :=
  let '(_, s) := read_sign (skip_space p) in
  match s with
  | c :: t =>
      isdigit c
      || (Ascii.eqb c DOT && match t with d :: _ => isdigit d | [] => false end)
      || match starts_with_word (lit "inf") s with Some _ => true | None => false end
      || match starts_with_word (lit "nan") s with Some _ => true | None => false end
  | [] => false
  end.

Definition cstring_eqb (a b : cstring) : bool :=
  (length a =? length b) && is_prefix a b.

(** Files of [name] and [text]. *)
Fixpoint files (l : list (string * cstring)) : filesystem :=
  fun path =>
    match l with
    | [] => None
    | (name, text) :: l' =>
        if cstring_eqb path (lit name) then Some text else files l' path
    end.

(** Two files of one row each. *)
Definition two_files : filesystem :=
  files [("a.csv"%string, ln "Date,Adj. Close,Volume" ++ ln "2018-01-02,1.5,10");
         ("b.csv"%string, ln "Date,Adj. Close,Volume" ++ ln "2018-01-02,2.5,20")].

(** A file with the header of the specification, the price column last. *)
Definition price_column_last : filesystem :=
  files [("c.csv"%string, ln "Date,Open,High,Low,Close,Volume,Adj. Close"
                           ++ ln "2018-01-02,1,2,3,4,5,6.5")].



(** The header line of the fields [fields], a separator between each
    two. *)
Fixpoint join (fields : list cstring) : cstring :=
  match fields with
  | [] => []
  | f :: rest =>
      match rest with
      | [] => f
      | _ :: _ => f ++ DATA_SEP :: join rest
      end
  end.

(** [f] is the start of [name], letter case apart. *)
Fixpoint caseless_prefix (f name : cstring) : bool :=
  match f, name with
  | [], _ => true
  | _ :: _, [] => false
  | c :: f', d :: name' =>
      Ascii.eqb (tolower c) (tolower d) && caseless_prefix f' name'
  end.

(** The position, counted from [k], of the first field that is the start
    of [name]. *)
Fixpoint first_match (name : cstring) (fields : list cstring) (k : nat)
  : option nat :=
  match fields with
  | [] => None
  | f :: rest =>
      if caseless_prefix f name then Some k else first_match name rest (S k)
  end.

Definition NUL : ascii := ascii_of_nat 0.

(** A field of a header: no separator and no zero byte in it. *)
Definition field_ok (g : cstring) : Prop := ~ In DATA_SEP g /\ ~ In NUL g.

(** What [read_stock_data] returns for files whose rows yield [valss],
    after the prices [acc]: every file gets the prices so far. *)
Fixpoint running (acc : list double) (valss : list (list double))
  : list (list double) :=
  match valss with
  | [] => []
  | vals :: rest => (acc ++ vals) :: running (acc ++ vals) rest
  end.

(** A file that opens, with a header line in which [indexOf] finds the
    price column and rows, in lines, whose prices are [vals]. *)
Definition priced_file (fs : filesystem) (fp : cstring) (vals : list double)
  : Prop :=
  exists (header : cstring) (rows : list cstring) (idx : nat),
    fs fp = Some (header ++ concat rows)
    /\ is_line header
    /\ Forall is_line rows
    /\ indexOf header (lit "Adj. Close") = Ret idx
    /\ Forall2 (fun r v => row_price idx r = Ret v) rows vals.

(** A text without the white space at its two ends. *)
Definition trim (s : cstring) : cstring :=
  rev (skip_space (rev (skip_space s))).

Definition epoch : tm := mkTm 70 0 1.

(** The option loop of [getstock] on the arguments that are left, as a
    list: the strings it fills and the arguments after the options. *)
Fixpoint cli_words (rest : list cstring) (st : cli)
  : step getstock_exit (cli * list cstring) :=
  match rest with
  | [] => Go (st, [])
  | s :: rest' =>
      match s with
      | d :: c :: v =>
          if negb (Ascii.eqb d DASH) then Go (st, rest)
          else if Ascii.eqb c DASH && match v with [] => true | _ => false end
          then Go (st, rest')
          else
            match set_option c [] st with
            | None => Halt (Exited Usage)
            | Some _ =>
                match v with
                | _ :: _ =>
                    match set_option c v st with
                    | Some st' => cli_words rest' st'
                    | None => Halt (Exited Usage)
                    end
                | [] =>
                    match rest' with
                    | [] => Halt Undefined
                    | t :: rest'' =>
                        match set_option c t st with
                        | Some st' => cli_words rest'' st'
                        | None => Halt (Exited Usage)
                        end
                    end
                end
            end
      | _ => Go (st, rest)
      end
  end.

(** The rounds of the ticker loop over a list of arguments. *)
Fixpoint fetch_words (w : world) (o : options) (tickers : list cstring)
  : trace getstock_exit :=
  match tickers with
  | [] => mkTrace [] Returned
  | a :: rest =>
      let round := fetch_round w o a [] in
      match ended round with
      | Returned => after (actions round) (fetch_words w o rest)
      | _ => round
      end
  end.

(** What the run prints for one ticker when there is no output
    directory, and what it writes when there is one. *)
Definition printed_for (w : world) (o : options) (a : cstring) : list action :=
  let u := make_url (upper a) (api_key o) (Some (begin o)) (Some (end_ o)) in
  [Fetched u;
   Printed (lit "begin:" ++ upper a ++ [LF]);
   Printed (concat (http w u));
   Printed (lit "end:" ++ upper a ++ [LF])].

Definition file_name_for (o : options) (dir a : cstring) : cstring :=
  trim_slashes dir ++ [SLASH] ++ upper a
  ++ [DOT] ++ begin o ++ [DOT] ++ end_ o ++ lit ".csv".

Definition written_for (w : world) (o : options) (dir a : cstring)
  : list action :=
  let u := make_url (upper a) (api_key o) (Some (begin o)) (Some (end_ o)) in
  [Fetched u; Wrote (file_name_for o dir a) (concat (http w u))].

(** The body of the ticker [a] is short enough for [int bufsize]. *)
Definition body_fits (w : world) (o : options) (a : cstring) : Prop :=
  (Z.of_nat (length (concat (http w (make_url (upper a) (api_key o)
                                       (Some (begin o)) (Some (end_ o))))))
   < 2 ^ 31)%Z.

(** [main] of [getstock] after the options, on the strings they filled
    and the tickers that are left. *)
Definition run_words (w : world) (st : cli) (tickers : list cstring)
  : trace getstock_exit :=
  match tickers with
  | [] => mkTrace [] (Exited NoStockSymbol)
  | _ :: _ =>
      match api_key_file st with
      | [] => mkTrace [] (Exited ApiKeyFileMissing)
      | _ :: _ =>
          match strip (slurp (key_files w) (api_key_file st)) with
          | [] => mkTrace [] (Exited FailedToReadApiKey)
          | key =>
              match cli_dbroot st with
              | [] =>
                  fetch_words w (mkOptions key (cli_begin st) (cli_end st) [])
                              tickers
              | r =>
                  if (database_init w r =? -1)%Z
                  then mkTrace [] (Exited FailedToInitDatabase)
                  else fetch_words w (mkOptions key (cli_begin st) (cli_end st)
                                                (strip_dbroot r))
                                   tickers
              end
          end
      end
  end.

(** The key a run of [getstock] uses, and the strings the builders
    get. *)
Definition key_of (w : world) (st : cli) : cstring :=
  strip (slurp (key_files w) (api_key_file st)).

Definition fetch_options (w : world) (st : cli) (root : cstring) : options :=
  mkOptions (key_of w st) (cli_begin st) (cli_end st) root.

(** What the option loop leaves: the strings and the arguments from
    [av] on. *)
Definition options_result (argv : list cstring)
           (r : step getstock_exit (cli * Z * nat))
  : step getstock_exit (cli * list cstring) :=
  match r with
  | Go (st, _, av) => Go (st, skipn av argv)
  | Halt e => Halt e
  end.

(** A world for the examples: the key file [key], a body that arrives
    in two pieces whatever the URL, and files that open for writing as
    [writable] says. *)
Definition sample_world (writable : cstring -> bool) : world :=
  mkWorld (files [("key"%string, ln "  abc123 ")])
          (fun _ => Created) (fun _ => true) writable
          (fun _ => [ln "Date,Close"; ln "2018-01-02,10"]).

(** A word of the standard input: a byte at least and no white space. *)
Definition is_word (word : cstring) : Prop :=
  word <> [] /\ Forall (fun c => isspace c = false) word.

(** The occurrences of [p] in [left ++ p ++ right] besides the one
    between [left] and [right]: those that start in [left], and run into
    [p] or not, and those that start behind the first byte of [p]. *)
Definition elsewhere (p left right : cstring) : nat :=
  occurrences p (left ++ removelast p) + occurrences p (tl p ++ right).




(** The rows of the scanner example with the date as the last column. *)
Definition scanner_date_last : FILE :=
  fopen_text (ln "Close,Date" ++ ln "10,2018-01-02" ++ ln "11,2018-01-03"
              ++ ln "12,2018-01-05").

(** The option letters of [getstock] that take a value. *)
Definition takes_value (c : ascii) : bool :=
  existsb (Ascii.eqb c) (lit "kbeo").

(** Arguments that the option loop of [getstock] reads as options with
    their values: a letter that takes a value behind the dash and the
    value attached to it, or the letter alone and the value in the next
    argument. *)
Inductive option_words : list cstring -> Prop :=
| option_words_nil : option_words []
| option_words_attached (c : ascii) (v : cstring) (rest : list cstring) :
    takes_value c = true -> v <> [] -> option_words rest ->
    option_words ((DASH :: c :: v) :: rest)
| option_words_next (c : ascii) (v : cstring) (rest : list cstring) :
    takes_value c = true -> option_words rest ->
    option_words ([DASH; c] :: v :: rest).

(** The option letters of [main] in [src/main.cc] that take one
    number. *)
Definition takes_number (c : ascii) : bool :=
  existsb (Ascii.eqb c) (lit "cvr").

(** Arguments that the option loop of [main] reads as options [-c],
    [-v] and [-r] with their numbers, attached or in the next
    argument. *)
Inductive number_options : list cstring -> Prop :=
| number_options_nil : number_options []
| number_options_attached (c : ascii) (v : cstring) (rest : list cstring) :
    takes_number c = true -> has_numeric_prefix v = true ->
    number_options rest ->
    number_options ((DASH :: c :: v) :: rest)
| number_options_next (c : ascii) (v : cstring) (rest : list cstring) :
    takes_number c = true -> has_numeric_prefix v = true ->
    number_options rest ->
    number_options ([DASH; c] :: v :: rest).

(* ================================================================== *)
(** ** The documented examples *)

Example indexOf_doc_example :
  indexOf (lit "Date,Open,High,Low,Close") (lit "Low") = Ret 3.
Proof. reflexivity. Qed.

Example indexOf_last_with_newline :
  indexOf (ln "Date,Open,High,Low,Close,Volume,Adj. Close") (lit "Adj. Close")
  = Die FieldNotFoundInData.
Proof. reflexivity. Qed.

Example mktime_epoch : option_map mktime (strptime (lit "1970-01-01")) = Some 0%Z.
Proof. reflexivity. Qed.

Example mktime_2018_01_03 :
  option_map mktime (strptime (ln "2018-01-03,11")) = Some 1514937600%Z.
Proof. reflexivity. Qed.

Example read_until_example_date :
  option_map fst
    (match read_until scanner_example date_2018_01_03 with
     | Ret r => Some r | _ => None end) = Some date_2018_01_03.
Proof. reflexivity. Qed.

Example strtod_decimal : strtod (lit "12.5,x") = (Num (25 # 2), lit ",x").
Proof. reflexivity. Qed.

Example strtod_exponent : strtod (lit " -1.5e2") = (Num (-150 # 1), []).
Proof. reflexivity. Qed.

Example strtod_hex : strtod (lit "0x1Ap1z") = (Num (52 # 1), lit "z").
Proof. reflexivity. Qed.

Example strtod_nothing : strtod (lit "abc") = (Num 0, lit "abc").
Proof. reflexivity. Qed.

Example strtod_prefix : strtod (lit "12abc") = (Num (12 # 1), lit "abc").
Proof. reflexivity. Qed.

Example make_url_doc :
  make_url (lit "JPM") (lit "k3y") (Some (lit "2018-01-01")) None
  = lit "https://www.quandl.com/api/v3/datasets/WIKI/JPM.csv?order=asc&api_key=k3y&start_date=2018-01-01".
Proof. reflexivity. Qed.

Example make_filename_doc :
  make_filename (lit "/path/to/dir") (lit "TICKER") (Some (lit "begin")) (Some (lit "end"))
  = Ret (lit "/path/to/dir/TICKER.begin.end.csv").
Proof. reflexivity. Qed.

(* ================================================================== *)
(** ** [indexOf]: the loop ends, and the offsets it returns *)

Lemma find_from_ge (s : cstring) (c : ascii) :
  forall from i, find_from s c from = Some i -> from <= i.
Proof.
  induction s as [|x t IH]; intros from i H; simpl in H.
  - discriminate.
  - destruct from as [|from'].
    + lia.
    + destruct (find_from t c from') as [j|] eqn:E; simpl in H; try discriminate.
      injection H as <-. apply IH in E. lia.
Qed.

Lemma strchrnul_from_ge (s : cstring) (c : ascii) (from : nat) :
  from <= strchrnul_from s c from.
Proof.
  unfold strchrnul_from.
  destruct (find_from s c from) as [i|] eqn:E.
  - eapply find_from_ge; eassumption.
  - lia.
Qed.

Lemma indexOf_loop_returns (line field : cstring) (lineEnd : nat) :
  forall fuel begin end_ index,
    begin <= end_ -> lineEnd - begin <= fuel ->
    exists i, indexOf_loop fuel line field begin end_ lineEnd index = Ret i.
Proof.
  induction fuel as [|fuel IH]; intros begin end_ index Hle Hfuel.
  - simpl. destruct (begin <? lineEnd) eqn:E.
    + apply Nat.ltb_lt in E. lia.
    + eauto.
  - simpl. destruct (begin <? lineEnd) eqn:E; [|eauto].
    apply Nat.ltb_lt in E.
    destruct (strncasecmp (skipn begin line) field (end_ - begin) =? 0)%Z; [eauto|].
    apply IH.
    + apply strchrnul_from_ge.
    + lia.
Qed.

(** [indexOf] returns an offset or dies: it neither loops nor faults. *)
Lemma indexOf_total (line field : cstring) :
  (exists i, indexOf line field = Ret i) \/ (exists e, indexOf line field = Die e).
Proof.
  unfold indexOf.
  destruct (find_from line DATA_SEP 0) as [end_|].
  - destruct (@indexOf_loop_returns line field (length line)
                (S (length line)) 0 end_ 0) as [i Hi]; try lia.
    rewrite Hi. simpl.
    destruct (count_sep line <? i); eauto.
  - destruct (strcmp line field =? 0)%Z; eauto.
Qed.

(** C9.  Every offset that [indexOf] returns is at most the number of
    separators of the header line. *)
Theorem indexOf_le_count_sep (line field : cstring) (i : nat) :
  indexOf line field = Ret i -> i <= count_sep line.
Proof.
  unfold indexOf.
  destruct (find_from line DATA_SEP 0) as [end_|].
  - destruct (indexOf_loop _ _ _ _ _ _ _) as [index| | |]; simpl; try discriminate.
    destruct (count_sep line <? index) eqn:E; try discriminate.
    intros H. injection H as <-. apply Nat.ltb_ge in E. exact E.
  - destruct (strcmp line field =? 0)%Z; try discriminate.
    intros H. injection H as <-. lia.
Qed.

Lemma indexOf_le_count_sep_witness :
  3 <= count_sep (lit "Date,Open,High,Low,Close").
Proof.
  apply (@indexOf_le_count_sep (lit "Date,Open,High,Low,Close") (lit "Low") 3).
  reflexivity.
Defined.


(** C7.  On a header without separator [indexOf] compares with [strcmp],
    not with the caseless comparison of the separated fields: ["DATE"]
    and ["date"] are equal for [strncasecmp], the call on them dies, and
    the same field is found at offset 0 once a separator follows it. *)
Theorem indexOf_no_separator_case_sensitive :
  count_sep (lit "DATE") = 0
  /\ strncasecmp (lit "DATE") (lit "date") 4 = 0%Z
  /\ indexOf (lit "DATE") (lit "date") = Die FieldNotFoundInString
  /\ indexOf (lit "DATE,CLOSE") (lit "date") = Ret 0.
Proof. repeat split; reflexivity. Qed.

(** C8.  Changing the letter case of a header without separator changes
    what [indexOf] does: offset 0 for ["date"], death for ["DATE"]; the two
    calls the specification names, on headers with a separator, both
    return 0. *)
Theorem indexOf_case_changes_result :
  same_caseless (lit "date") (lit "DATE")
  /\ indexOf (lit "date") (lit "date") = Ret 0
  /\ indexOf (lit "DATE") (lit "date") = Die FieldNotFoundInString
  /\ indexOf (lit "date,close") (lit "Date") = Ret 0
  /\ indexOf (lit "DATE,CLOSE") (lit "date") = Ret 0.
Proof. repeat split; reflexivity. Qed.

(* ================================================================== *)
(** ** [indexOf] on a header with a separator: letter case apart *)

Lemma tolower_idem (c : ascii) : tolower (tolower c) = tolower c.
Proof. destruct c as [[] [] [] [] [] [] [] []]; reflexivity. Qed.

Lemma eqb_sep_tolower (c : ascii) :
  Ascii.eqb (tolower c) DATA_SEP = Ascii.eqb c DATA_SEP.
Proof. destruct c as [[] [] [] [] [] [] [] []]; reflexivity. Qed.

Lemma find_from_tolower (s : cstring) :
  forall from,
    find_from (map tolower s) DATA_SEP from = find_from s DATA_SEP from.
Proof.
  induction s as [|x t IH]; intros from; simpl; [reflexivity|].
  destruct from; rewrite ?eqb_sep_tolower, IH; reflexivity.
Qed.

Lemma count_sep_tolower (s : cstring) :
  count_sep (map tolower s) = count_sep s.
Proof.
  induction s as [|x t IH]; simpl; [reflexivity|].
  rewrite eqb_sep_tolower, IH. reflexivity.
Qed.

Lemma strncasecmp_tolower (n : nat) :
  forall s1 s2,
    strncasecmp (map tolower s1) (map tolower s2) n = strncasecmp s1 s2 n.
Proof.
  induction n as [|n IH]; intros s1 s2; [reflexivity|].
  destruct s1 as [|c1 t1], s2 as [|c2 t2]; simpl;
    rewrite ?tolower_idem; try reflexivity.
  rewrite IH. reflexivity.
Qed.

Lemma same_caseless_length (a b : cstring) :
  same_caseless a b -> length a = length b.
Proof.
  intros H. apply (f_equal (@length ascii)) in H.
  rewrite !length_map in H. exact H.
Qed.

Lemma find_from_caseless (a b : cstring) (from : nat) :
  same_caseless a b -> find_from a DATA_SEP from = find_from b DATA_SEP from.
Proof.
  intros H. rewrite <- (find_from_tolower a), <- (find_from_tolower b).
  unfold same_caseless in H. rewrite H. reflexivity.
Qed.

Lemma strncasecmp_caseless (a b f g : cstring) (from n : nat) :
  same_caseless a b -> same_caseless f g ->
  strncasecmp (skipn from a) f n = strncasecmp (skipn from b) g n.
Proof.
  intros Hab Hfg.
  rewrite <- (strncasecmp_tolower n (skipn from a) f).
  rewrite <- (strncasecmp_tolower n (skipn from b) g).
  rewrite <- !skipn_map. unfold same_caseless in *. rewrite Hab, Hfg.
  reflexivity.
Qed.

Lemma indexOf_loop_caseless (a b f g : cstring) (lineEnd : nat) :
  same_caseless a b -> same_caseless f g ->
  forall fuel begin end_ index,
    indexOf_loop fuel a f begin end_ lineEnd index
    = indexOf_loop fuel b g begin end_ lineEnd index.
Proof.
  intros Hab Hfg.
  induction fuel as [|fuel IH]; intros begin end_ index; simpl; [reflexivity|].
  rewrite (strncasecmp_caseless begin (end_ - begin) Hab Hfg).
  unfold strchrnul_from.
  rewrite (find_from_caseless (end_ + 1) Hab), (same_caseless_length Hab).
  rewrite IH. reflexivity.
Qed.

(** On a header with a separator the letter case of the header and of
    the field name does not change what [indexOf] does. *)
Lemma indexOf_separated_caseless (line line' field field' : cstring) :
  same_caseless line line' -> same_caseless field field' ->
  0 < count_sep line ->
  indexOf line field = indexOf line' field'.
Proof.
  intros Hl Hf Hsep. unfold indexOf.
  rewrite <- (find_from_caseless 0 Hl).
  destruct (find_from line DATA_SEP 0) as [end_|] eqn:E.
  - rewrite (indexOf_loop_caseless (length line) Hl Hf).
    rewrite (same_caseless_length Hl).
    rewrite <- (count_sep_tolower line), <- (count_sep_tolower line').
    unfold same_caseless in Hl. rewrite Hl. reflexivity.
  - exfalso. revert E Hsep. clear.
    induction line as [|x t IH]; simpl; [lia|].
    destruct (Ascii.eqb x DATA_SEP); [discriminate|].
    destruct (find_from t DATA_SEP 0); [discriminate|].
    intros _ H. apply IH; [reflexivity | exact H].
Qed.

(* ================================================================== *)
(** ** [read_until]: the row that is found *)

(** [fseek(file, SEEK_CUR, -nread)] passes [SEEK_CUR] as the offset and
    [-nread] as [whence]: for a row of at least one byte that is no valid
    [whence], and the stream stays where it is. *)
Lemma fseek_swapped_arguments (file : FILE) (nread : nat) :
  0 < nread -> fseek file SEEK_CUR (- Z.of_nat nread) = ((-1)%Z, file).
Proof.
  intros H. unfold fseek, SEEK_SET, SEEK_CUR, SEEK_END.
  destruct (- Z.of_nat nread =? 0)%Z eqn:E0; [apply Z.eqb_eq in E0; lia|].
  destruct (- Z.of_nat nread =? 1)%Z eqn:E1; [apply Z.eqb_eq in E1; lia|].
  destruct (- Z.of_nat nread =? 2)%Z eqn:E2; [apply Z.eqb_eq in E2; lia|].
  reflexivity.
Qed.

(** C1.  On the scanner example of the specification [read_until] returns
    2018-01-03 and leaves the stream after the row of that date: the next
    row read is [2018-01-05,12], not [2018-01-03,11]. *)
Theorem read_until_consumes_found_row :
  read_until scanner_example date_2018_01_03
  = Ret (date_2018_01_03, mkFILE (contents scanner_example) 39)
  /\ option_map fst (fgets 256 (mkFILE (contents scanner_example) 39))
     = Some (ln "2018-01-05,12")
  /\ ln "2018-01-05,12" <> ln "2018-01-03,11".
Proof.
  split; [reflexivity|]. split; [reflexivity|]. discriminate.
Qed.

(* ================================================================== *)
(** ** [make_filename] and the slashes that end the root *)

Lemma back_snoc (s : cstring) (c : ascii) : back (s ++ [c]) = Some c.
Proof. unfold back. rewrite rev_app_distr. reflexivity. Qed.

Lemma back_nonempty (s : cstring) : s <> [] -> exists c, back s = Some c.
Proof.
  intros H. unfold back. destruct (rev s) as [|c r] eqn:E.
  - apply (f_equal (@rev ascii)) in E. rewrite rev_involutive in E.
    simpl in E. contradiction.
  - eauto.
Qed.

(** C6 as stated fails: of two slashes at the end of the root both are
    kept. *)
Lemma make_filename_two_slashes :
  make_filename (lit "data//") (lit "JPM") None None = Ret (lit "data//JPM.csv")
  /\ make_filename (lit "data//") (lit "JPM") None None
     <> Ret (trim_slashes (lit "data//") ++ [SLASH] ++ lit "JPM" ++ lit ".csv").
Proof. split; [reflexivity|discriminate]. Qed.

(** C6, amended.  For a root that is a stem with at most one slash after
    it, the stem not ending in a slash, [make_filename] returns
    [stem/T.csv] without dates and [stem/T.b.e.csv] with both. *)
Theorem make_filename_one_separator (stem ticker b e root : cstring) :
  back stem <> Some SLASH ->
  (root = stem /\ stem <> []) \/ root = stem ++ [SLASH] ->
  make_filename root ticker None None
  = Ret (stem ++ [SLASH] ++ ticker ++ lit ".csv")
  /\ make_filename root ticker (Some b) (Some e)
     = Ret (stem ++ [SLASH] ++ ticker ++ [DOT] ++ b ++ [DOT] ++ e ++ lit ".csv").
Proof.
  intros Hstem [[-> Hne] | ->]; unfold make_filename.
  - destruct (back_nonempty Hne) as [c Hc]. rewrite Hc.
    destruct (Ascii.eqb c SLASH) eqn:E.
    + apply Ascii.eqb_eq in E. subst c. contradiction.
    + split; repeat rewrite <- app_assoc; reflexivity.
  - rewrite back_snoc, Ascii.eqb_refl.
    split; repeat rewrite <- app_assoc; reflexivity.
Qed.

Lemma make_filename_one_separator_witness :
  make_filename (lit "data/") (lit "JPM") None None
  = Ret (lit "data" ++ [SLASH] ++ lit "JPM" ++ lit ".csv")
  /\ make_filename (lit "data/") (lit "JPM")
       (Some (lit "2018-01-01")) (Some (lit "2018-04-01"))
     = Ret (lit "data" ++ [SLASH] ++ lit "JPM" ++ [DOT] ++ lit "2018-01-01"
            ++ [DOT] ++ lit "2018-04-01" ++ lit ".csv").
Proof.
  apply (@make_filename_one_separator (lit "data") (lit "JPM")
           (lit "2018-01-01") (lit "2018-04-01") (lit "data/")).
  - discriminate.
  - right. reflexivity.
Defined.

Lemma pop_slashes_cases (r : cstring) :
  r <> [] ->
  (pop_slashes r = drop_slashes r
   /\ exists c t, drop_slashes r = c :: t /\ c <> SLASH)
  \/ (pop_slashes r = [SLASH] /\ drop_slashes r = []).
Proof.
  induction r as [|c t IH]; intros Hne; [contradiction|].
  destruct t as [|x t'].
  - simpl. destruct (Ascii.eqb c SLASH) eqn:E.
    + apply Ascii.eqb_eq in E. subst. right. split; reflexivity.
    + apply Ascii.eqb_neq in E. left. split; [reflexivity|eauto].
  - change (pop_slashes (c :: x :: t'))
      with (if Ascii.eqb c SLASH then pop_slashes (x :: t') else c :: x :: t').
    change (drop_slashes (c :: x :: t'))
      with (if Ascii.eqb c SLASH then drop_slashes (x :: t') else c :: x :: t').
    destruct (Ascii.eqb c SLASH) eqn:E.
    + apply IH. discriminate.
    + apply Ascii.eqb_neq in E. left. split; [reflexivity|eauto].
Qed.

(** After the loop of [main] has removed the slashes, [make_filename]
    puts one slash between what is left of the root and the ticker. *)
Lemma make_filename_stripped (root ticker : cstring) (b e : option cstring) :
  root <> [] ->
  make_filename (strip_dbroot root) ticker b e
  = Ret (trim_slashes root ++ [SLASH] ++ ticker
         ++ match b, e with
            | Some b', Some e' => [DOT] ++ b' ++ [DOT] ++ e'
            | _, _ => []
            end ++ lit ".csv").
Proof.
  intros Hne.
  assert (Hrev : rev root <> []).
  { intros H. apply (f_equal (@rev ascii)) in H.
    rewrite rev_involutive in H. contradiction. }
  unfold make_filename, strip_dbroot, trim_slashes, back.
  rewrite rev_involutive.
  destruct (pop_slashes_cases Hrev) as [[Hp (c & t & Hd & Hc)] | [Hp Hd]].
  - rewrite Hp, Hd. apply Ascii.eqb_neq in Hc. rewrite Hc.
    destruct b, e; repeat rewrite <- app_assoc; reflexivity.
  - rewrite Hp, Hd. rewrite Ascii.eqb_refl.
    destruct b, e; repeat rewrite <- app_assoc; reflexivity.
Qed.

(** C10.  With no [-b] and no [-e] the fetch loop hands the empty strings
    to the builders as dates that are present: every URL ends in
    [&start_date=&end_date=], and with an output directory every file
    name is [root/TICKER...csv], the root without the slashes that end
    it. *)
Theorem main_fetch_without_dates (key root : cstring) (av : list cstring) :
  main_fetch (mkOptions key [] [] root) av
  = Ret (map (fun a =>
                mkFetch
                  (urlbase ++ upper a ++ lit ".csv?order=asc&api_key=" ++ key
                   ++ lit "&start_date=" ++ lit "&end_date=")
                  (match root with
                   | [] => None
                   | _ => Some (trim_slashes root ++ [SLASH] ++ upper a
                                ++ lit "...csv")
                   end)) av).
Proof.
  unfold main_fetch. cbn [dbroot].
  assert (Hurl : forall t,
             make_url t key (Some []) (Some [])
             = urlbase ++ t ++ lit ".csv?order=asc&api_key=" ++ key
               ++ lit "&start_date=" ++ lit "&end_date=").
  { intros t. unfold make_url. repeat rewrite app_nil_r.
    repeat rewrite <- app_assoc. reflexivity. }
  induction av as [|a av' IH]; [destruct root; reflexivity|].
  destruct root as [|c r].
  - cbn [fetch_loop bind api_key begin end_ map] in *.
    rewrite IH, Hurl. reflexivity.
  - cbn [fetch_loop bind api_key begin end_ map] in *.
    destruct (strip_dbroot (c :: r)) as [|c' r'] eqn:Es.
    + apply (f_equal (@rev ascii)) in Es. unfold strip_dbroot in Es.
      rewrite rev_involutive in Es.
      destruct (@pop_slashes_cases (rev (c :: r))) as [[Hp (x & t & Hd & _)] | [Hp _]].
      * intros H. apply (f_equal (@rev ascii)) in H.
        rewrite rev_involutive in H. discriminate.
      * rewrite Hp, Hd in Es. discriminate.
      * rewrite Hp in Es. discriminate.
    + rewrite <- Es. rewrite make_filename_stripped by discriminate.
      cbn [bind]. rewrite <- Es in IH. rewrite IH, Hurl. cbn [bind].
      reflexivity.
Qed.

(* ================================================================== *)
(** ** [make_url]: what the URL contains *)

Lemma make_url_shape (ticker token : cstring) (b e : option cstring) :
  make_url ticker token b e
  = urlbase ++ ticker ++ lit ".csv?order=asc&api_key=" ++ token
    ++ date_param (lit "&start_date=") b ++ date_param (lit "&end_date=") e.
Proof.
  unfold make_url, date_param.
  destruct b, e; repeat rewrite app_nil_r; repeat rewrite <- app_assoc;
    reflexivity.
Qed.

Lemma is_prefix_app (p s : cstring) : is_prefix p (p ++ s) = true.
Proof.
  induction p as [|x p IH]; simpl; [reflexivity|].
  rewrite Ascii.eqb_refl. exact IH.
Qed.

(** A pattern does not start where its first byte is not. *)
Lemma occurrences_skip (c : ascii) (p a s : cstring) :
  ~ In c a -> occurrences (c :: p) (a ++ s) = occurrences (c :: p) s.
Proof.
  induction a as [|x a IH]; intros Hin; [reflexivity|].
  change ((x :: a) ++ s) with (x :: (a ++ s)).
  cbn [occurrences is_prefix].
  destruct (Ascii.eqb c x) eqn:E.
  - apply Ascii.eqb_eq in E. subst. exfalso. apply Hin. left. reflexivity.
  - cbn [andb]. apply IH. intros H. apply Hin. right. exact H.
Qed.

Lemma occurrences_absent (c : ascii) (p s : cstring) :
  ~ In c s -> occurrences (c :: p) s = 0.
Proof.
  intros H. rewrite <- (app_nil_r s). rewrite occurrences_skip by exact H.
  reflexivity.
Qed.

Lemma is_prefix_short (p s : cstring) :
  length s < length p -> is_prefix p s = false.
Proof.
  revert s. induction p as [|x p IH]; intros s H; simpl in H; [lia|].
  destruct s as [|c s]; [reflexivity|].
  simpl. rewrite IH by (simpl in H; lia). apply andb_false_r.
Qed.

Lemma occurrences_short (p s : cstring) :
  length s < length p -> occurrences p s = 0.
Proof.
  induction s as [|c s IH]; intros H; cbn [occurrences];
    rewrite is_prefix_short by exact H; [reflexivity|].
  apply IH. simpl in H. lia.
Qed.

(** A pattern that fits into [u] does not see what follows [u]. *)
Lemma is_prefix_within (p u v : cstring) :
  length p <= length u -> is_prefix p (u ++ v) = is_prefix p u.
Proof.
  revert u. induction p as [|x p IH]; intros u H; [reflexivity|].
  destruct u as [|c u]; [simpl in H; lia|].
  simpl. rewrite IH by (simpl in H; lia). reflexivity.
Qed.

(** The occurrences of [p] in a text that holds it between [left] and
    [right]: the one put there, and those elsewhere. *)
Lemma occurrences_between (p left right : cstring) :
  p <> [] ->
  occurrences p (left ++ p ++ right) = 1 + elsewhere p left right.
Proof.
  intros Hp. unfold elsewhere.
  assert (Hleft : occurrences p (left ++ p ++ right)
                  = occurrences p (left ++ removelast p)
                    + occurrences p (p ++ right)).
  { destruct (exists_last Hp) as (q & z & ->).
    rewrite removelast_last.
    induction left as [|c left IH].
    - cbn [app]. rewrite (@occurrences_short (q ++ [z]) q); [reflexivity|].
      rewrite length_app. simpl. lia.
    - change ((c :: left) ++ (q ++ [z]) ++ right)
        with (c :: (left ++ (q ++ [z]) ++ right)).
      change ((c :: left) ++ q) with (c :: (left ++ q)).
      cbn [occurrences]. rewrite IH.
      replace (is_prefix (q ++ [z]) (c :: left ++ (q ++ [z]) ++ right))
        with (is_prefix (q ++ [z]) (c :: left ++ q)); [lia|].
      replace (c :: left ++ (q ++ [z]) ++ right)
        with ((c :: left ++ q) ++ [z] ++ right)
        by (cbn [app]; repeat rewrite <- app_assoc; reflexivity).
      symmetry. apply is_prefix_within.
      simpl. rewrite !length_app. simpl. lia. }
  rewrite Hleft. destruct p as [|x p]; [contradiction|].
  change ((x :: p) ++ right) with (x :: (p ++ right)).
  cbn [occurrences tl].
  change (x :: (p ++ right)) with ((x :: p) ++ right).
  rewrite is_prefix_app. lia.
Qed.

(** C4 as stated fails: the ticker K of a real company occurs twice, once
    in the WIKI of the endpoint. *)
Lemma make_url_ticker_twice :
  occurrences (lit "K") (make_url (lit "K") (lit "t0ken") None None) = 2.
Proof. reflexivity. Qed.

Lemma not_In_forallb (c : ascii) (s : cstring) :
  forallb (fun x => negb (Ascii.eqb c x)) s = true -> ~ In c s.
Proof.
  intros H Hin. rewrite forallb_forall in H. specialize (H c Hin).
  rewrite Ascii.eqb_refl in H. discriminate.
Qed.

(** The occurrences of a pattern that starts with an ampersand, in a
    parameter [&name] with its value and what follows. *)
Lemma occurrences_param (p name v rest : cstring) :
  ~ In AMP name -> ~ In AMP v ->
  occurrences (AMP :: p) ((AMP :: name) ++ v ++ rest)
  = (if is_prefix p (name ++ v ++ rest) then 1 else 0)
    + occurrences (AMP :: p) rest.
Proof.
  intros Hn Hv.
  change ((AMP :: name) ++ v ++ rest) with (AMP :: (name ++ v ++ rest)).
  cbn [occurrences is_prefix]. rewrite Ascii.eqb_refl. cbn [andb].
  rewrite occurrences_skip by exact Hn.
  rewrite occurrences_skip by exact Hv.
  reflexivity.
Qed.

(** C4, amended.  The URL holds the ticker behind the endpoint and the
    token behind [api_key=]; it contains each of them once and as often
    again as it occurs elsewhere in the URL, so exactly once if and only
    if it occurs nowhere else.  It contains [&start_date=] when the
    begin date is there and [&end_date=] when the end date is; and when
    the ticker, the token and the dates hold no ampersand, only then. *)
Theorem make_url_occurrences (T K : cstring) (b e : option cstring) :
  T <> [] -> K <> [] ->
  (occurrences T (make_url T K b e)
   = 1 + elsewhere T urlbase
           (lit ".csv?order=asc&api_key=" ++ K
            ++ date_param (lit "&start_date=") b
            ++ date_param (lit "&end_date=") e))
  /\ (occurrences K (make_url T K b e)
      = 1 + elsewhere K (urlbase ++ T ++ lit ".csv?order=asc&api_key=")
              (date_param (lit "&start_date=") b
               ++ date_param (lit "&end_date=") e))
  /\ (b <> None -> 0 < occurrences (lit "&start_date=") (make_url T K b e))
  /\ (e <> None -> 0 < occurrences (lit "&end_date=") (make_url T K b e))
  /\ (~ In AMP T -> ~ In AMP K ->
      (forall v, b = Some v -> ~ In AMP v) ->
      (forall v, e = Some v -> ~ In AMP v) ->
      (0 < occurrences (lit "&start_date=") (make_url T K b e) -> b <> None)
      /\ (0 < occurrences (lit "&end_date=") (make_url T K b e) -> e <> None)).
Proof.
  intros HT HK.
  rewrite make_url_shape.
  set (SD := date_param (lit "&start_date=") b) in *.
  set (ED := date_param (lit "&end_date=") e) in *.
  split; [|split; [|split; [|split]]].
  - apply occurrences_between. exact HT.
  - replace (urlbase ++ T ++ lit ".csv?order=asc&api_key=" ++ K ++ SD ++ ED)
      with ((urlbase ++ T ++ lit ".csv?order=asc&api_key=") ++ K ++ SD ++ ED)
      by (repeat rewrite <- app_assoc; reflexivity).
    apply occurrences_between. exact HK.
  - intros Hb. destruct b as [v|]; [|contradiction].
    unfold SD, date_param.
    replace (urlbase ++ T ++ lit ".csv?order=asc&api_key=" ++ K
             ++ (lit "&start_date=" ++ v) ++ ED)
      with ((urlbase ++ T ++ lit ".csv?order=asc&api_key=" ++ K)
              ++ lit "&start_date=" ++ v ++ ED)
      by (repeat rewrite <- app_assoc; reflexivity).
    rewrite occurrences_between by discriminate. lia.
  - intros He. destruct e as [w|]; [|contradiction].
    unfold ED, date_param.
    replace (urlbase ++ T ++ lit ".csv?order=asc&api_key=" ++ K
             ++ SD ++ lit "&end_date=" ++ w)
      with ((urlbase ++ T ++ lit ".csv?order=asc&api_key=" ++ K ++ SD)
              ++ lit "&end_date=" ++ w ++ [])
      by (rewrite app_nil_r; repeat rewrite <- app_assoc; reflexivity).
    rewrite occurrences_between by discriminate. lia.
  - intros HampT HampK Hb He.
    assert (Hiff :
              (0 < occurrences (lit "&start_date=")
                     (urlbase ++ T ++ lit ".csv?order=asc&api_key=" ++ K
                      ++ SD ++ ED) <-> b <> None)
              /\ (0 < occurrences (lit "&end_date=")
                        (urlbase ++ T ++ lit ".csv?order=asc&api_key=" ++ K
                         ++ SD ++ ED) <-> e <> None)).
    { assert (Hcount : forall p,
                 is_prefix p
                   (lit "api_key=" ++ K ++ SD ++ ED) = false ->
                 occurrences (AMP :: p)
                   (urlbase ++ T ++ lit ".csv?order=asc&api_key=" ++ K ++ SD ++ ED)
                 = occurrences (AMP :: p) (SD ++ ED)).
      { intros p Hp.
        replace (urlbase ++ T ++ lit ".csv?order=asc&api_key=" ++ K ++ SD ++ ED)
          with ((urlbase ++ T ++ lit ".csv?order=asc")
                  ++ (AMP :: lit "api_key=") ++ K ++ SD ++ ED)
          by (repeat rewrite <- app_assoc; reflexivity).
        rewrite occurrences_skip.
        - rewrite occurrences_param; [rewrite Hp; reflexivity| |exact HampK].
          apply not_In_forallb. reflexivity.
        - intros H. apply in_app_or in H. destruct H as [H|H].
          + revert H. apply not_In_forallb. reflexivity.
          + apply in_app_or in H. destruct H as [H|H]; [exact (HampT H)|].
            revert H. apply not_In_forallb. reflexivity. }
      assert (HSD : forall p,
                 occurrences (AMP :: p) (SD ++ ED)
                 = match b with
                   | Some v => (if is_prefix p (lit "start_date=" ++ v ++ ED)
                                then 1 else 0)
                   | None => 0
                   end
                   + match e with
                     | Some w => (if is_prefix p (lit "end_date=" ++ w ++ [])
                                  then 1 else 0)
                     | None => 0
                     end).
      { intros p.
        assert (HED : occurrences (AMP :: p) ED
                      = match e with
                        | Some w => (if is_prefix p (lit "end_date=" ++ w ++ [])
                                     then 1 else 0)
                        | None => 0
                        end).
        { unfold ED, date_param. destruct e as [w|]; [|reflexivity].
          change (lit "&end_date=" ++ w)
            with ((AMP :: lit "end_date=") ++ w).
          rewrite <- (app_nil_r w) at 1.
          rewrite occurrences_param; [simpl; lia| |apply He; reflexivity].
          apply not_In_forallb. reflexivity. }
        unfold SD at 1, date_param. destruct b as [v|].
        - change ((lit "&start_date=" ++ v) ++ ED)
            with (((AMP :: lit "start_date=") ++ v) ++ ED).
          rewrite <- app_assoc.
          rewrite occurrences_param; [rewrite HED; reflexivity| |apply Hb; reflexivity].
          apply not_In_forallb. reflexivity.
        - cbn [app]. rewrite HED. reflexivity. }
      change (lit "&start_date=") with (AMP :: lit "start_date=").
      change (lit "&end_date=") with (AMP :: lit "end_date=").
      rewrite !Hcount by reflexivity.
      rewrite !HSD.
      split.
      + destruct b as [v|].
        * rewrite is_prefix_app. split; [discriminate|lia].
        * destruct e as [w|]; cbn; split; intros; try lia; contradiction.
      + destruct e as [w|].
        * rewrite is_prefix_app. split; [discriminate|lia].
        * destruct b as [v|]; cbn; split; intros; try lia; contradiction. }
    destruct Hiff as [H1 H2]. split; [apply H1 | apply H2].
Qed.

Lemma make_url_occurrences_witness :
  occurrences (lit "IBM")
    (make_url (lit "IBM") (lit "abc123") (Some (lit "2018-01-01")) None) = 1
  /\ occurrences (lit "abc123")
       (make_url (lit "IBM") (lit "abc123") (Some (lit "2018-01-01")) None) = 1
  /\ 0 < occurrences (lit "&start_date=")
           (make_url (lit "IBM") (lit "abc123") (Some (lit "2018-01-01")) None)
  /\ ~ 0 < occurrences (lit "&end_date=")
             (make_url (lit "IBM") (lit "abc123") (Some (lit "2018-01-01")) None).
Proof.
  destruct (@make_url_occurrences (lit "IBM") (lit "abc123")
              (Some (lit "2018-01-01")) None)
    as (HT & HK & Hb & _ & Hdates); [discriminate | discriminate |].
  split; [rewrite HT; reflexivity|].
  split; [rewrite HK; reflexivity|].
  split; [apply Hb; discriminate|].
  intros H. apply Hdates in H; [contradiction H; reflexivity | | | |].
  - apply not_In_forallb. reflexivity.
  - apply not_In_forallb. reflexivity.
  - intros v Hv. injection Hv as <-. apply not_In_forallb. reflexivity.
  - intros v Hv. discriminate.
Defined.

(* ================================================================== *)
(** ** Reading a stream of lines *)

Lemma unread_at (pre s : cstring) : unread (mkFILE (pre ++ s) (length pre)) = s.
Proof.
  unfold unread. simpl. rewrite skipn_app, skipn_all, Nat.sub_diag. reflexivity.
Qed.

Lemma take_line_body (body rest : cstring) :
  ~ In LF body ->
  forall n, length body < n -> take_line n (body ++ [LF] ++ rest) = body ++ [LF].
Proof.
  induction body as [|c body IH]; intros Hin n Hn.
  - destruct n; [lia|]. reflexivity.
  - destruct n; [simpl in Hn; lia|].
    simpl. destruct (Ascii.eqb c LF) eqn:E.
    + apply Ascii.eqb_eq in E. subst. exfalso. apply Hin. left. reflexivity.
    + f_equal. apply IH; [|simpl in Hn; lia].
      intros H. apply Hin. right. exact H.
Qed.

Lemma is_line_nonempty (l : cstring) : is_line l -> 0 < length l.
Proof.
  intros (body & -> & _ & _). rewrite length_app. simpl. lia.
Qed.

(** [fgets] on a stream that stands before a line reads that line. *)
Lemma fgets_line (pre l rest : cstring) :
  is_line l ->
  fgets 256 (mkFILE (pre ++ l ++ rest) (length pre))
  = Some (l, mkFILE (pre ++ l ++ rest) (length pre + length l)).
Proof.
  intros Hl. unfold fgets. rewrite unread_at.
  destruct Hl as (body & -> & Hin & Hlen).
  rewrite <- app_assoc. rewrite take_line_body by (simpl; lia || assumption).
  simpl contents. simpl pos.
  destruct (body ++ [LF]) eqn:E; [|reflexivity].
  apply (f_equal (@length ascii)) in E. rewrite length_app in E. simpl in E. lia.
Qed.

(** [fgets] at the end of the stream. *)
Lemma fgets_eof (text : cstring) : fgets 256 (mkFILE text (length text)) = None.
Proof.
  unfold fgets, unread. simpl. rewrite skipn_all. reflexivity.
Qed.

Lemma length_rows_le (rows : list cstring) :
  Forall is_line rows -> length rows <= length (concat rows).
Proof.
  induction 1 as [|r rows Hr _ IH]; simpl; [lia|].
  rewrite length_app. apply is_line_nonempty in Hr. lia.
Qed.

(* ================================================================== *)
(** ** [read_until] on a stream of dated rows *)

(** What the loop of [read_until] does on rows that all have a date: it
    returns the first date that is [begin] or later, or 0 when there is
    none, and leaves the stream after the rows it has read. *)
Lemma read_until_loop_rows (idx : nat) (begin : time_t) :
  forall rows dates pre fuel,
    Forall is_line rows ->
    Forall2 (fun r t => row_date idx r = Ret t) rows dates ->
    length rows <= fuel ->
    read_until_loop fuel (mkFILE (pre ++ concat rows) (length pre)) begin idx
    = Ret (match find (fun t => (t >=? begin)%Z) dates with
           | Some t => t
           | None => 0%Z
           end,
           mkFILE (pre ++ concat rows)
                  (length pre + length (concat (rows_read begin rows dates)))).
Proof.
  induction rows as [|r rows IH]; intros dates pre fuel Hlines Hdates Hfuel.
  - inversion Hdates; subst. simpl concat. rewrite app_nil_r.
    destruct fuel; simpl; rewrite fgets_eof, Nat.add_0_r; reflexivity.
  - inversion Hdates as [|r' t rows' dates' Hr Hrest]; subst.
    inversion Hlines as [|r' rows' Hl Hls]; subst.
    destruct fuel as [|fuel]; [simpl in Hfuel; lia|].
    simpl concat. cbn [read_until_loop]. rewrite (fgets_line pre _ Hl).
    rewrite Hr. cbn [bind find rows_read].
    destruct (t >=? begin)%Z eqn:E.
    + rewrite fseek_swapped_arguments by (apply is_line_nonempty; exact Hl).
      simpl concat. rewrite app_nil_r. reflexivity.
    + replace (length pre + length r) with (length (pre ++ r))
        by (rewrite length_app; reflexivity).
      rewrite (app_assoc pre r (concat rows)).
      rewrite (IH dates' (pre ++ r) fuel); try assumption.
      * simpl concat. rewrite !length_app. rewrite Nat.add_assoc. reflexivity.
      * simpl in Hfuel. lia.
Qed.

(** The same for the whole call. *)
Lemma read_until_rows (header : cstring) (rows : list cstring)
      (dates : list time_t) (idx : nat) (begin : time_t) :
  is_line header ->
  Forall is_line rows ->
  indexOf header (lit "date") = Ret idx ->
  Forall2 (fun r t => row_date idx r = Ret t) rows dates ->
  read_until (stream_of header rows) begin
  = Ret (match find (fun t => (t >=? begin)%Z) dates with
         | Some t => t
         | None => 0%Z
         end,
         mkFILE (header ++ concat rows)
                (length header + length (concat (rows_read begin rows dates)))).
Proof.
  intros Hh Hlines Hidx Hdates.
  unfold read_until, stream_of, fopen_text.
  change 0 with (length (@nil ascii)).
  change (header ++ concat rows) with ([] ++ header ++ concat rows) at 1.
  rewrite (fgets_line [] _ Hh). cbn [app length Nat.add].
  rewrite Hidx. cbn [bind].
  rewrite unread_at.
  apply read_until_loop_rows; try assumption.
  apply length_rows_le. exact Hlines.
Qed.


(** C3.  With the date as the last column the call dies: the last field
    of the header line ends in the line feed and is not found.  On the
    same rows with the date first it returns the date of the first row
    that is dated as late as asked. *)
Theorem read_until_date_column_last :
  read_until scanner_date_last date_2018_01_03 = Die FieldNotFoundInData
  /\ option_map fst
       (match read_until scanner_example date_2018_01_03 with
        | Ret r => Some r
        | _ => None
        end) = Some date_2018_01_03.
Proof. split; reflexivity. Qed.

Lemma find_after_earlier (begin t : time_t) (earlier later : list time_t) :
  Forall (fun d => (d < begin)%Z) earlier -> (t >= begin)%Z ->
  find (fun d => (d >=? begin)%Z) (earlier ++ t :: later) = Some t.
Proof.
  intros He Ht. induction He as [|d earlier Hd _ IH]; simpl.
  - destruct (t >=? begin)%Z eqn:E; [reflexivity|].
    rewrite Z.geb_leb in E. apply Z.leb_gt in E. lia.
  - destruct (d >=? begin)%Z eqn:E; [|exact IH].
    rewrite Z.geb_leb in E. apply Z.leb_le in E. lia.
Qed.

Lemma rows_read_after_earlier (begin t : time_t) (found : cstring)
      (after : list cstring) (later : list time_t) :
  (t >= begin)%Z ->
  forall (before : list cstring) (earlier : list time_t),
    length before = length earlier ->
    Forall (fun d => (d < begin)%Z) earlier ->
    rows_read begin (before ++ found :: after) (earlier ++ t :: later)
    = before ++ [found].
Proof.
  intros Ht. induction before as [|r before IH]; intros [|d earlier] Hlen He;
    simpl in Hlen; try discriminate.
  - simpl. destruct (t >=? begin)%Z eqn:E; [reflexivity|].
    rewrite Z.geb_leb in E. apply Z.leb_gt in E. lia.
  - inversion He as [|d' e' Hd He']; subst. simpl.
    destruct (d >=? begin)%Z eqn:E.
    + rewrite Z.geb_leb in E. apply Z.leb_le in E. lia.
    + f_equal. apply IH; [lia | exact He'].
Qed.

(** Whenever [read_until] finds a row, with earlier rows before it and a
    row after it, the row found is behind the stream: the next row read
    is the one after it. *)
Lemma read_until_skips_found_row (header found next : cstring)
      (before rest : list cstring) (earlier later : list time_t)
      (t : time_t) (idx : nat) (begin : time_t) :
  is_line header ->
  Forall is_line (before ++ found :: next :: rest) ->
  indexOf header (lit "date") = Ret idx ->
  Forall2 (fun r d => row_date idx r = Ret d) before earlier ->
  Forall (fun d => (d < begin)%Z) earlier ->
  row_date idx found = Ret t -> (t >= begin)%Z ->
  Forall2 (fun r d => row_date idx r = Ret d) (next :: rest) later ->
  exists file',
    read_until (stream_of header (before ++ found :: next :: rest)) begin
    = Ret (t, file')
    /\ option_map fst (fgets 256 file') = Some next.
Proof.
  intros Hh Hl Hidx Hbefore Hearlier Hfound Ht Hlater.
  assert (Hdates : Forall2 (fun r d => row_date idx r = Ret d)
                     (before ++ found :: next :: rest) (earlier ++ t :: later)).
  { apply Forall2_app; [exact Hbefore|]. constructor; assumption. }
  rewrite (read_until_rows begin Hh Hl Hidx Hdates).
  rewrite (@find_after_earlier begin t earlier later Hearlier Ht).
  rewrite (@rows_read_after_earlier begin t found (next :: rest) later Ht
             before earlier (Forall2_length Hbefore) Hearlier).
  eexists. split; [reflexivity|].
  apply Forall_app in Hl. destruct Hl as [_ Hl].
  inversion Hl as [|x l _ Hl']; subst.
  inversion Hl' as [|x l Hnext _]; subst.
  replace (header ++ concat (before ++ found :: next :: rest))
    with ((header ++ concat (before ++ [found])) ++ next ++ concat rest).
  - rewrite <- length_app. rewrite (fgets_line _ _ Hnext). reflexivity.
  - rewrite !concat_app. simpl concat. rewrite app_nil_r.
    repeat rewrite <- app_assoc. reflexivity.
Qed.

Lemma is_line_ln (s : string) :
  forallb (fun x => negb (Ascii.eqb LF x)) (lit s) = true ->
  length (lit s) < 255 ->
  is_line (ln s).
Proof.
  intros Hin Hlen. exists (lit s). split; [reflexivity|]. split; [|exact Hlen].
  apply not_In_forallb. exact Hin.
Qed.


(* ================================================================== *)
(** ** [read_stock_data]: the rows of a file and the files *)

Lemma starts_with_word_longer (w1 w2 : cstring) :
  forall s, starts_with_word w1 s = None -> starts_with_word (w1 ++ w2) s = None.
Proof.
  induction w1 as [|x w IH]; intros s H; simpl in *; [discriminate|].
  destruct s as [|c t]; [reflexivity|].
  destruct (Ascii.eqb (tolower c) x); [apply IH; exact H|reflexivity].
Qed.

(** With nothing to convert, [strtod] returns zero and its argument. *)
Lemma strtod_without_prefix (p : cstring) :
  has_numeric_prefix p = false -> strtod p = (Num 0, p).
Proof.
  unfold has_numeric_prefix, strtod.
  destruct (read_sign (skip_space p)) as [neg s].
  destruct s as [|c t]; [reflexivity|].
  intros H.
  apply orb_false_iff in H. destruct H as [H Hnan].
  apply orb_false_iff in H. destruct H as [H Hinf].
  apply orb_false_iff in H. destruct H as [Hdig Hdot].
  destruct (starts_with_word (lit "inf") (c :: t)) eqn:Einf; [discriminate|].
  destruct (starts_with_word (lit "nan") (c :: t)) eqn:Enan; [discriminate|].
  assert (Einfinity : starts_with_word (lit "infinity") (c :: t) = None).
  { change (lit "infinity") with (lit "inf" ++ lit "inity").
    apply starts_with_word_longer. exact Einf. }
  rewrite Einfinity.
  assert (Ehex : starts_with_word (lit "0x") (c :: t) = None).
  { cbn. destruct (Ascii.eqb (tolower c) "0") eqn:E; [|reflexivity].
    exfalso. apply Ascii.eqb_eq in E.
    revert E Hdig. clear. unfold tolower.
    destruct (isupper c) eqn:Eu.
    - destruct c as [[] [] [] [] [] [] [] []]; cbv; discriminate.
    - intros ->. cbv. discriminate. }
  rewrite Ehex.
  unfold read_mantissa. cbn [read_digits]. unfold decval at 1. rewrite Hdig.
  destruct (Ascii.eqb c DOT) eqn:Ec.
  - cbn [andb] in Hdot. destruct t as [|d t']; [reflexivity|].
    cbn [read_digits]. unfold decval. rewrite Hdot. reflexivity.
  - reflexivity.
Qed.

Lemma row_price_without_prefix (idx : nat) (row p : cstring) :
  price_field idx row = Ret p -> has_numeric_prefix p = false ->
  row_price idx row = Die ParsingAdjClose.
Proof.
  intros Hp Hn. unfold row_price. rewrite Hp. cbn [bind].
  rewrite (strtod_without_prefix _ Hn).
  unfold same_ptr. rewrite Nat.eqb_refl. reflexivity.
Qed.

(** *** A text with a numeric prefix is converted *)

Lemma skip_space_length (s : cstring) : length (skip_space s) <= length s.
Proof.
  induction s as [|c t IH]; simpl; [lia|].
  destruct (isspace c); simpl; lia.
Qed.

Lemma read_sign_length (s : cstring) : length (snd (read_sign s)) <= length s.
Proof.
  destruct s as [|c t]; simpl; [lia|].
  destruct (Ascii.eqb c DASH); simpl; [lia|].
  destruct (Ascii.eqb c (ascii_of_nat 43)); simpl; lia.
Qed.

Lemma starts_with_word_length (w : cstring) :
  forall s r, starts_with_word w s = Some r -> length r + length w = length s.
Proof.
  induction w as [|x w IH]; intros s r H; simpl in H.
  - injection H as <-. simpl. lia.
  - destruct s as [|c t]; [discriminate|].
    destruct (Ascii.eqb (tolower c) x); [|discriminate].
    apply IH in H. simpl. lia.
Qed.

Lemma read_digits_length (digit : ascii -> option Z) (base : Z) :
  forall s acc count v n r,
    read_digits digit base acc count s = (v, n, r) ->
    count <= n /\ length r + n = length s + count.
Proof.
  induction s as [|c t IH]; intros acc count v n r H; simpl in H.
  - injection H as <- <- <-. simpl. lia.
  - destruct (digit c) as [d|].
    + apply IH in H. simpl. lia.
    + injection H as <- <- <-. simpl. lia.
Qed.

Lemma read_mantissa_length (digit : ascii -> option Z) (base : Z)
      (s r : cstring) (m : Z) (n2 : nat) :
  read_mantissa digit base s = Some (m, n2, r) -> length r < length s.
Proof.
  unfold read_mantissa.
  destruct (read_digits digit base 0 0 s) as [[ip n1] r1] eqn:E1.
  apply read_digits_length in E1. destruct E1 as [_ E1].
  destruct r1 as [|c t].
  - destruct (n1 =? 0) eqn:E; [discriminate|].
    apply Nat.eqb_neq in E. intros H. injection H as <- <- <-. simpl in *. lia.
  - destruct (Ascii.eqb c DOT).
    + destruct (read_digits digit base ip 0 t) as [[m' n2'] r2] eqn:E2.
      apply read_digits_length in E2. destruct E2 as [_ E2].
      destruct (n1 + n2' =? 0) eqn:E; [discriminate|].
      intros H. injection H as <- <- <-. simpl in *. lia.
    + destruct (n1 =? 0) eqn:E; [discriminate|].
      apply Nat.eqb_neq in E. intros H. injection H as <- <- <-.
      simpl in *. lia.
Qed.

Lemma read_exponent_length (marker : ascii) (s : cstring) :
  length (snd (read_exponent marker s)) <= length s.
Proof.
  unfold read_exponent. destruct s as [|c t]; [simpl; lia|].
  destruct (Ascii.eqb (tolower c) marker); [|simpl; lia].
  pose proof (read_sign_length t) as Hs.
  destruct (read_sign t) as [neg t'].
  destruct (read_digits decval 10 0 0 t') as [[e n] r] eqn:E.
  apply read_digits_length in E.
  destruct (n =? 0); simpl in *; lia.
Qed.

Lemma read_mantissa_decval (c : ascii) (t : cstring) :
  isdigit c
  || (Ascii.eqb c DOT && match t with d :: _ => isdigit d | [] => false end)
  = true ->
  read_mantissa decval 10 (c :: t) <> None.
Proof.
  intros H. unfold read_mantissa. cbn [read_digits]. unfold decval at 1.
  destruct (isdigit c) eqn:Ec.
  - destruct (read_digits decval 10 (0 * 10 + digit_val c) 1 t)
      as [[ip n1] r1] eqn:E1.
    apply read_digits_length in E1. destruct E1 as [Hn1 _].
    destruct r1 as [|x r1].
    + destruct (n1 =? 0) eqn:E; [apply Nat.eqb_eq in E; lia | discriminate].
    + destruct (Ascii.eqb x DOT).
      * destruct (read_digits decval 10 ip 0 r1) as [[m n2] r2].
        destruct (n1 + n2 =? 0) eqn:E; [apply Nat.eqb_eq in E; lia | discriminate].
      * destruct (n1 =? 0) eqn:E; [apply Nat.eqb_eq in E; lia | discriminate].
  - cbn [orb] in H. apply andb_true_iff in H. destruct H as [Hdot Hd].
    rewrite Hdot. destruct t as [|d t']; [discriminate|].
    cbn [read_digits]. unfold decval at 1. rewrite Hd.
    destruct (read_digits decval 10 (0 * 10 + digit_val d) 1 t')
      as [[m n2] r2] eqn:E2.
    apply read_digits_length in E2. destruct E2 as [Hn2 _].
    destruct (0 + n2 =? 0) eqn:E; [apply Nat.eqb_eq in E; lia | discriminate].
Qed.

(** With a numeric prefix, [strtod] moves [endptr] forward. *)
Lemma strtod_with_prefix (p : cstring) :
  has_numeric_prefix p = true -> length (snd (strtod p)) < length p.
Proof.
  unfold has_numeric_prefix, strtod.
  pose proof (skip_space_length p) as Hsp.
  pose proof (read_sign_length (skip_space p)) as Hsg.
  destruct (read_sign (skip_space p)) as [neg s]. simpl in Hsg.
  destruct s as [|c t]; [discriminate|].
  intros H.
  destruct (starts_with_word (lit "infinity") (c :: t)) as [r|] eqn:E1.
  { apply starts_with_word_length in E1. simpl in *. lia. }
  destruct (starts_with_word (lit "inf") (c :: t)) as [r|] eqn:E2.
  { apply starts_with_word_length in E2. simpl in *. lia. }
  destruct (starts_with_word (lit "nan") (c :: t)) as [r|] eqn:E3.
  { apply starts_with_word_length in E3. simpl in *. lia. }
  rewrite !orb_false_r in H.
  destruct (starts_with_word (lit "0x") (c :: t)) as [h|] eqn:E4.
  - apply starts_with_word_length in E4.
    destruct (read_mantissa hexval 16 h) as [[[m n2] r]|] eqn:E5.
    + apply read_mantissa_length in E5.
      pose proof (read_exponent_length (ascii_of_nat 112) r) as He.
      destruct (read_exponent (ascii_of_nat 112) r) as [e r'].
      simpl in *. lia.
    + pose proof (read_mantissa_decval c t H) as Hd.
      destruct (read_mantissa decval 10 (c :: t)) as [[[m n2] r]|] eqn:E6;
        [|contradiction].
      apply read_mantissa_length in E6.
      pose proof (read_exponent_length (ascii_of_nat 101) r) as He.
      destruct (read_exponent (ascii_of_nat 101) r) as [e r'].
      simpl in *. lia.
  - pose proof (read_mantissa_decval c t H) as Hd.
    destruct (read_mantissa decval 10 (c :: t)) as [[[m n2] r]|] eqn:E6;
      [|contradiction].
    apply read_mantissa_length in E6.
    pose proof (read_exponent_length (ascii_of_nat 101) r) as He.
    destruct (read_exponent (ascii_of_nat 101) r) as [e r'].
    simpl in *. lia.
Qed.

(** A row is taken if and only if the text at its price column has a
    numeric prefix. *)
Lemma row_price_with_prefix (idx : nat) (row p : cstring) :
  price_field idx row = Ret p -> has_numeric_prefix p = true ->
  row_price idx row = Ret (fst (strtod p)).
Proof.
  intros Hp Hn. unfold row_price. rewrite Hp. cbn [bind].
  pose proof (strtod_with_prefix p Hn) as Hlt.
  destruct (strtod p) as [price endptr]. simpl in *.
  unfold same_ptr.
  destruct (length endptr =? length p) eqn:E; [apply Nat.eqb_eq in E; lia|].
  rewrite andb_false_r. reflexivity.
Qed.

(** The inner loop on rows that all have a price: the prices are pushed
    in the order of the rows, after the prices there were. *)
Lemma read_rows_prices (idx : nat) :
  forall rows vals pre fuel prices buf,
    Forall is_line rows ->
    Forall2 (fun r v => row_price idx r = Ret v) rows vals ->
    length rows <= fuel ->
    read_rows fuel (mkFILE (pre ++ concat rows) (length pre)) idx prices buf
    = Ret (prices ++ vals, fold_left (fun _ r => Some r) rows buf).
Proof.
  induction rows as [|r rows IH]; intros vals pre fuel prices buf Hl Hv Hfuel.
  - inversion Hv; subst. simpl concat. rewrite !app_nil_r.
    destruct fuel; simpl; rewrite fgets_eof; reflexivity.
  - inversion Hv as [|r' v rows' vals' Hr Hrest]; subst.
    inversion Hl as [|r' rows' Hr' Hls]; subst.
    destruct fuel as [|fuel]; [simpl in Hfuel; lia|].
    simpl concat. cbn [read_rows]. rewrite (fgets_line pre _ Hr').
    rewrite Hr. cbn [bind].
    replace (length pre + length r) with (length (pre ++ r))
      by (rewrite length_app; reflexivity).
    rewrite (app_assoc pre r (concat rows)).
    rewrite (IH vals' (pre ++ r) fuel); try assumption; [|simpl in Hfuel; lia].
    rewrite <- app_assoc. reflexivity.
Qed.



(** One round of the loop over the files, on a file with a header line in
    which [indexOf] finds the price column. *)
Lemma read_files_file (fs : filesystem) (fp : cstring) (more : list cstring)
      (header : cstring) (rows : list cstring) (idx : nat)
      (data : list (list double)) (prices : list double) (buf : option cstring) :
  fs fp = Some (header ++ concat rows) ->
  is_line header ->
  indexOf header (lit "Adj. Close") = Ret idx ->
  read_files fs (fp :: more) data prices buf
  = (r <- read_rows (length (concat rows))
            (mkFILE (header ++ concat rows) (length header)) idx
            prices (Some header) ;;
     read_files fs more (data ++ [fst r]) (fst r) (snd r)).
Proof.
  intros Hfs Hh Hidx. cbn [read_files]. rewrite Hfs.
  unfold fopen_text.
  change 0 with (length (@nil ascii)) at 1.
  change (header ++ concat rows) with ([] ++ header ++ concat rows) at 1.
  rewrite (fgets_line [] _ Hh). cbn [app length Nat.add].
  rewrite Hidx. cbn [bind]. rewrite unread_at.
  destruct (read_rows _ _ _ _ _) as [[prices1 buf2]| | |]; reflexivity.
Qed.

(** On a file whose rows all have a price, the vector pushed to [data] is
    the prices of the files before followed by those of this file, and it
    is the vector the next file starts with. *)
Lemma read_files_keeps_prices (fs : filesystem) (fp : cstring)
      (more : list cstring) (header : cstring) (rows : list cstring)
      (vals : list double) (idx : nat)
      (data : list (list double)) (prices : list double) (buf : option cstring) :
  fs fp = Some (header ++ concat rows) ->
  is_line header ->
  Forall is_line rows ->
  indexOf header (lit "Adj. Close") = Ret idx ->
  Forall2 (fun r v => row_price idx r = Ret v) rows vals ->
  read_files fs (fp :: more) data prices buf
  = read_files fs more (data ++ [prices ++ vals]) (prices ++ vals)
               (fold_left (fun _ r => Some r) rows (Some header)).
Proof.
  intros Hfs Hh Hl Hidx Hv.
  rewrite (@read_files_file fs fp more header rows idx data prices buf
             Hfs Hh Hidx).
  rewrite (@read_rows_prices idx rows vals header _ prices (Some header) Hl Hv).
  - reflexivity.
  - apply length_rows_le. exact Hl.
Qed.

(** C2.  The prices of a file are pushed after those of the files before
    it: of two files with one row each the second yields two prices.  And
    with the header of the specification, whose last column is the price,
    the call dies: the last field of the header line ends in the line
    feed. *)
Theorem read_stock_data_carries_prices_over :
  read_stock_data two_files [lit "a.csv"; lit "b.csv"]
  = Ret [[Num (3 # 2)]; [Num (3 # 2); Num (5 # 2)]]
  /\ read_stock_data price_column_last [lit "c.csv"] = Die FieldNotFoundInData.
Proof. split; reflexivity. Qed.



(* ================================================================== *)
(** ** The loops over a stream end *)

Lemma take_line_length (n : nat) (s : cstring) :
  length (take_line n s) <= length s.
Proof.
  revert s. induction n as [|n IH]; intros [|c t]; simpl; try lia.
  destruct (Ascii.eqb c LF); simpl; [lia|].
  specialize (IH t). lia.
Qed.

(** A successful [fgets] leaves fewer bytes unread. *)
Lemma fgets_advances (size : nat) (file file' : FILE) (buf : cstring) :
  fgets size file = Some (buf, file') ->
  length (unread file') < length (unread file).
Proof.
  unfold fgets.
  pose proof (take_line_length (size - 1) (unread file)) as Hle.
  destruct (take_line (size - 1) (unread file)) as [|c b] eqn:E; [discriminate|].
  intros H. injection H as <- <-.
  unfold unread in *. simpl contents. simpl pos.
  rewrite !length_skipn in *. simpl in Hle. simpl length. lia.
Qed.

Lemma row_date_cases (idx : nat) (buf : cstring) :
  (exists t, row_date idx buf = Ret t) \/ (exists e, row_date idx buf = Die e).
Proof.
  unfold row_date.
  assert (H : (exists d, date_field idx buf = Ret d)
              \/ date_field idx buf = Die DateFieldNotFound).
  { revert buf. induction idx as [|i IH]; intros buf; simpl; [eauto|].
    destruct (strchr buf DATA_SEP); [apply IH | eauto]. }
  destruct H as [[d ->] | ->]; simpl; [|eauto].
  destruct (strptime d); eauto.
Qed.

Lemma read_until_loop_ends (begin : time_t) (idx : nat) :
  forall fuel file,
    length (unread file) <= fuel ->
    read_until_loop fuel file begin idx <> Diverge
    /\ read_until_loop fuel file begin idx <> Fault.
Proof.
  induction fuel as [|fuel IH]; intros file Hfuel.
  - simpl. destruct (fgets 256 file) as [[buf file1]|] eqn:E.
    + apply fgets_advances in E. lia.
    + split; discriminate.
  - simpl. destruct (fgets 256 file) as [[buf file1]|] eqn:E.
    + destruct (row_date_cases idx buf) as [[t ->] | [e ->]]; simpl.
      * destruct (t >=? begin)%Z.
        -- destruct (fseek file1 SEEK_CUR (- Z.of_nat (length buf))).
           split; discriminate.
        -- apply IH. apply fgets_advances in E. lia.
      * split; discriminate.
    + split; discriminate.
Qed.

(** [read_until] returns or dies. *)
Lemma read_until_ends (file : FILE) (begin : time_t) :
  read_until file begin <> Diverge /\ read_until file begin <> Fault.
Proof.
  unfold read_until.
  destruct (fgets 256 file) as [[buf file1]|]; [|split; discriminate].
  destruct (indexOf_total buf (lit "date")) as [[i ->] | [e ->]]; simpl.
  - apply read_until_loop_ends. lia.
  - split; discriminate.
Qed.

Lemma row_price_not_diverge (idx : nat) (buf : cstring) :
  row_price idx buf <> Diverge.
Proof.
  unfold row_price.
  assert (H : price_field idx buf <> Diverge).
  { revert buf. induction idx as [|i IH]; intros buf; simpl; [discriminate|].
    destruct (strchr buf DATA_SEP); [apply IH | discriminate]. }
  destruct (price_field idx buf) as [p| | |]; simpl; try discriminate.
  - destruct (strtod p) as [price endptr].
    destruct (is_zero price && same_ptr endptr p); discriminate.
  - contradiction.
Qed.

Lemma read_rows_ends (idx : nat) :
  forall fuel file prices buf,
    length (unread file) <= fuel ->
    read_rows fuel file idx prices buf <> Diverge.
Proof.
  induction fuel as [|fuel IH]; intros file prices buf Hfuel.
  - simpl. destruct (fgets 256 file) as [[line file1]|] eqn:E.
    + apply fgets_advances in E. lia.
    + discriminate.
  - simpl. destruct (fgets 256 file) as [[line file1]|] eqn:E; [|discriminate].
    pose proof (row_price_not_diverge idx line) as Hp.
    destruct (row_price idx line) as [price| | |]; simpl; try discriminate.
    + apply IH. apply fgets_advances in E. lia.
    + contradiction.
Qed.

(** [read_stock_data] returns, dies or faults on a short row. *)
Lemma read_files_ends (fs : filesystem) :
  forall filepaths data prices buf,
    read_files fs filepaths data prices buf <> Diverge.
Proof.
  induction filepaths as [|fp rest IH]; intros data prices buf;
    cbn [read_files].
  - discriminate.
  - destruct (fs fp) as [text|]; [|discriminate].
    destruct (fgets 256 (fopen_text text)) as [[line f]|].
    + destruct (indexOf_total line (lit "Adj. Close")) as [[i ->] | [e ->]];
        cbn [bind]; [|discriminate].
      pose proof (@read_rows_ends i (length (unread f)) f prices (Some line)
                    (Nat.le_refl _)) as Hr.
      destruct (read_rows _ _ _ _ _) as [[p b]| | |]; cbn [bind];
        try discriminate.
      * apply IH.
      * contradiction.
    + destruct buf as [header|]; [|discriminate].
      destruct (indexOf_total header (lit "Adj. Close")) as [[i ->] | [e ->]];
        cbn [bind]; [|discriminate].
      pose proof (@read_rows_ends i (length (unread (fopen_text text)))
                    (fopen_text text) prices (Some header)
                    (Nat.le_refl _)) as Hr.
      destruct (read_rows _ _ _ _ _) as [[p b]| | |]; cbn [bind];
        try discriminate.
      * apply IH.
      * contradiction.
Qed.

(* ================================================================== *)
(** ** [indexOf] on the fields of a header *)

Lemma code_inj (c d : ascii) : code c = code d -> c = d.
Proof.
  unfold code. intros H.
  rewrite <- (ascii_nat_embedding c), <- (ascii_nat_embedding d), H.
  reflexivity.
Qed.

Lemma tolower_not_nul (c : ascii) : c <> NUL -> code (tolower c) <> 0.
Proof.
  destruct c as [[] [] [] [] [] [] [] []]; intros H; cbv; try discriminate.
  intros _. apply H. reflexivity.
Qed.

(** [strncasecmp] over the length of a field says whether the field is
    the start of the name. *)
Lemma strncasecmp_field (name : cstring) :
  forall f tail name',
    ~ In NUL f ->
    (strncasecmp (f ++ tail) name' (length f) =? 0)%Z = caseless_prefix f name'.
Proof.
  clear name.
  induction f as [|c f IH]; intros tail name' Hnul; [reflexivity|].
  assert (Hc : c <> NUL) by (intros ->; apply Hnul; left; reflexivity).
  assert (Hf : ~ In NUL f) by (intros H; apply Hnul; right; exact H).
  destruct name' as [|d name']; cbn [app length strncasecmp caseless_prefix].
  - apply Z.eqb_neq. pose proof (tolower_not_nul Hc). lia.
  - destruct (Ascii.eqb (tolower c) (tolower d)) eqn:E.
    + apply IH. exact Hf.
    + cbn [andb]. apply Z.eqb_neq. intros H.
      apply Ascii.eqb_neq in E. apply E. apply code_inj. lia.
Qed.

Lemma find_from_app (pre s : cstring) (c : ascii) :
  find_from (pre ++ s) c (length pre)
  = option_map (fun i => length pre + i) (find_from s c 0).
Proof.
  induction pre as [|x pre IH]; simpl.
  - destruct (find_from s c 0); reflexivity.
  - rewrite IH. destruct (find_from s c 0); reflexivity.
Qed.

Lemma find_from_field (g tail : cstring) :
  ~ In DATA_SEP g ->
  find_from (g ++ DATA_SEP :: tail) DATA_SEP 0 = Some (length g).
Proof.
  induction g as [|x g IH]; intros Hin; simpl.
  - reflexivity.
  - destruct (Ascii.eqb x DATA_SEP) eqn:E.
    + apply Ascii.eqb_eq in E. subst. exfalso. apply Hin. left. reflexivity.
    + rewrite IH; [reflexivity|]. intros H. apply Hin. right. exact H.
Qed.

Lemma find_from_last_field (g : cstring) :
  ~ In DATA_SEP g -> find_from g DATA_SEP 0 = None.
Proof.
  induction g as [|x g IH]; intros Hin; simpl; [reflexivity|].
  destruct (Ascii.eqb x DATA_SEP) eqn:E.
  - apply Ascii.eqb_eq in E. subst. exfalso. apply Hin. left. reflexivity.
  - rewrite IH; [reflexivity|]. intros H. apply Hin. right. exact H.
Qed.

(** Where the field after [pre] ends. *)
Lemma strchrnul_from_field (pre g : cstring) (rest : list cstring) :
  ~ In DATA_SEP g ->
  strchrnul_from (pre ++ join (g :: rest)) DATA_SEP (length pre)
  = length pre + length g.
Proof.
  intros Hg. unfold strchrnul_from. rewrite find_from_app.
  destruct rest as [|h rest].
  - cbn [join]. rewrite find_from_last_field by exact Hg. cbn [option_map].
    rewrite length_app. lia.
  - change (join (g :: h :: rest)) with (g ++ DATA_SEP :: join (h :: rest)).
    rewrite find_from_field by exact Hg. reflexivity.
Qed.

Lemma count_sep_app (a b : cstring) :
  count_sep (a ++ b) = count_sep a + count_sep b.
Proof.
  induction a as [|x a IH]; simpl; [reflexivity|]. rewrite IH. lia.
Qed.

Lemma count_sep_field (g : cstring) : ~ In DATA_SEP g -> count_sep g = 0.
Proof.
  induction g as [|x g IH]; intros Hin; simpl; [reflexivity|].
  destruct (Ascii.eqb x DATA_SEP) eqn:E.
  - apply Ascii.eqb_eq in E. subst. exfalso. apply Hin. left. reflexivity.
  - rewrite IH; [reflexivity|]. intros H. apply Hin. right. exact H.
Qed.

Lemma count_sep_join (fields : list cstring) :
  Forall (fun f => ~ In DATA_SEP f) fields ->
  count_sep (join fields) = length fields - 1.
Proof.
  induction 1 as [|f rest Hf Hrest IH]; [reflexivity|].
  destruct rest as [|g rest].
  - cbn [join]. rewrite count_sep_field by exact Hf. reflexivity.
  - change (join (f :: g :: rest)) with (f ++ DATA_SEP :: join (g :: rest)).
    rewrite count_sep_app, count_sep_field by exact Hf.
    change (count_sep (DATA_SEP :: join (g :: rest)))
      with (1 + count_sep (join (g :: rest))).
    rewrite IH. simpl. lia.
Qed.

Lemma length_join (fields : list cstring) :
  length fields <= S (length (join fields)).
Proof.
  induction fields as [|f rest IH]; [simpl; lia|].
  destruct rest as [|g rest]; [simpl; lia|].
  change (join (f :: g :: rest)) with (f ++ DATA_SEP :: join (g :: rest)).
  rewrite length_app. cbn [length] in *. lia.
Qed.

Lemma first_match_range (name : cstring) :
  forall fields k i,
    first_match name fields k = Some i -> k <= i < k + length fields.
Proof.
  induction fields as [|f rest IH]; intros k i H; simpl in H; [discriminate|].
  destruct (caseless_prefix f name).
  - injection H as <-. simpl. lia.
  - apply IH in H. simpl. lia.
Qed.

(** The loop of [indexOf] from the field [f] that follows [pre]: it stops
    at the first field that is the start of the name, or behind the
    last. *)
Lemma indexOf_loop_fields (name : cstring) :
  forall (rest : list cstring) (f pre : cstring) (fuel k : nat),
    Forall (fun g : cstring => ~ In DATA_SEP g /\ ~ In NUL g) (f :: rest) ->
    length rest < fuel ->
    indexOf_loop fuel (pre ++ join (f :: rest)) name
                 (length pre) (length pre + length f)
                 (length (pre ++ join (f :: rest))) k
    = Ret (match first_match name (f :: rest) k with
           | Some i => i
           | None => k + length (f :: rest)
           end).
Proof.
  induction rest as [|g rest IH]; intros f pre fuel k Hall Hfuel;
    inversion Hall as [|f' r' [Hsep Hnul] Hrest]; subst;
    (destruct fuel as [|fuel]; [lia|]).
  - cbn [join indexOf_loop first_match length].
    rewrite length_app.
    destruct (length pre <? length pre + length f) eqn:E.
    + replace (length pre + length f - length pre) with (length f) by lia.
      rewrite skipn_app, skipn_all, Nat.sub_diag. cbn [skipn app].
      rewrite <- (app_nil_r f) at 1.
      rewrite (strncasecmp_field name f [] name Hnul).
      destruct (caseless_prefix f name); [reflexivity|].
      destruct fuel; cbn [indexOf_loop];
        (destruct (length pre + length f + 1 <? length pre + length f) eqn:E2;
         [apply Nat.ltb_lt in E2; lia|]);
        f_equal; lia.
    + apply Nat.ltb_ge in E. assert (f = []) by (destruct f; simpl in E; [reflexivity|lia]).
      subst f. reflexivity.
  - cbn [indexOf_loop].
    change (first_match name (f :: g :: rest) k)
      with (if caseless_prefix f name then Some k
            else first_match name (g :: rest) (S k)).
    assert (Hlt : length pre < length (pre ++ join (f :: g :: rest))).
    { cbn [join]. rewrite !length_app. simpl. lia. }
    apply Nat.ltb_lt in Hlt. rewrite Hlt.
    replace (length pre + length f - length pre) with (length f) by lia.
    rewrite skipn_app, skipn_all, Nat.sub_diag. cbn [skipn app].
    change (join (f :: g :: rest)) with (f ++ DATA_SEP :: join (g :: rest)).
    rewrite (strncasecmp_field name f (DATA_SEP :: join (g :: rest)) name Hnul).
    destruct (caseless_prefix f name); [reflexivity|].
    replace (pre ++ f ++ DATA_SEP :: join (g :: rest))
      with ((pre ++ f ++ [DATA_SEP]) ++ join (g :: rest))
      by (repeat rewrite <- app_assoc; reflexivity).
    replace (length pre + length f + 1) with (length (pre ++ f ++ [DATA_SEP]))
      by (rewrite !length_app; simpl; lia).
    inversion Hrest as [|g' r'' [Hgsep Hgnul] Hrest']; subst.
    rewrite (@strchrnul_from_field (pre ++ f ++ [DATA_SEP]) g rest Hgsep).
    rewrite (IH g (pre ++ f ++ [DATA_SEP]) fuel (k + 1) Hrest)
      by (simpl in Hfuel; lia).
    replace (k + 1) with (S k) by lia.
    destruct (first_match name (g :: rest) (S k)); [reflexivity|].
    f_equal. simpl. lia.
Qed.

(** [indexOf] on a line of fields. *)
Lemma indexOf_fields (fields : list cstring) (name : cstring) :
  2 <= length fields ->
  Forall (fun g : cstring => ~ In DATA_SEP g /\ ~ In NUL g) fields ->
  indexOf (join fields) name
  = match first_match name fields 0 with
    | Some i => Ret i
    | None => Die FieldNotFoundInData
    end.
Proof.
  intros Hlen Hall.
  destruct fields as [|f [|g rest]]; simpl in Hlen; try lia.
  assert (Hsep : Forall (fun g => ~ In DATA_SEP g) (f :: g :: rest)).
  { eapply Forall_impl; [|exact Hall]. intros a [H _]. exact H. }
  unfold indexOf.
  inversion Hsep as [|f' r' Hf Hrest]; subst.
  change (join (f :: g :: rest)) with (f ++ DATA_SEP :: join (g :: rest)) at 1.
  rewrite find_from_field by exact Hf.
  pose proof (@indexOf_loop_fields name (g :: rest) f []
                (S (length (join (f :: g :: rest)))) 0 Hall) as Hloop.
  cbn [app length Nat.add] in Hloop. cbn [length] in *.
  rewrite Hloop.
  - cbn [bind]. rewrite count_sep_join by exact Hsep.
    destruct (first_match name (f :: g :: rest) 0) as [i|] eqn:E.
    + apply first_match_range in E. simpl in E.
      match goal with
      | |- (if ?c then _ else _) = _ => destruct c eqn:E2; [|reflexivity]
      end.
      apply Nat.ltb_lt in E2. simpl in E2. lia.
    + match goal with
      | |- (if ?c then _ else _) = _ => destruct c eqn:E2; [reflexivity|]
      end.
      apply Nat.ltb_ge in E2. simpl in E2. lia.
  - pose proof (length_join (f :: g :: rest)) as H. cbn [length] in H. lia.
Qed.

(** X1.  On a header of two fields or more, [indexOf] returns the
    position of the first field that is the start of the name, letter
    case apart (an empty field starts every name), and dies when no
    field is. *)
Theorem indexOf_first_prefix_field (fields : list cstring) (name : cstring) :
  2 <= length fields ->
  Forall (fun g : cstring => ~ In DATA_SEP g /\ ~ In NUL g) fields ->
  indexOf (join fields) name
  = match first_match name fields 0 with
    | Some i => Ret i
    | None => Die FieldNotFoundInData
    end.
Proof.
  intros Hlen Hall. apply indexOf_fields; assumption.
Qed.

Lemma indexOf_first_prefix_field_witness :
  indexOf (join [lit "Date"; lit "Open"; lit "High"; lit "Low"; lit "Close"])
          (lit "Lo")
  = Die FieldNotFoundInData
  /\ indexOf (join [lit "Date"; lit "Adj"; lit "Adj. Close"]) (lit "Adj. Close")
     = Ret 1.
Proof.
  split.
  - apply (@indexOf_first_prefix_field
             [lit "Date"; lit "Open"; lit "High"; lit "Low"; lit "Close"]
             (lit "Lo")).
    + simpl. lia.
    + repeat constructor; apply not_In_forallb; reflexivity.
  - apply (@indexOf_first_prefix_field
             [lit "Date"; lit "Adj"; lit "Adj. Close"] (lit "Adj. Close")).
    + simpl. lia.
    + repeat constructor; apply not_In_forallb; reflexivity.
Defined.

Lemma tolower_line_feed (d : ascii) : tolower d = LF -> d = LF.
Proof.
  destruct d as [[] [] [] [] [] [] [] []]; cbv; intros H;
    try reflexivity; discriminate.
Qed.

Lemma caseless_prefix_line_feed (name : cstring) :
  ~ In LF name ->
  forall last, caseless_prefix (last ++ [LF]) name = false.
Proof.
  induction name as [|d name IH]; intros Hin last.
  - destruct last; reflexivity.
  - destruct last as [|c last]; cbn [app caseless_prefix].
    + destruct (Ascii.eqb (tolower LF) (tolower d)) eqn:E; [|reflexivity].
      apply Ascii.eqb_eq in E. symmetry in E.
      change (tolower LF) with LF in E. apply tolower_line_feed in E.
      subst. exfalso. apply Hin. left. reflexivity.
    + rewrite IH; [apply andb_false_r|].
      intros H. apply Hin. right. exact H.
Qed.

Lemma first_match_app (name x : cstring) :
  forall (fields : list cstring) (k : nat),
    first_match name (fields ++ [x]) k
    = match first_match name fields k with
      | Some i => Some i
      | None => if caseless_prefix x name then Some (k + length fields) else None
      end.
Proof.
  induction fields as [|f rest IH]; intros k; cbn [app first_match length].
  - rewrite Nat.add_0_r. reflexivity.
  - destruct (caseless_prefix f name); [reflexivity|].
    rewrite IH. replace (S k + length rest) with (k + S (length rest)) by lia.
    reflexivity.
Qed.

(** [indexOf] on a line of fields as [fgets] reads it, the line feed
    behind the last field. *)
Lemma indexOf_line_fields (fields : list cstring)
      (last name : cstring) :
  fields <> [] ->
  Forall field_ok fields -> field_ok last ->
  ~ In LF name ->
  indexOf (join (fields ++ [last ++ [LF]])) name
  = match first_match name fields 0 with
    | Some i => Ret i
    | None => Die FieldNotFoundInData
    end.
Proof.
  intros Hne Hall [Hsep Hnul] Hlf.
  rewrite indexOf_fields.
  - rewrite first_match_app, caseless_prefix_line_feed by exact Hlf.
    destruct (first_match name fields 0); reflexivity.
  - rewrite length_app. destruct fields; [contradiction|]. simpl. lia.
  - apply Forall_app. split; [exact Hall|]. constructor; [|constructor].
    split; intros H; apply in_app_or in H; destruct H as [H|[H|[]]];
      try contradiction; discriminate H.
Qed.

(** X2.  In a header line that still ends in its line feed, the last
    field is never the one found, whatever the name: [indexOf] returns
    the first earlier field that is the start of the name and dies when
    there is none. *)
Theorem indexOf_last_field_never_found (fields : list cstring)
        (last name : cstring) :
  fields <> [] ->
  Forall field_ok fields -> field_ok last ->
  ~ In LF name ->
  indexOf (join (fields ++ [last ++ [LF]])) name
  = match first_match name fields 0 with
    | Some i => Ret i
    | None => Die FieldNotFoundInData
    end.
Proof.
  intros Hne Hall Hlast Hlf. apply indexOf_line_fields; assumption.
Qed.

Lemma indexOf_last_field_never_found_witness :
  indexOf (join ([lit "Date"; lit "Close"] ++ [lit "Adj. Close" ++ [LF]]))
          (lit "Adj. Close")
  = Die FieldNotFoundInData.
Proof.
  apply (@indexOf_last_field_never_found
           [lit "Date"; lit "Close"] (lit "Adj. Close") (lit "Adj. Close")).
  - discriminate.
  - repeat constructor; apply not_In_forallb; reflexivity.
  - split; apply not_In_forallb; reflexivity.
  - apply not_In_forallb. reflexivity.
Defined.

(* ================================================================== *)
(** ** [read_until]: rows without a date, and the way of the stream *)

Lemma read_until_loop_S (fuel : nat) (file : FILE) (begin : time_t) (idx : nat) :
  read_until_loop (S fuel) file begin idx
  = match fgets 256 file with
    | None => Ret (0%Z, file)
    | Some (buf, file1) =>
        tmp <- row_date idx buf ;;
        if (tmp >=? begin)%Z then
          let '(_, file2) := fseek file1 SEEK_CUR (- Z.of_nat (length buf)) in
          Ret (tmp, file2)
        else read_until_loop fuel file1 begin idx
    end.
Proof. reflexivity. Qed.

(** The loop of [read_until] over rows dated before [begin]: the row
    after them decides. *)
Lemma read_until_loop_next (idx : nat) (begin : time_t) (row : cstring)
      (rest : list cstring) :
  is_line row ->
  forall (before : list cstring) (earlier : list time_t) (pre : cstring)
         (k : nat),
    Forall is_line before ->
    Forall2 (fun r d => row_date idx r = Ret d) before earlier ->
    Forall (fun d => (d < begin)%Z) earlier ->
    read_until_loop (S (length before + k))
                    (mkFILE (pre ++ concat (before ++ row :: rest)) (length pre))
                    begin idx
    = (tmp <- row_date idx row ;;
       if (tmp >=? begin)%Z then
         Ret (tmp, mkFILE (pre ++ concat (before ++ row :: rest))
                          (length pre + length (concat before) + length row))
       else
         read_until_loop k
           (mkFILE (pre ++ concat (before ++ row :: rest))
                   (length pre + length (concat before) + length row))
           begin idx).
Proof.
  intros Hrow.
  induction before as [|r before IH]; intros earlier pre k Hl Hd He.
  - inversion Hd; subst.
    cbn [app concat length Nat.add]. rewrite read_until_loop_S.
    rewrite (fgets_line pre _ Hrow). rewrite Nat.add_0_r.
    destruct (row_date idx row) as [tmp| | |]; cbn [bind]; try reflexivity.
    destruct (tmp >=? begin)%Z; [|reflexivity].
    rewrite fseek_swapped_arguments by (apply is_line_nonempty; exact Hrow).
    reflexivity.
  - inversion Hd as [|r' d b' e' Hr Hrest]; subst.
    inversion Hl as [|r' b' Hr' Hls]; subst.
    inversion He as [|d' e'' Hlt He']; subst.
    cbn [app concat length Nat.add]. rewrite read_until_loop_S.
    rewrite (fgets_line pre _ Hr'). rewrite Hr. cbn [bind].
    destruct (d >=? begin)%Z eqn:E;
      [rewrite Z.geb_leb in E; apply Z.leb_le in E; lia|].
    replace (length pre + length r) with (length (pre ++ r))
      by (rewrite length_app; reflexivity).
    rewrite (app_assoc pre r (concat (before ++ row :: rest))).
    rewrite (IH e' (pre ++ r) k Hls Hrest He').
    rewrite !length_app. repeat rewrite <- app_assoc.
    repeat rewrite Nat.add_assoc. reflexivity.
Qed.

(** X3.  [read_until] dies at the first row that has no date at the
    column, or one that does not parse, when the rows before it are
    dated before [begin]: the row is not skipped, whatever rows follow
    it. *)
Theorem read_until_dies_at_undated_row (header bad : cstring)
        (before rest : list cstring) (earlier : list time_t)
        (idx : nat) (begin : time_t) (e : fatal) :
  is_line header ->
  Forall is_line (before ++ bad :: rest) ->
  indexOf header (lit "date") = Ret idx ->
  Forall2 (fun r d => row_date idx r = Ret d) before earlier ->
  Forall (fun d => (d < begin)%Z) earlier ->
  row_date idx bad = Die e ->
  read_until (stream_of header (before ++ bad :: rest)) begin = Die e.
Proof.
  intros Hh Hl Hidx Hd He Hbad.
  unfold read_until, stream_of, fopen_text.
  change 0 with (length (@nil ascii)).
  change (header ++ concat (before ++ bad :: rest))
    with ([] ++ header ++ concat (before ++ bad :: rest)) at 1.
  rewrite (fgets_line [] _ Hh). cbn [app length Nat.add].
  rewrite Hidx. cbn [bind]. rewrite unread_at.
  pose proof (length_rows_le Hl) as Hlen. rewrite length_app in Hlen.
  simpl in Hlen.
  apply Forall_app in Hl. destruct Hl as [Hbefore Hrows].
  inversion Hrows as [|b r Hb Hrest]; subst.
  replace (length (concat (before ++ bad :: rest)))
    with (S (length before
             + (length (concat (before ++ bad :: rest)) - S (length before))))
    by lia.
  rewrite (@read_until_loop_next idx begin bad rest Hb before earlier header _
             Hbefore Hd He).
  rewrite Hbad. reflexivity.
Qed.

Lemma read_until_dies_at_undated_row_witness :
  read_until
    (stream_of (ln "Close,Date,Volume")
               ([ln "10,2018-01-02,5"] ++ ln "11" :: [ln "12,2018-01-05,7"]))
    date_2018_01_03
  = Die DateFieldNotFound.
Proof.
  apply (@read_until_dies_at_undated_row
           (ln "Close,Date,Volume") (ln "11") [ln "10,2018-01-02,5"]
           [ln "12,2018-01-05,7"] [1514851200%Z] 1 date_2018_01_03
           DateFieldNotFound).
  - apply is_line_ln; [reflexivity | simpl; lia].
  - repeat constructor; apply is_line_ln; (reflexivity || (simpl; lia)).
  - reflexivity.
  - repeat constructor.
  - repeat constructor.
  - reflexivity.
Defined.

Lemma fgets_state (size : nat) (file file' : FILE) (buf : cstring) :
  fgets size file = Some (buf, file') ->
  contents file' = contents file
  /\ pos file' = pos file + length buf
  /\ 0 < length buf.
Proof.
  unfold fgets.
  destruct (take_line (size - 1) (unread file)) as [|c b]; [discriminate|].
  intros H. injection H as <- <-. simpl. repeat split. lia.
Qed.

Lemma read_until_loop_forward (begin : time_t) (idx : nat) :
  forall fuel file t file',
    read_until_loop fuel file begin idx = Ret (t, file') ->
    contents file' = contents file
    /\ ((t = 0%Z /\ fgets 256 file' = None)
        \/ exists (row : cstring) (at_row : FILE),
             fgets 256 at_row = Some (row, file')
             /\ row_date idx row = Ret t
             /\ (t >= begin)%Z
             /\ pos file <= pos at_row).
Proof.
  induction fuel as [|fuel IH]; intros file t file' H.
  - simpl in H.
    destruct (fgets 256 file) as [[buf file1]|] eqn:E; [discriminate|].
    injection H as <- <-. split; [reflexivity|]. left. split; [reflexivity|exact E].
  - rewrite read_until_loop_S in H.
    destruct (fgets 256 file) as [[buf file1]|] eqn:E.
    + pose proof (fgets_state _ _ E) as (Hc & Hp & Hn).
      destruct (row_date idx buf) as [tmp| | |] eqn:Er; cbn [bind] in H;
        try discriminate.
      destruct (tmp >=? begin)%Z eqn:Et.
      * rewrite fseek_swapped_arguments in H by exact Hn.
        injection H as <- <-. split; [exact Hc|]. right.
        exists buf, file. repeat split; try assumption; [|lia].
        rewrite Z.geb_leb in Et. apply Z.leb_le in Et. lia.
      * apply IH in H. destruct H as [H1 H2]. split; [congruence|].
        destruct H2 as [H2 | (row & at_row & Hg & Hr & Hge & Hpos)];
          [left; exact H2|].
        right. exists row, at_row. repeat split; try assumption. lia.
    + injection H as <- <-. split; [reflexivity|]. left.
      split; [reflexivity|exact E].
Qed.

(** X4.  Whenever [read_until] returns, on any stream, the stream has
    the same bytes and either stands at its end, the date returned being
    0, or stands right behind the row whose date is returned: the last
    [fgets] was the one that read that row, and nothing has moved the
    stream since. *)
Theorem read_until_stands_behind_row (file file' : FILE) (begin t : time_t) :
  read_until file begin = Ret (t, file') ->
  contents file' = contents file
  /\ ((t = 0%Z /\ fgets 256 file' = None)
      \/ exists (row : cstring) (at_row : FILE) (idx : nat),
           fgets 256 at_row = Some (row, file')
           /\ row_date idx row = Ret t
           /\ (t >= begin)%Z
           /\ pos file < pos at_row).
Proof.
  unfold read_until.
  destruct (fgets 256 file) as [[buf file1]|] eqn:E; [|discriminate].
  apply fgets_state in E. destruct E as (Hc & Hp & Hn).
  destruct (indexOf buf (lit "date")) as [idx| | |]; cbn [bind];
    try discriminate.
  intros H. apply read_until_loop_forward in H. destruct H as [H1 H2].
  split; [congruence|].
  destruct H2 as [H2 | (row & at_row & Hg & Hr & Hge & Hpos)];
    [left; exact H2|].
  right. exists row, at_row, idx. repeat split; try assumption. lia.
Qed.

Lemma read_until_stands_behind_row_witness :
  contents (mkFILE (contents scanner_example) 39) = contents scanner_example
  /\ ((date_2018_01_03 = 0%Z
       /\ fgets 256 (mkFILE (contents scanner_example) 39) = None)
      \/ exists (row : cstring) (at_row : FILE) (idx : nat),
           fgets 256 at_row = Some (row, mkFILE (contents scanner_example) 39)
           /\ row_date idx row = Ret date_2018_01_03
           /\ (date_2018_01_03 >= date_2018_01_03)%Z
           /\ pos scanner_example < pos at_row).
Proof.
  apply (@read_until_stands_behind_row scanner_example
           (mkFILE (contents scanner_example) 39)
           date_2018_01_03 date_2018_01_03).
  reflexivity.
Defined.

(* ================================================================== *)
(** ** [read_stock_data]: short rows, what is taken, several files *)





(** X6.  A row whose text at the price column is [p] is refused, with
    the parse error, if and only if [p] has no numeric prefix; it is
    taken with the value of the prefix otherwise, a zero price
    included. *)
Theorem row_price_refused_iff (idx : nat) (row p : cstring) :
  price_field idx row = Ret p ->
  (row_price idx row = Die ParsingAdjClose <-> has_numeric_prefix p = false)
  /\ (has_numeric_prefix p = true -> row_price idx row = Ret (fst (strtod p))).
Proof.
  intros Hp. split; [split|].
  - intros Hdie. destruct (has_numeric_prefix p) eqn:E; [|reflexivity].
    rewrite (@row_price_with_prefix idx row p Hp E) in Hdie. discriminate.
  - apply row_price_without_prefix. exact Hp.
  - apply row_price_with_prefix. exact Hp.
Qed.

Lemma row_price_refused_iff_witness :
  (row_price 1 (ln "2018-01-02,0.0,5") = Die ParsingAdjClose
   <-> has_numeric_prefix (ln "0.0,5") = false)
  /\ (has_numeric_prefix (ln "0.0,5") = true ->
      row_price 1 (ln "2018-01-02,0.0,5") = Ret (fst (strtod (ln "0.0,5")))).
Proof.
  apply (@row_price_refused_iff 1 (ln "2018-01-02,0.0,5") (ln "0.0,5")).
  reflexivity.
Defined.

Lemma read_files_priced (fs : filesystem) :
  forall (paths : list cstring) (valss : list (list double))
         (more : list cstring) (data : list (list double))
         (prices : list double) (buf : option cstring),
    Forall2 (priced_file fs) paths valss ->
    exists buf',
      read_files fs (paths ++ more) data prices buf
      = read_files fs more (data ++ running prices valss)
                   (fold_left (fun acc vals => acc ++ vals) valss prices) buf'.
Proof.
  induction paths as [|fp paths IH]; intros valss more data prices buf H.
  - inversion H; subst. exists buf. cbn [app running fold_left].
    rewrite app_nil_r. reflexivity.
  - inversion H as [|fp' vals p' v' Hfile Hrest]; subst.
    destruct Hfile as (header & rows & idx & Hfs & Hh & Hl & Hidx & Hv).
    cbn [app].
    rewrite (@read_files_keeps_prices fs fp (paths ++ more) header rows vals
               idx data prices buf Hfs Hh Hl Hidx Hv).
    destruct (IH v' more (data ++ [prices ++ vals]) (prices ++ vals)
                 (fold_left (fun _ r => Some r) rows (Some header)) Hrest)
      as [buf' Hb].
    exists buf'. rewrite Hb. cbn [running fold_left].
    rewrite <- app_assoc. reflexivity.
Qed.


Lemma priced_file_two_files_a : priced_file two_files (lit "a.csv") [Num (3 # 2)].
Proof.
  exists (ln "Date,Adj. Close,Volume"), [ln "2018-01-02,1.5,10"], 1.
  split; [reflexivity|]. split.
  - apply is_line_ln; [reflexivity | simpl; lia].
  - split; [repeat constructor; apply is_line_ln; (reflexivity || (simpl; lia))|].
    split; [reflexivity | repeat constructor].
Defined.



(** X8.  A file that does not open ends the run with the message of
    [fopen], also after files that were read in full: what they yielded
    is not returned. *)
Theorem read_stock_data_unopened_file (fs : filesystem)
        (paths : list cstring) (valss : list (list double))
        (missing : cstring) (more : list cstring) :
  Forall2 (priced_file fs) paths valss ->
  fs missing = None ->
  read_stock_data fs (paths ++ missing :: more) = Die FailedToOpenFile.
Proof.
  intros H Hm. unfold read_stock_data.
  destruct (@read_files_priced fs paths valss (missing :: more) [] [] None H)
    as [buf' Hb].
  rewrite Hb. cbn [read_files]. rewrite Hm. reflexivity.
Qed.

Lemma read_stock_data_unopened_file_witness :
  read_stock_data two_files ([lit "a.csv"] ++ lit "c.csv" :: [lit "b.csv"])
  = Die FailedToOpenFile.
Proof.
  apply (@read_stock_data_unopened_file two_files [lit "a.csv"]
           [[Num (3 # 2)]] (lit "c.csv") [lit "b.csv"]).
  - constructor; [exact priced_file_two_files_a | constructor].
  - reflexivity.
Defined.

(* ================================================================== *)
(** ** [parse_date]: the zero *)

Lemma days_from_civil_zero (y m d : Z) :
  (0 <= y <= 9999)%Z -> (1 <= m <= 12)%Z -> (1 <= d <= 31)%Z ->
  days_from_civil y m d = 0%Z -> y = 1970%Z /\ m = 1%Z /\ d = 1%Z.
Proof.
  intros Hy Hm Hd. unfold days_from_civil.
  destruct (m <=? 2)%Z eqn:E; [apply Z.leb_le in E | apply Z.leb_gt in E];
    intros H; Z.div_mod_to_equations; lia.
Qed.

Lemma get_number_range (lo hi : Z) (n : nat) (s r : cstring) (v : Z) :
  get_number lo hi n s = Some (v, r) -> (lo <= v <= hi)%Z.
Proof.
  unfold get_number. destruct (skip_space s) as [|c t]; [discriminate|].
  destruct (isdigit c); [|discriminate].
  destruct (more_digits (n - 1) hi (digit_val c) t) as [val rest].
  destruct (val <? lo)%Z eqn:E1; [discriminate|].
  destruct (hi <? val)%Z eqn:E2; [discriminate|].
  intros H. injection H as <- _. apply Z.ltb_ge in E1, E2. lia.
Qed.

Lemma strptime_range (s : cstring) (t : tm) :
  strptime s = Some t ->
  (0 <= tm_year t + 1900 <= 9999)%Z /\ (1 <= tm_mon t + 1 <= 12)%Z
  /\ (1 <= tm_mday t <= 31)%Z.
Proof.
  unfold strptime.
  destruct (get_number 0 9999 4 s) as [[y s1]|] eqn:Ey; [|discriminate].
  destruct (match_char DASH s1) as [s2|]; [|discriminate].
  destruct (get_number 1 12 2 s2) as [[m s3]|] eqn:Em; [|discriminate].
  destruct (match_char DASH s3) as [s4|]; [|discriminate].
  destruct (get_number 1 31 2 s4) as [[d s5]|] eqn:Ed; [|discriminate].
  intros H. injection H as <-. simpl.
  apply get_number_range in Ey, Em, Ed. lia.
Qed.

(** X9.  [parse_date] returns 0 in two cases only: the text does not
    parse as a date, or it is the date 1970-01-01, which the callers
    cannot tell from a text that does not parse (time zone UTC). *)
Theorem parse_date_zero_iff (s : cstring) :
  parse_date s = 0%Z <-> strptime s = None \/ strptime s = Some epoch.
Proof.
  unfold parse_date. split.
  - destruct (strptime s) as [t|] eqn:E; [|left; reflexivity].
    intros H. right. f_equal.
    pose proof (strptime_range _ E) as (Hy & Hm & Hd).
    unfold mktime, timezone in H.
    assert (H0 : days_from_civil (tm_year t + 1900) (tm_mon t + 1) (tm_mday t)
                 = 0%Z) by lia.
    apply days_from_civil_zero in H0; try assumption.
    destruct t as [y m d]. simpl in *. unfold epoch. f_equal; lia.
  - intros [-> | ->]; reflexivity.
Qed.

(* ================================================================== *)
(** ** [strip]: the text between the white space *)

Lemma find_if_le (pred : ascii -> bool) (s : cstring) :
  find_if pred s <= length s.
Proof.
  induction s as [|c t IH]; simpl; [lia|]. destruct (pred c); simpl; lia.
Qed.

Lemma skipn_find_if_space (s : cstring) :
  skipn (find_if not_space s) s = skip_space s.
Proof.
  induction s as [|c t IH]; [reflexivity|].
  unfold not_space in *. simpl. destruct (isspace c); simpl; [exact IH|reflexivity].
Qed.

Lemma find_if_all_space (s : cstring) :
  find_if not_space s = length s <-> skip_space s = [].
Proof.
  induction s as [|c t IH]; [simpl; tauto|].
  unfold not_space in *. simpl. destruct (isspace c); simpl.
  - rewrite <- IH. split; intros H; lia.
  - split; intros H; discriminate.
Qed.

Lemma lstrip_spec (s : cstring) :
  lstrip s = match skip_space s with [] => s | t => t end.
Proof.
  unfold lstrip, rotate, erase_from.
  pose proof (find_if_le not_space s) as Hle.
  pose proof (find_if_all_space s) as Hall.
  pose proof (skipn_find_if_space s) as Hskip.
  destruct (find_if not_space s =? length s) eqn:E.
  - apply Nat.eqb_eq in E. apply Hall in E. rewrite E. reflexivity.
  - apply Nat.eqb_neq in E.
    rewrite firstn_app, length_skipn, Nat.sub_diag, firstn_all2
      by (rewrite length_skipn; lia).
    cbn [firstn]. rewrite app_nil_r, Hskip.
    destruct (skip_space s) eqn:Es; [|reflexivity].
    exfalso. apply E. apply Hall. reflexivity.
Qed.

Lemma rstrip_spec (s : cstring) : rstrip s = rev (skip_space (rev s)).
Proof.
  unfold rstrip, erase_from.
  rewrite <- skipn_find_if_space, skipn_rev, rev_involutive.
  reflexivity.
Qed.

Lemma skip_space_idem (s : cstring) : skip_space (skip_space s) = skip_space s.
Proof.
  induction s as [|c t IH]; [reflexivity|].
  simpl. destruct (isspace c) eqn:E; [exact IH|]. simpl. rewrite E. reflexivity.
Qed.

Lemma skip_space_head (s : cstring) (c : ascii) (t : cstring) :
  skip_space s = c :: t -> isspace c = false.
Proof.
  induction s as [|x s IH]; simpl; [discriminate|].
  destruct (isspace x) eqn:E; [exact IH|].
  intros H. injection H as <- _. exact E.
Qed.

(** White space goes from the end of a text that starts with none, and
    the start stays. *)
Lemma skip_space_rev_keeps_head (c : ascii) (t : cstring) :
  isspace c = false ->
  exists u, rev (skip_space (rev (c :: t))) = c :: u.
Proof.
  intros Hc.
  assert (G : forall l : cstring, exists u, skip_space (l ++ [c]) = u ++ [c]).
  { induction l as [|x l IH].
    - exists []. simpl. rewrite Hc. reflexivity.
    - simpl. destruct (isspace x); [exact IH|]. exists (x :: l). reflexivity. }
  destruct (G (rev t)) as [u Hu]. exists (rev u).
  simpl. rewrite Hu, rev_app_distr. reflexivity.
Qed.

(** X10.  [strip], written with [find_if], [rotate] and [erase], leaves
    the text without the white space at its two ends: nothing of a text
    that is all white space, else a text that starts and ends with a
    byte that is no white space; what is inside stays. *)
Theorem strip_trims (s : cstring) :
  strip s = trim s
  /\ (skip_space s = [] -> strip s = [])
  /\ (forall c t, strip s = c :: t ->
                  isspace c = false /\ isspace (last (c :: t) c) = false)
  /\ strip (strip s) = strip s.
Proof.
  assert (Heq : forall x, strip x = trim x).
  { intros x. unfold strip, trim. rewrite rstrip_spec, lstrip_spec.
    destruct (skip_space x) eqn:E; [|reflexivity].
    assert (Hr : skip_space (rev x) = []).
    { clear -E. assert (Hall : forall c, In c x -> isspace c = true).
      { induction x as [|y x IH]; simpl in *; [tauto|].
        destruct (isspace y) eqn:Ey; [|discriminate].
        intros c [<-|Hc]; [exact Ey|apply IH; assumption]. }
      assert (G : forall l : cstring,
                 (forall c, In c l -> isspace c = true) -> skip_space l = []).
      { induction l as [|y l IH]; intros H; [reflexivity|].
        simpl. rewrite (H y (or_introl eq_refl)). apply IH.
        intros c Hc. apply H. right. exact Hc. }
      apply G. intros c Hc. apply Hall. apply in_rev. exact Hc. }
    rewrite Hr. reflexivity. }
  assert (Hends : forall x c t, trim x = c :: t ->
                     isspace c = false /\ isspace (last (c :: t) c) = false).
  { intros x c t H. unfold trim in H.
    destruct (skip_space x) as [|a u] eqn:Ex; [discriminate|].
    pose proof (skip_space_head _ Ex) as Ha.
    destruct (@skip_space_rev_keeps_head a u Ha) as [v Hv].
    rewrite Hv in H. injection H as <- <-. split; [exact Ha|].
    destruct (skip_space (rev (a :: u))) as [|b w] eqn:Er.
    - simpl in Hv. discriminate.
    - pose proof (skip_space_head _ Er) as Hb.
      simpl in Hv. rewrite <- Hv. rewrite last_last. exact Hb. }
  split; [apply Heq|]. split; [|split].
  - intros H. rewrite Heq. unfold trim. rewrite H. reflexivity.
  - intros c t H. rewrite Heq in H. exact (Hends s c t H).
  - rewrite !Heq. unfold trim at 1.
    destruct (trim s) as [|c t] eqn:E; [reflexivity|].
    destruct (Hends s c t E) as [Hc Hl].
    assert (H1 : skip_space (c :: t) = c :: t) by (simpl; rewrite Hc; reflexivity).
    rewrite H1.
    assert (H2 : skip_space (rev (c :: t)) = rev (c :: t)).
    { destruct (rev (c :: t)) as [|b w] eqn:Er.
      - reflexivity.
      - assert (Hb : b = last (c :: t) c).
        { apply (f_equal (@rev ascii)) in Er. rewrite rev_involutive in Er.
          rewrite Er. simpl. rewrite last_last. reflexivity. }
        simpl. rewrite Hb, Hl. reflexivity. }
    rewrite H2. apply rev_involutive.
Qed.

(* ================================================================== *)
(** ** [curl_callback]: the pieces of a body *)

(** X11.  Whatever pieces the body arrives in, [curl_callback] tells
    [curl_easy_perform] every time that it took the whole piece, and the
    buffer ends as what it held followed by the pieces in their order:
    nothing lost, nothing twice. *)
Theorem curl_callback_accumulates (chunks : list cstring) (cbuf : cstring) :
  curl_easy_perform chunks cbuf = (cbuf ++ concat chunks, true)
  /\ Forall (fun chunk =>
               forall b, snd (curl_callback chunk 1 (length chunk) b)
                         = length chunk) chunks.
Proof.
  split.
  - revert cbuf. induction chunks as [|chunk rest IH]; intros cbuf.
    + simpl. rewrite app_nil_r. reflexivity.
    + cbn [curl_easy_perform curl_callback concat].
      rewrite Nat.eqb_refl, IH.
      rewrite Nat.mul_1_l, firstn_all, <- app_assoc. reflexivity.
  - apply Forall_forall. intros chunk _ b. simpl. lia.
Qed.

(* ================================================================== *)
(** ** The option loop of [getstock] *)

Lemma skipn_cons_nth (A : Type) (l : list A) :
  forall (n : nat) (x : A) (r : list A),
    skipn n l = x :: r ->
    nth_error l n = Some x /\ skipn (S n) l = r /\ n < length l.
Proof.
  induction l as [|y l IH]; intros n x r H.
  - destruct n; discriminate.
  - destruct n as [|n].
    + simpl in H. injection H as <- <-. simpl. repeat split. lia.
    + simpl in H. apply IH in H. destruct H as (H1 & H2 & H3).
      simpl. repeat split; try assumption. lia.
Qed.

Lemma arg_at_skipn (argv : list cstring) (av : nat) :
  av <= length argv ->
  match skipn av argv with
  | [] => arg_at argv av = Null /\ av = length argv
  | s :: r => arg_at argv av = Arg s /\ skipn (S av) argv = r
              /\ av < length argv
  end.
Proof.
  intros Hle. unfold arg_at.
  destruct (skipn av argv) as [|s r] eqn:E.
  - assert (Hlen : length (skipn av argv) = 0) by (rewrite E; reflexivity).
    rewrite length_skipn in Hlen. assert (av = length argv) by lia. subst.
    rewrite (proj2 (nth_error_None argv (length argv))) by lia.
    rewrite Nat.eqb_refl. split; reflexivity.
  - apply skipn_cons_nth in E. destruct E as (H1 & H2 & H3).
    rewrite H1. repeat split; assumption.
Qed.

(** The option loop of [getstock] as the reading of a list. *)
Lemma getstock_options_list (argv : list cstring) :
  forall (fuel av : nat) (st : cli),
    av <= length argv ->
    length argv - av <= fuel ->
    getstock_options fuel argv st (Z.of_nat (length argv - av)) av
    = match cli_words (skipn av argv) st with
      | Go (st', rest) =>
          Go (st', Z.of_nat (length rest), length argv - length rest)
      | Halt e => Halt e
      end.
Proof.
  induction fuel as [|fuel IH]; intros av st Hle Hfuel.
  - assert (av = length argv) by lia. subst.
    rewrite skipn_all, Nat.sub_diag. cbn. rewrite Nat.sub_0_r. reflexivity.
  - pose proof (arg_at_skipn argv Hle) as Harg.
    assert (Hlen : length (skipn av argv) = length argv - av)
      by apply length_skipn.
    destruct (skipn av argv) as [|s r] eqn:E.
    + destruct Harg as [_ ->]. rewrite Nat.sub_diag. cbn.
      rewrite Nat.sub_0_r. reflexivity.
    + destruct Harg as (Ha & Hr & Hlt).
      cbn [getstock_options].
      destruct (Z.of_nat (length argv - av) =? 0)%Z eqn:E0;
        [apply Z.eqb_eq in E0; lia|].
      rewrite Ha. cbn [cli_words].
      assert (Hgo : @Go getstock_exit _ (st, Z.of_nat (length argv - av), av)
                    = Go (st, Z.of_nat (length (s :: r)),
                          length argv - length (s :: r))).
      { rewrite Hlen. do 2 f_equal. lia. }
      destruct s as [|d [|c v]]; try exact Hgo.
      destruct (negb (Ascii.eqb d DASH)); [exact Hgo|].
      destruct (Ascii.eqb c DASH && match v with [] => true | _ => false end).
      { simpl length in Hlen. f_equal. f_equal; [f_equal; lia | lia]. }
      pose proof (@arg_at_skipn argv (S av) Hlt) as Harg2.
      rewrite Hr in Harg2.
      destruct v as [|x v].
      * destruct (set_option c [] st) as [st0|]; [|reflexivity].
        destruct r as [|t r'].
        -- destruct Harg2 as [-> _]. reflexivity.
        -- destruct Harg2 as (-> & Hr2 & Hlt2).
           destruct (set_option c t st) as [st'|]; [|reflexivity].
           replace (Z.of_nat (length argv - av) - 1 - 1)%Z
             with (Z.of_nat (length argv - S (S av))) by lia.
           rewrite IH by lia. rewrite Hr2. reflexivity.
      * destruct (set_option c [] st) as [st0|]; [|reflexivity].
        destruct (set_option c (x :: v) st) as [st'|]; [|reflexivity].
        replace (Z.of_nat (length argv - av) - 1)%Z
          with (Z.of_nat (length argv - S av)) by lia.
        rewrite IH by lia. rewrite Hr. reflexivity.
Qed.

Lemma fetch_io_words (w : world) (argv : list cstring) (o : options) :
  forall (fuel av : nat),
    av <= length argv ->
    length argv - av <= fuel ->
    fetch_io fuel w argv o (Z.of_nat (length argv - av)) av []
    = fetch_words w o (skipn av argv).
Proof.
  induction fuel as [|fuel IH]; intros av Hle Hfuel.
  - assert (av = length argv) by lia. subst.
    rewrite skipn_all, Nat.sub_diag. reflexivity.
  - pose proof (arg_at_skipn argv Hle) as Harg.
    assert (Hlen : length (skipn av argv) = length argv - av)
      by apply length_skipn.
    destruct (skipn av argv) as [|a r] eqn:E.
    + destruct Harg as [_ ->]. rewrite Nat.sub_diag. reflexivity.
    + destruct Harg as (Ha & Hr & Hlt).
      cbn [fetch_io fetch_words].
      destruct (Z.of_nat (length argv - av) =? 0)%Z eqn:E0;
        [apply Z.eqb_eq in E0; lia|].
      rewrite Ha.
      replace (Z.of_nat (length argv - av) - 1)%Z
        with (Z.of_nat (length argv - S av)) by lia.
      rewrite IH by lia. rewrite Hr. reflexivity.
Qed.

Lemma cli_words_suffix :
  forall (rest : list cstring) (st st' : cli) (left : list cstring),
    cli_words rest st = Go (st', left) ->
    exists used, rest = used ++ left.
Proof.
  fix IH 1. intros rest st st' left H.
  destruct rest as [|s rest']; cbn [cli_words] in H.
  - injection H as _ <-. exists []. reflexivity.
  - assert (Hstay : @Go getstock_exit _ (st, s :: rest') = Go (st', left) ->
                    exists used, s :: rest' = used ++ left).
    { intros G. injection G as _ <-. exists []. reflexivity. }
    destruct s as [|d [|c v]]; try (apply Hstay; exact H).
    destruct (negb (Ascii.eqb d DASH)); [apply Hstay; exact H|].
    destruct (Ascii.eqb c DASH && match v with [] => true | _ => false end).
    { injection H as _ <-. exists [d :: c :: v]. reflexivity. }
    destruct (set_option c [] st); [|discriminate].
    destruct v as [|x v].
    + destruct rest' as [|t rest'']; [discriminate|].
      destruct (set_option c t st) as [st1|]; [|discriminate].
      apply IH in H. destruct H as [used ->].
      exists ([d; c] :: t :: used). reflexivity.
    + destruct (set_option c (x :: v) st) as [st1|]; [|discriminate].
      apply IH in H. destruct H as [used ->].
      exists ((d :: c :: x :: v) :: used). reflexivity.
Qed.

Lemma strcmp_cons (c1 c2 : ascii) (t1 t2 : cstring) :
  strcmp (c1 :: t1) (c2 :: t2) = 0%Z -> c1 = c2 /\ strcmp t1 t2 = 0%Z.
Proof.
  simpl. destruct (Ascii.eqb c1 c2) eqn:E.
  - apply Ascii.eqb_eq in E. tauto.
  - apply Ascii.eqb_neq in E. intros H. exfalso. apply E. apply code_inj. lia.
Qed.

Lemma strcmp_help (a : cstring) :
  (strcmp a (lit "-h") =? 0)%Z || (strcmp a (lit "--help") =? 0)%Z = true ->
  forall st rest, cli_words (a :: rest) st = Halt (Exited Usage).
Proof.
  intros H st rest.
  assert (Hshape : (exists v, a = "-"%char :: "h"%char :: v)
                   \/ (exists x v, a = "-"%char :: "-"%char :: x :: v)).
  { apply orb_prop in H. destruct H as [H|H]; apply Z.eqb_eq in H.
    - left. destruct a as [|d [|c v]]; try (cbv in H; discriminate H).
      + change (lit "-h") with ("-"%char :: lit "h") in H.
        apply strcmp_cons in H. destruct H as [_ H]. cbv in H. discriminate H.
      + change (lit "-h") with ("-"%char :: "h"%char :: []) in H.
        apply strcmp_cons in H. destruct H as [-> H].
        apply strcmp_cons in H. destruct H as [-> _]. eauto.
    - right. destruct a as [|d [|c [|x v]]]; try (cbv in H; discriminate H).
      + change (lit "--help") with ("-"%char :: lit "-help") in H.
        apply strcmp_cons in H. destruct H as [_ H]. cbv in H. discriminate H.
      + change (lit "--help") with ("-"%char :: "-"%char :: lit "help") in H.
        apply strcmp_cons in H. destruct H as [_ H].
        apply strcmp_cons in H. destruct H as [_ H]. cbv in H. discriminate H.
      + change (lit "--help") with ("-"%char :: "-"%char :: lit "help") in H.
        apply strcmp_cons in H. destruct H as [-> H].
        apply strcmp_cons in H. destruct H as [-> _]. eauto. }
  destruct Hshape as [[v ->] | (x & v & ->)]; reflexivity.
Qed.

(** [main] of [getstock] as a reading of the words after the name of the
    program. *)
Lemma getstock_main_words (w : world) (prog : cstring) (words : list cstring) :
  getstock_main w (prog :: words)
  = match words with
    | [] => mkTrace [] (Exited Usage)
    | _ :: _ =>
        match cli_words words cli_empty with
        | Halt e => mkTrace [] e
        | Go (st, tickers) => run_words w st tickers
        end
    end.
Proof.
  unfold getstock_main. destruct words as [|a words]; [reflexivity|].
  cbn [length Nat.ltb Nat.leb nth_error].
  destruct ((strcmp a (lit "-h") =? 0)%Z || (strcmp a (lit "--help") =? 0)%Z)
    eqn:Eh.
  - rewrite (strcmp_help a Eh). reflexivity.
  - pose proof (@getstock_options_list (prog :: a :: words)
                  (length (prog :: a :: words)) 1 cli_empty) as Hopt.
    cbn [length Nat.sub skipn] in Hopt.
    replace (Z.of_nat (S (S (length words))) - 1)%Z
      with (Z.of_nat (S (length words))) by lia.
    rewrite Hopt by lia.
    destruct (cli_words (a :: words) cli_empty) as [[st tickers]|e] eqn:Ec;
      [|reflexivity].
    destruct (cli_words_suffix _ _ Ec) as [used Hused].
    assert (Hlen : length tickers <= S (length words)).
    { apply (f_equal (@length cstring)) in Hused.
      rewrite length_app in Hused. simpl in Hused. lia. }
    unfold getstock_run, run_words.
    destruct tickers as [|t tickers]; [reflexivity|].
    destruct (Z.of_nat (length (t :: tickers)) =? 0)%Z eqn:E0;
      [apply Z.eqb_eq in E0; simpl in E0; lia|].
    destruct (api_key_file st) as [|k kf]; [reflexivity|].
    destruct (strip (slurp (key_files w) (k :: kf))) as [|y key]; [reflexivity|].
    assert (Hskip : skipn (S (S (length words)) - length (t :: tickers))
                          (prog :: a :: words) = t :: tickers).
    { change (prog :: a :: words) with ([prog] ++ a :: words).
      rewrite Hused, app_assoc.
      replace (S (S (length words)) - length (t :: tickers))
        with (length ([prog] ++ used)).
      - rewrite skipn_app, skipn_all, Nat.sub_diag. reflexivity.
      - apply (f_equal (@length cstring)) in Hused.
        rewrite length_app in Hused. cbn [length app] in *. lia. }
    assert (Hio : forall o,
               fetch_io (length (prog :: a :: words)) w (prog :: a :: words) o
                        (Z.of_nat (length (t :: tickers)))
                        (S (S (length words)) - length (t :: tickers)) []
               = fetch_words w o (t :: tickers)).
    { intros o.
      transitivity (fetch_words w o
                      (skipn (S (S (length words)) - length (t :: tickers))
                             (prog :: a :: words)));
        [|rewrite Hskip; reflexivity].
      rewrite <- fetch_io_words with (fuel := length (prog :: a :: words));
        cbn [length] in *; try lia.
      f_equal. f_equal. lia. }
    destruct (cli_dbroot st) as [|r0 r]; [apply Hio|].
    destruct (database_init w (r0 :: r) =? -1)%Z; [reflexivity|apply Hio].
Qed.

(* ================================================================== *)
(** ** The rounds of [getstock]: what is fetched, printed and written *)

Lemma curl_easy_perform_concat (chunks : list cstring) :
  forall cbuf, curl_easy_perform chunks cbuf = (cbuf ++ concat chunks, true).
Proof.
  induction chunks as [|chunk rest IH]; intros cbuf.
  - simpl. rewrite app_nil_r. reflexivity.
  - cbn [curl_easy_perform curl_callback concat].
    rewrite Nat.eqb_refl, IH.
    rewrite Nat.mul_1_l, firstn_all, <- app_assoc. reflexivity.
Qed.

Lemma writef_fits (buffer : cstring) :
  (Z.of_nat (length buffer) < 2 ^ 31)%Z -> writef buffer = Some buffer.
Proof.
  intros H. unfold writef, to_int.
  rewrite Z.mod_small by lia.
  destruct (Z.of_nat (length buffer) <? 2 ^ 31)%Z eqn:E;
    [|apply Z.ltb_ge in E; lia].
  destruct (Z.of_nat (length buffer) <? 0)%Z eqn:E0;
    [apply Z.ltb_lt in E0; lia|].
  rewrite Nat2Z.id, firstn_all. reflexivity.
Qed.

Lemma sprintf_msgbuf_fits (label a : cstring) :
  length label + length a + 1 < 64 ->
  sprintf_msgbuf label (upper a) = Some (label ++ upper a ++ [LF]).
Proof.
  intros H. unfold sprintf_msgbuf, upper.
  rewrite !length_app, length_map. simpl length.
  destruct (length label + (length a + 1) <? 64) eqn:E; [reflexivity|].
  apply Nat.ltb_ge in E. lia.
Qed.

Lemma sprintf_msgbuf_overflow (label a : cstring) :
  64 <= length label + length a + 1 ->
  sprintf_msgbuf label (upper a) = None.
Proof.
  intros H. unfold sprintf_msgbuf, upper.
  rewrite !length_app, length_map. simpl length.
  destruct (length label + (length a + 1) <? 64) eqn:E; [|reflexivity].
  apply Nat.ltb_lt in E. lia.
Qed.

Lemma strip_dbroot_nonempty (dir : cstring) :
  dir <> [] -> strip_dbroot dir <> [].
Proof.
  intros Hne H.
  assert (Hrev : rev dir <> []).
  { intros G. apply (f_equal (@rev ascii)) in G.
    rewrite rev_involutive in G. contradiction. }
  unfold strip_dbroot in H. apply (f_equal (@rev ascii)) in H.
  rewrite rev_involutive in H. simpl in H.
  destruct (pop_slashes_cases Hrev) as [[Hp (c & t & Hd & _)] | [Hp _]];
    rewrite Hp in H; [rewrite Hd in H|]; discriminate.
Qed.

(** A round without output directory. *)
Lemma fetch_round_prints (w : world) (o : options) (a : cstring) :
  dbroot o = [] -> length a <= 56 -> body_fits w o a ->
  fetch_round w o a [] = mkTrace (printed_for w o a) Returned.
Proof.
  intros Hroot Hlen Hfit. unfold fetch_round, printed_for.
  rewrite Hroot, curl_easy_perform_concat. cbn [fst]. rewrite app_nil_l.
  rewrite sprintf_msgbuf_fits by (simpl; lia).
  rewrite writef_fits by exact Hfit.
  rewrite sprintf_msgbuf_fits by (simpl; lia).
  reflexivity.
Qed.

Lemma fetch_round_overflow (w : world) (o : options) (a : cstring) :
  dbroot o = [] -> 57 <= length a ->
  fetch_round w o a []
  = mkTrace [Fetched (make_url (upper a) (api_key o)
                               (Some (begin o)) (Some (end_ o)))]
            Undefined.
Proof.
  intros Hroot Hlen. unfold fetch_round.
  rewrite Hroot. rewrite sprintf_msgbuf_overflow by (simpl; lia).
  reflexivity.
Qed.

Lemma make_filename_for (o : options) (dir a : cstring) :
  dir <> [] ->
  make_filename (strip_dbroot dir) (upper a) (Some (begin o)) (Some (end_ o))
  = Ret (file_name_for o dir a).
Proof.
  intros Hne. rewrite make_filename_stripped by exact Hne.
  unfold file_name_for. repeat rewrite <- app_assoc. reflexivity.
Qed.

(** A round with the output directory [dir], as the loop of [main] has
    stripped it. *)
Lemma fetch_round_file (w : world) (o : options) (dir a : cstring) :
  dir <> [] -> dbroot o = strip_dbroot dir ->
  fetch_round w o a []
  = if fopen_w w (file_name_for o dir a) then
      match writef (concat (http w (make_url (upper a) (api_key o)
                                             (Some (begin o)) (Some (end_ o))))) with
      | Some body =>
          mkTrace [Fetched (make_url (upper a) (api_key o)
                                     (Some (begin o)) (Some (end_ o)));
                   Wrote (file_name_for o dir a) body] Returned
      | None =>
          mkTrace [Fetched (make_url (upper a) (api_key o)
                                     (Some (begin o)) (Some (end_ o)))]
                  Undefined
      end
    else mkTrace [Fetched (make_url (upper a) (api_key o)
                                    (Some (begin o)) (Some (end_ o)))]
                 (Exited FailedToOpenOutput).
Proof.
  intros Hne Hroot. unfold fetch_round.
  pose proof (strip_dbroot_nonempty Hne) as Hs.
  rewrite Hroot.
  destruct (strip_dbroot dir) as [|c r] eqn:E; [contradiction|].
  rewrite <- E. rewrite (make_filename_for o a Hne).
  rewrite curl_easy_perform_concat. cbn [fst]. rewrite app_nil_l.
  destruct (fopen_w w (file_name_for o dir a)); [|reflexivity].
  destruct (writef _); reflexivity.
Qed.

Lemma fetch_words_app (w : world) (o : options) (f : cstring -> list action) :
  forall (good rest : list cstring),
    Forall (fun a => fetch_round w o a [] = mkTrace (f a) Returned) good ->
    fetch_words w o (good ++ rest)
    = after (flat_map f good) (fetch_words w o rest).
Proof.
  induction good as [|a good IH]; intros rest H.
  - cbn [app flat_map]. destruct (fetch_words w o rest). reflexivity.
  - inversion H as [|a' g' Ha Hg]; subst.
    cbn [app fetch_words flat_map]. rewrite Ha. cbn [ended actions].
    rewrite (IH rest Hg). unfold after. cbn [actions ended].
    rewrite app_assoc. reflexivity.
Qed.

Lemma options_result_list (argv : list cstring) (fuel av : nat) (st : cli) :
  av <= length argv ->
  length argv - av <= fuel ->
  options_result argv
    (getstock_options fuel argv st (Z.of_nat (length argv - av)) av)
  = cli_words (skipn av argv) st.
Proof.
  intros Hle Hfuel. rewrite getstock_options_list by assumption.
  destruct (cli_words (skipn av argv) st) as [[st' left]|e] eqn:E;
    [|reflexivity].
  cbn [options_result]. f_equal. f_equal.
  destruct (cli_words_suffix _ _ E) as [used Hused].
  assert (Hargv : argv = (firstn av argv ++ used) ++ left).
  { rewrite <- app_assoc, <- Hused. symmetry. apply firstn_skipn. }
  rewrite Hargv at 2.
  replace (length argv - length left) with (length (firstn av argv ++ used)).
  - rewrite skipn_app, skipn_all, Nat.sub_diag. reflexivity.
  - apply (f_equal (@length cstring)) in Hargv.
    rewrite length_app in Hargv. lia.
Qed.

Lemma cli_words_finishes :
  forall (n : nat) (rest : list cstring) (st : cli) (e : ending getstock_exit),
    length rest <= n -> cli_words rest st = Halt e -> e <> Unfinished.
Proof.
  induction n as [|n IH]; intros rest st e Hn H.
  - destruct rest; [discriminate|simpl in Hn; lia].
  - destruct rest as [|s rest']; cbn [cli_words] in H; [discriminate|].
    simpl in Hn.
    destruct s as [|d [|c v]]; try discriminate.
    destruct (negb (Ascii.eqb d DASH)); [discriminate|].
    destruct (Ascii.eqb c DASH && match v with [] => true | _ => false end);
      [discriminate|].
    destruct (set_option c [] st); [|injection H as <-; discriminate].
    destruct v as [|x v].
    + destruct rest' as [|t rest'']; [injection H as <-; discriminate|].
      destruct (set_option c t st) as [st1|];
        [|injection H as <-; discriminate].
      apply (IH rest'' st1 e); [simpl in Hn; lia | exact H].
    + destruct (set_option c (x :: v) st) as [st1|];
        [|injection H as <-; discriminate].
      apply (IH rest' st1 e); [lia | exact H].
Qed.

(** X12.  The option loop of [getstock] reads the arguments as a list:
    the counter [ac] is the number of arguments from [av] on, at the
    start and when the loop is left, the loop ends within its bound, and
    the strings and the arguments it leaves are those of [cli_words]: an
    option letter takes the rest of its argument or, when that is empty,
    the next argument; [--] and the first argument that is no option end
    the options. *)
Theorem getstock_options_words (argv : list cstring) (fuel av : nat) (st : cli) :
  av <= length argv ->
  length argv - av <= fuel ->
  options_result argv
    (getstock_options fuel argv st (Z.of_nat (length argv - av)) av)
  = cli_words (skipn av argv) st
  /\ match getstock_options fuel argv st (Z.of_nat (length argv - av)) av with
     | Go (_, ac', av') => ac' = Z.of_nat (length argv - av') /\ av' <= length argv
     | Halt e => e <> Unfinished
     end.
Proof.
  intros Hle Hfuel. split; [apply options_result_list; assumption|].
  rewrite getstock_options_list by assumption.
  destruct (cli_words (skipn av argv) st) as [[st' left]|e] eqn:E.
  - destruct (cli_words_suffix _ _ E) as [used Hused].
    assert (Hlen : length left <= length argv).
    { apply (f_equal (@length cstring)) in Hused.
      rewrite length_skipn, length_app in Hused. lia. }
    split; [f_equal|]; lia.
  - exact (@cli_words_finishes (length (skipn av argv)) _ st e (Nat.le_refl _) E).
Qed.

Lemma getstock_options_words_witness :
  options_result
    [lit "getstock"; lit "-k"; lit "key"; lit "-b2018-01-01"; lit "jpm"; lit "gs"]
    (getstock_options 5
       [lit "getstock"; lit "-k"; lit "key"; lit "-b2018-01-01"; lit "jpm"; lit "gs"]
       cli_empty (Z.of_nat (6 - 1)) 1)
  = cli_words
      (skipn 1 [lit "getstock"; lit "-k"; lit "key"; lit "-b2018-01-01";
                lit "jpm"; lit "gs"]) cli_empty
  /\ match getstock_options 5
             [lit "getstock"; lit "-k"; lit "key"; lit "-b2018-01-01";
              lit "jpm"; lit "gs"]
             cli_empty (Z.of_nat (6 - 1)) 1 with
     | Go (_, ac', av') =>
         ac' = Z.of_nat
                 (length [lit "getstock"; lit "-k"; lit "key";
                          lit "-b2018-01-01"; lit "jpm"; lit "gs"] - av')
         /\ av' <= length [lit "getstock"; lit "-k"; lit "key";
                           lit "-b2018-01-01"; lit "jpm"; lit "gs"]
     | Halt e => e <> Unfinished
     end.
Proof.
  apply (@getstock_options_words
           [lit "getstock"; lit "-k"; lit "key"; lit "-b2018-01-01";
            lit "jpm"; lit "gs"] 5 1 cli_empty).
  - simpl. lia.
  - simpl. lia.
Defined.

(* ================================================================== *)
(** ** Options with their values, in front of other arguments *)

Lemma set_option_takes_value (c : ascii) :
  takes_value c = true ->
  forall (t : cstring) (st : cli), exists st', set_option c t st = Some st'.
Proof.
  unfold takes_value, set_option. cbn [lit existsb list_ascii_of_string].
  intros H t st.
  destruct (Ascii.eqb c "k"); [eauto|].
  destruct (Ascii.eqb c "b"); [eauto|].
  destruct (Ascii.eqb c "e"); [eauto|].
  destruct (Ascii.eqb c "o"); [eauto|].
  discriminate.
Qed.

Lemma takes_value_not_dash (c : ascii) : takes_value c = true -> c <> DASH.
Proof. intros H ->. discriminate H. Qed.

(** The loop reads such options and goes on behind them, with the
    strings they set. *)
Lemma cli_words_options (pre : list cstring) :
  option_words pre ->
  forall st : cli, exists st' : cli,
    forall rest : list cstring, cli_words (pre ++ rest) st = cli_words rest st'.
Proof.
  induction 1 as [|c v pre Hc Hv _ IH|c v pre Hc _ IH]; intros st.
  - exists st. reflexivity.
  - destruct (@set_option_takes_value c Hc [] st) as [st0 E0].
    destruct (@set_option_takes_value c Hc v st) as [st1 E1].
    destruct (IH st1) as [st' Hst']. exists st'. intros rest.
    cbn [app cli_words]. rewrite Ascii.eqb_refl. cbn [negb].
    pose proof (@takes_value_not_dash c Hc) as Hd.
    apply Ascii.eqb_neq in Hd. rewrite Hd. cbn [andb].
    rewrite E0. destruct v as [|x v]; [contradiction|].
    rewrite E1. apply Hst'.
  - destruct (@set_option_takes_value c Hc [] st) as [st0 E0].
    destruct (@set_option_takes_value c Hc v st) as [st1 E1].
    destruct (IH st1) as [st' Hst']. exists st'. intros rest.
    cbn [app cli_words]. rewrite Ascii.eqb_refl. cbn [negb].
    pose proof (@takes_value_not_dash c Hc) as Hd.
    apply Ascii.eqb_neq in Hd. rewrite Hd. cbn [andb].
    rewrite E0, E1. apply Hst'.
Qed.

Lemma getstock_main_cli (w : world) (prog : cstring) (words : list cstring) :
  words <> [] ->
  getstock_main w (prog :: words)
  = match cli_words words cli_empty with
    | Halt e => mkTrace [] e
    | Go (st, tickers) => run_words w st tickers
    end.
Proof.
  intros H. rewrite getstock_main_words.
  destruct words; [contradiction|reflexivity].
Qed.

(** X13.  An option's value may be attached to the letter or be the
    next argument: behind the name of the program and any number of
    options with their values, [-cVALUE] and [-c VALUE] give the same
    run, whatever follows. *)
Theorem getstock_option_attached_or_next
        (w : world) (prog : cstring) (pre post : list cstring)
        (c : ascii) (v : cstring) :
  option_words pre -> v <> [] -> c <> DASH ->
  getstock_main w (prog :: pre ++ (DASH :: c :: v) :: post)
  = getstock_main w (prog :: pre ++ [DASH; c] :: v :: post).
Proof.
  intros Hpre Hv Hc.
  rewrite !getstock_main_cli by (destruct pre; discriminate).
  destruct (@cli_words_options pre Hpre cli_empty) as [st' Hst'].
  rewrite !Hst'. cbn [cli_words].
  rewrite Ascii.eqb_refl. cbn [negb].
  apply Ascii.eqb_neq in Hc. rewrite Hc. cbn [andb].
  destruct v as [|x v]; [contradiction|]. reflexivity.
Qed.

Lemma getstock_option_attached_or_next_witness :
  getstock_main (sample_world (fun _ => true))
    (lit "getstock" :: [lit "-kkey"; lit "-o"; lit "data"]
       ++ (DASH :: "b"%char :: lit "2018-01-01") :: [lit "jpm"])
  = getstock_main (sample_world (fun _ => true))
      (lit "getstock" :: [lit "-kkey"; lit "-o"; lit "data"]
         ++ [DASH; "b"%char] :: lit "2018-01-01" :: [lit "jpm"]).
Proof.
  apply (@getstock_option_attached_or_next (sample_world (fun _ => true))
           (lit "getstock") [lit "-kkey"; lit "-o"; lit "data"] [lit "jpm"]
           "b"%char (lit "2018-01-01")).
  - apply (@option_words_attached "k"%char (lit "key"));
      [reflexivity | discriminate |].
    apply (@option_words_next "o"%char (lit "data")); [reflexivity|].
    constructor.
  - discriminate.
  - discriminate.
Defined.

(** X14.  An option letter that takes a value, as the last argument and
    without value, behind the name of the program and any number of
    options with their values, makes the run undefined before anything
    is fetched: the null pointer that ends [argv] is assigned to a
    [std::string]. *)
Theorem getstock_option_without_value
        (w : world) (prog : cstring) (pre : list cstring) (c : ascii) :
  option_words pre -> takes_value c = true ->
  getstock_main w (prog :: pre ++ [[DASH; c]]) = mkTrace [] Undefined.
Proof.
  intros Hpre Hc.
  rewrite getstock_main_cli by (destruct pre; discriminate).
  destruct (@cli_words_options pre Hpre cli_empty) as [st' Hst'].
  rewrite Hst'. cbn [cli_words].
  rewrite Ascii.eqb_refl. cbn [negb].
  pose proof (@takes_value_not_dash c Hc) as Hd.
  apply Ascii.eqb_neq in Hd. rewrite Hd. cbn [andb].
  destruct (@set_option_takes_value c Hc [] st') as [st0 E0]. rewrite E0.
  reflexivity.
Qed.

Lemma getstock_option_without_value_witness :
  getstock_main (sample_world (fun _ => true))
    (lit "getstock" :: [lit "-o"; lit "data"; lit "-b2018-01-01"]
       ++ [[DASH; "k"%char]])
  = mkTrace [] Undefined.
Proof.
  apply (@getstock_option_without_value (sample_world (fun _ => true))
           (lit "getstock") [lit "-o"; lit "data"; lit "-b2018-01-01"]
           "k"%char).
  - apply (@option_words_next "o"%char (lit "data")); [reflexivity|].
    apply (@option_words_attached "b"%char (lit "2018-01-01"));
      [reflexivity | discriminate |].
    constructor.
  - reflexivity.
Defined.

Lemma strip_blank (s : cstring) : skip_space s = [] -> strip s = [].
Proof.
  intros H. unfold strip. rewrite rstrip_spec, lstrip_spec, H.
  assert (G : forall l : cstring,
             (forall c, In c l -> isspace c = true) -> skip_space l = []).
  { induction l as [|y l IH]; intros Hl; [reflexivity|].
    simpl. rewrite (Hl y (or_introl eq_refl)). apply IH.
    intros c Hc. apply Hl. right. exact Hc. }
  assert (Hall : forall c, In c s -> isspace c = true).
  { clear G. induction s as [|y s IH]; simpl in *; [tauto|].
    destruct (isspace y) eqn:Ey; [|discriminate].
    intros c [<-|Hc]; [exact Ey|apply IH; assumption]. }
  rewrite G; [reflexivity|].
  intros c Hc. apply Hall. apply in_rev. exact Hc.
Qed.

(** What [main] does once the options are read and the key is there. *)
Lemma getstock_main_fetches (w : world) (prog : cstring)
      (words : list cstring) (st : cli) (tickers : list cstring) :
  cli_words words cli_empty = Go (st, tickers) ->
  tickers <> [] -> api_key_file st <> [] -> key_of w st <> [] ->
  getstock_main w (prog :: words)
  = match cli_dbroot st with
    | [] => fetch_words w (fetch_options w st []) tickers
    | dir =>
        if (database_init w dir =? -1)%Z
        then mkTrace [] (Exited FailedToInitDatabase)
        else fetch_words w (fetch_options w st (strip_dbroot dir)) tickers
    end.
Proof.
  intros Hw Ht Hk Hkey. rewrite getstock_main_words.
  destruct words as [|a words].
  { simpl in Hw. injection Hw as _ <-. contradiction. }
  rewrite Hw. unfold run_words, fetch_options, key_of in *.
  destruct tickers as [|t tickers]; [contradiction|].
  destruct (api_key_file st) as [|k kf]; [contradiction|].
  destruct (strip (slurp (key_files w) (k :: kf))) as [|y key];
    [contradiction|].
  reflexivity.
Qed.

(** X15.  Without output directory, [getstock] prints for every ticker,
    in the order of the command line, the line [begin:TICKER], the body
    that was fetched for it and for no other, and the line
    [end:TICKER], the ticker in upper case; so it is for tickers of at
    most 56 bytes and bodies under 2 GiB. *)
Theorem getstock_prints_frames (w : world) (prog : cstring)
        (words : list cstring) (st : cli) (tickers : list cstring) :
  cli_words words cli_empty = Go (st, tickers) ->
  tickers <> [] -> api_key_file st <> [] -> key_of w st <> [] ->
  cli_dbroot st = [] ->
  Forall (fun a : cstring => length a <= 56) tickers ->
  Forall (body_fits w (fetch_options w st [])) tickers ->
  getstock_main w (prog :: words)
  = mkTrace (flat_map (printed_for w (fetch_options w st [])) tickers) Returned.
Proof.
  intros Hw Ht Hk Hkey Hroot Hlen Hfit.
  rewrite (@getstock_main_fetches w prog words st _ Hw Ht Hk Hkey), Hroot.
  rewrite <- (app_nil_r tickers) at 1.
  rewrite (@fetch_words_app w (fetch_options w st [])
             (printed_for w (fetch_options w st [])) tickers []).
  - unfold after. cbn [fetch_words actions ended]. rewrite app_nil_r.
    reflexivity.
  - apply Forall_forall. intros a Ha.
    rewrite Forall_forall in Hlen, Hfit.
    apply fetch_round_prints; [reflexivity | apply Hlen | apply Hfit]; exact Ha.
Qed.

Lemma getstock_prints_frames_witness :
  getstock_main (sample_world (fun _ => true))
                (lit "getstock" :: [lit "-k"; lit "key"; lit "--"; lit "jpm"; lit "gs"])
  = mkTrace
      (flat_map
         (printed_for (sample_world (fun _ => true))
            (fetch_options (sample_world (fun _ => true))
                           (mkCli (lit "key") [] [] []) []))
         [lit "jpm"; lit "gs"])
      Returned.
Proof.
  apply (@getstock_prints_frames (sample_world (fun _ => true)) (lit "getstock")
           [lit "-k"; lit "key"; lit "--"; lit "jpm"; lit "gs"]
           (mkCli (lit "key") [] [] []) [lit "jpm"; lit "gs"]).
  - reflexivity.
  - discriminate.
  - discriminate.
  - discriminate.
  - reflexivity.
  - repeat constructor; simpl; lia.
  - repeat constructor.
Defined.

(** X16.  With an output directory that [database_init] accepts,
    [getstock] writes for every ticker one file, named by the directory
    without the slashes that end it, one slash, the ticker in upper
    case, the two dates and [.csv], that holds the body fetched for that
    ticker and nothing of another; so it is when every file opens and
    the bodies are under 2 GiB. *)
Theorem getstock_writes_files (w : world) (prog : cstring)
        (words : list cstring) (st : cli) (tickers : list cstring) :
  cli_words words cli_empty = Go (st, tickers) ->
  tickers <> [] -> api_key_file st <> [] -> key_of w st <> [] ->
  cli_dbroot st <> [] ->
  database_init w (cli_dbroot st) <> (-1)%Z ->
  Forall (fun a : cstring =>
            fopen_w w (file_name_for (fetch_options w st []) (cli_dbroot st) a)
            = true) tickers ->
  Forall (body_fits w (fetch_options w st [])) tickers ->
  getstock_main w (prog :: words)
  = mkTrace (flat_map (written_for w (fetch_options w st []) (cli_dbroot st))
                      tickers) Returned.
Proof.
  intros Hw Ht Hk Hkey Hroot Hinit Hopen Hfit.
  rewrite (@getstock_main_fetches w prog words st _ Hw Ht Hk Hkey).
  destruct (cli_dbroot st) as [|c r] eqn:Edir; [contradiction|].
  cbv beta iota zeta. apply Z.eqb_neq in Hinit. rewrite Hinit.
  rewrite <- (app_nil_r tickers) at 1.
  rewrite (@fetch_words_app w (fetch_options w st (strip_dbroot (c :: r)))
             (written_for w (fetch_options w st []) (c :: r)) tickers []).
  - unfold after. cbn [fetch_words actions ended]. rewrite app_nil_r.
    reflexivity.
  - apply Forall_forall. intros a Ha.
    rewrite Forall_forall in Hopen, Hfit.
    rewrite (@fetch_round_file w (fetch_options w st (strip_dbroot (c :: r)))
               (c :: r) a) by (discriminate || reflexivity).
    change (file_name_for (fetch_options w st (strip_dbroot (c :: r))) (c :: r) a)
      with (file_name_for (fetch_options w st []) (c :: r) a).
    rewrite (Hopen a Ha).
    pose proof (Hfit a Ha) as Hb. unfold body_fits in Hb.
    cbn [fetch_options api_key begin end_] in *.
    rewrite writef_fits by exact Hb. reflexivity.
Qed.

Lemma getstock_writes_files_witness :
  getstock_main (sample_world (fun _ => true))
                (lit "getstock"
                 :: [lit "-k"; lit "key"; lit "-odata//"; lit "-b2018-01-01";
                     lit "jpm"; lit "gs"])
  = mkTrace
      (flat_map
         (written_for (sample_world (fun _ => true))
            (fetch_options (sample_world (fun _ => true))
               (mkCli (lit "key") (lit "2018-01-01") [] (lit "data//")) [])
            (cli_dbroot (mkCli (lit "key") (lit "2018-01-01") [] (lit "data//"))))
         [lit "jpm"; lit "gs"])
      Returned.
Proof.
  apply (@getstock_writes_files (sample_world (fun _ => true)) (lit "getstock")
           [lit "-k"; lit "key"; lit "-odata//"; lit "-b2018-01-01";
            lit "jpm"; lit "gs"]
           (mkCli (lit "key") (lit "2018-01-01") [] (lit "data//"))
           [lit "jpm"; lit "gs"]).
  - reflexivity.
  - discriminate.
  - discriminate.
  - discriminate.
  - discriminate.
  - discriminate.
  - repeat constructor.
  - repeat constructor.
Defined.

(** X17.  At the first file that does not open [getstock] ends with
    the message of [fopen]: the files of the tickers before it are
    written, its own body was fetched and is dropped, and nothing is
    fetched for the tickers after it. *)
Theorem getstock_stops_at_unwritable (w : world) (prog : cstring)
        (words : list cstring) (st : cli)
        (good : list cstring) (bad : cstring) (rest : list cstring) :
  cli_words words cli_empty = Go (st, good ++ bad :: rest) ->
  api_key_file st <> [] -> key_of w st <> [] ->
  cli_dbroot st <> [] ->
  database_init w (cli_dbroot st) <> (-1)%Z ->
  Forall (fun a : cstring =>
            fopen_w w (file_name_for (fetch_options w st []) (cli_dbroot st) a)
            = true) good ->
  Forall (body_fits w (fetch_options w st [])) good ->
  fopen_w w (file_name_for (fetch_options w st []) (cli_dbroot st) bad) = false ->
  getstock_main w (prog :: words)
  = mkTrace (flat_map (written_for w (fetch_options w st []) (cli_dbroot st)) good
             ++ [Fetched (make_url (upper bad) (key_of w st)
                                   (Some (cli_begin st)) (Some (cli_end st)))])
            (Exited FailedToOpenOutput).
Proof.
  intros Hw Hk Hkey Hroot Hinit Hopen Hfit Hbad.
  assert (Ht : good ++ bad :: rest <> []) by (destruct good; discriminate).
  rewrite (@getstock_main_fetches w prog words st _ Hw Ht Hk Hkey).
  destruct (cli_dbroot st) as [|c r] eqn:Edir; [contradiction|].
  cbv beta iota zeta. apply Z.eqb_neq in Hinit. rewrite Hinit.
  rewrite (@fetch_words_app w (fetch_options w st (strip_dbroot (c :: r)))
             (written_for w (fetch_options w st []) (c :: r)) good (bad :: rest)).
  - cbn [fetch_words].
    rewrite (@fetch_round_file w (fetch_options w st (strip_dbroot (c :: r)))
               (c :: r) bad) by (discriminate || reflexivity).
    change (file_name_for (fetch_options w st (strip_dbroot (c :: r))) (c :: r) bad)
      with (file_name_for (fetch_options w st []) (c :: r) bad).
    rewrite Hbad. reflexivity.
  - apply Forall_forall. intros a Ha.
    rewrite Forall_forall in Hopen, Hfit.
    rewrite (@fetch_round_file w (fetch_options w st (strip_dbroot (c :: r)))
               (c :: r) a) by (discriminate || reflexivity).
    change (file_name_for (fetch_options w st (strip_dbroot (c :: r))) (c :: r) a)
      with (file_name_for (fetch_options w st []) (c :: r) a).
    rewrite (Hopen a Ha).
    pose proof (Hfit a Ha) as Hb. unfold body_fits in Hb.
    cbn [fetch_options api_key begin end_] in *.
    rewrite writef_fits by exact Hb. reflexivity.
Qed.

Lemma getstock_stops_at_unwritable_witness :
  getstock_main
    (sample_world (fun name => negb (cstring_eqb name (lit "data/GS...csv"))))
    (lit "getstock" :: [lit "-k"; lit "key"; lit "-o"; lit "data"; lit "jpm";
                        lit "gs"; lit "bac"])
  = mkTrace
      (flat_map
         (written_for
            (sample_world (fun name => negb (cstring_eqb name (lit "data/GS...csv"))))
            (fetch_options
               (sample_world (fun name => negb (cstring_eqb name (lit "data/GS...csv"))))
               (mkCli (lit "key") [] [] (lit "data")) [])
            (cli_dbroot (mkCli (lit "key") [] [] (lit "data"))))
         [lit "jpm"]
       ++ [Fetched
             (make_url (upper (lit "gs"))
                (key_of
                   (sample_world
                      (fun name => negb (cstring_eqb name (lit "data/GS...csv"))))
                   (mkCli (lit "key") [] [] (lit "data")))
                (Some (cli_begin (mkCli (lit "key") [] [] (lit "data"))))
                (Some (cli_end (mkCli (lit "key") [] [] (lit "data")))))])
      (Exited FailedToOpenOutput).
Proof.
  apply (@getstock_stops_at_unwritable
           (sample_world (fun name => negb (cstring_eqb name (lit "data/GS...csv"))))
           (lit "getstock")
           [lit "-k"; lit "key"; lit "-o"; lit "data"; lit "jpm"; lit "gs"; lit "bac"]
           (mkCli (lit "key") [] [] (lit "data"))
           [lit "jpm"] (lit "gs") [lit "bac"]).
  - reflexivity.
  - discriminate.
  - discriminate.
  - discriminate.
  - discriminate.
  - repeat constructor.
  - repeat constructor.
  - reflexivity.
Defined.

(** X18.  Without output directory, a ticker of 57 bytes or more does
    not fit [char msgbuf[64]] with [begin:] before it and the line feed
    and terminator after it: after the tickers before it are printed and
    its body is fetched, [sprintf] writes beyond the array and the run
    is undefined. *)
Theorem getstock_long_ticker (w : world) (prog : cstring)
        (words : list cstring) (st : cli)
        (good : list cstring) (long : cstring) (rest : list cstring) :
  cli_words words cli_empty = Go (st, good ++ long :: rest) ->
  api_key_file st <> [] -> key_of w st <> [] ->
  cli_dbroot st = [] ->
  Forall (fun a : cstring => length a <= 56) good ->
  Forall (body_fits w (fetch_options w st [])) good ->
  57 <= length long ->
  getstock_main w (prog :: words)
  = mkTrace (flat_map (printed_for w (fetch_options w st [])) good
             ++ [Fetched (make_url (upper long) (key_of w st)
                                   (Some (cli_begin st)) (Some (cli_end st)))])
            Undefined.
Proof.
  intros Hw Hk Hkey Hroot Hlen Hfit Hlong.
  assert (Ht : good ++ long :: rest <> []) by (destruct good; discriminate).
  rewrite (@getstock_main_fetches w prog words st _ Hw Ht Hk Hkey), Hroot.
  rewrite (@fetch_words_app w (fetch_options w st [])
             (printed_for w (fetch_options w st [])) good (long :: rest)).
  - cbn [fetch_words].
    rewrite (@fetch_round_overflow w (fetch_options w st []) long)
      by (reflexivity || exact Hlong).
    reflexivity.
  - apply Forall_forall. intros a Ha.
    rewrite Forall_forall in Hlen, Hfit.
    apply fetch_round_prints; [reflexivity | apply Hlen | apply Hfit]; exact Ha.
Qed.

Lemma getstock_long_ticker_witness :
  getstock_main (sample_world (fun _ => true))
    (lit "getstock"
     :: [lit "-k"; lit "key"; lit "jpm";
         lit "abcdefghijklmnopqrstuvwxyzabcdefghijklmnopqrstuvwxyzabcde"])
  = mkTrace
      (flat_map
         (printed_for (sample_world (fun _ => true))
            (fetch_options (sample_world (fun _ => true))
                           (mkCli (lit "key") [] [] []) []))
         [lit "jpm"]
       ++ [Fetched
             (make_url
                (upper (lit "abcdefghijklmnopqrstuvwxyzabcdefghijklmnopqrstuvwxyzabcde"))
                (key_of (sample_world (fun _ => true)) (mkCli (lit "key") [] [] []))
                (Some (cli_begin (mkCli (lit "key") [] [] [])))
                (Some (cli_end (mkCli (lit "key") [] [] []))))])
      Undefined.
Proof.
  apply (@getstock_long_ticker (sample_world (fun _ => true)) (lit "getstock")
           [lit "-k"; lit "key"; lit "jpm";
            lit "abcdefghijklmnopqrstuvwxyzabcdefghijklmnopqrstuvwxyzabcde"]
           (mkCli (lit "key") [] [] []) [lit "jpm"]
           (lit "abcdefghijklmnopqrstuvwxyzabcdefghijklmnopqrstuvwxyzabcde") []).
  - reflexivity.
  - discriminate.
  - discriminate.
  - reflexivity.
  - repeat constructor; simpl; lia.
  - repeat constructor.
  - simpl. lia.
Defined.

(** X19.  When the key file does not open, or holds nothing but white
    space, [getstock] ends with the message of the key and has fetched
    nothing; the tickers and the other options do not matter. *)
Theorem getstock_blank_key (w : world) (prog : cstring)
        (words : list cstring) (st : cli) (tickers : list cstring) :
  cli_words words cli_empty = Go (st, tickers) ->
  tickers <> [] -> api_key_file st <> [] ->
  key_files w (api_key_file st) = None
  \/ (exists text, key_files w (api_key_file st) = Some text
                   /\ skip_space text = []) ->
  getstock_main w (prog :: words) = mkTrace [] (Exited FailedToReadApiKey).
Proof.
  intros Hw Ht Hk Hfile. rewrite getstock_main_words.
  destruct words as [|a words].
  { simpl in Hw. injection Hw as _ <-. contradiction. }
  rewrite Hw. unfold run_words.
  destruct tickers as [|t tickers]; [contradiction|].
  destruct (api_key_file st) as [|k kf] eqn:Ek; [contradiction|].
  assert (Hs : strip (slurp (key_files w) (k :: kf)) = []).
  { unfold slurp. destruct Hfile as [-> | (text & -> & Hblank)].
    - reflexivity.
    - apply strip_blank. exact Hblank. }
  rewrite Hs. reflexivity.
Qed.

Lemma getstock_blank_key_witness :
  getstock_main (sample_world (fun _ => true))
                (lit "getstock" :: [lit "-k"; lit "nokey"; lit "jpm"])
  = mkTrace [] (Exited FailedToReadApiKey).
Proof.
  apply (@getstock_blank_key (sample_world (fun _ => true)) (lit "getstock")
           [lit "-k"; lit "nokey"; lit "jpm"]
           (mkCli (lit "nokey") [] [] []) [lit "jpm"]).
  - reflexivity.
  - discriminate.
  - discriminate.
  - left. reflexivity.
Defined.

(* ================================================================== *)
(** ** [main] of [src/main.cc] *)

Lemma apply_defaults_set (st : settings) :
  models (fst (apply_defaults st)) <> []
  /\ tcm (fst (apply_defaults st)) <> TCostNULL
  /\ is_zero (variance (fst (apply_defaults st))) = false
  /\ is_zero (mean_return (fst (apply_defaults st))) = false.
Proof.
  unfold apply_defaults.
  destruct (models st) as [|m ms]; destruct (tcm st);
    destruct (is_zero (variance st)) eqn:Ev;
    destruct (is_zero (mean_return st)) eqn:Er;
    cbn [fst models tcm variance mean_return];
    repeat split; try discriminate; try assumption; reflexivity.
Qed.

(** X20.  Whenever [main] returns, a model is chosen, the cost model is
    no longer [TCostNULL], and neither the variance nor the mean return
    is zero: a zero given with [-v] or [-r] is taken for no value and
    replaced by the default. *)
Theorem main_settings_never_zero (argv : list cstring) (input : cstring)
        (fs : filesystem) (r : main_state) :
  main_cc argv input fs = Go r ->
  models (final r) <> []
  /\ tcm (final r) <> TCostNULL
  /\ is_zero (variance (final r)) = false
  /\ is_zero (mean_return (final r)) = false.
Proof.
  unfold main_cc.
  destruct (main_options _ _ _ _ _) as [[[st ac] av]|e]; [|discriminate].
  unfold main_run.
  pose proof (apply_defaults_set st) as Hd.
  destruct (apply_defaults st) as [st' warnings].
  destruct (match cin_word input with Some r0 => r0 | None => ([], []) end)
    as [begin_date rest1].
  destruct (match cin_word rest1 with Some r0 => r0 | None => ([], []) end)
    as [end_date rest2].
  destruct (parse_date begin_date =? 0)%Z; [discriminate|].
  destruct (parse_date end_date =? 0)%Z; [discriminate|].
  destruct (read_stock_data fs _); try discriminate.
  intros H. injection H as <-. exact Hd.
Qed.

Lemma main_settings_never_zero_witness :
  models (final (mkMainState
                   (mkSettings [MeanVar] (Num 0) DEFAULT_VARIANCE
                               (Num (7 # 100)) DEFAULT_TCOST TCostPerTrade)
                   [NoModels; NoCostModel; NoVariance] [[Num (3 # 2)]])) <> []
  /\ tcm (final (mkMainState
                   (mkSettings [MeanVar] (Num 0) DEFAULT_VARIANCE
                               (Num (7 # 100)) DEFAULT_TCOST TCostPerTrade)
                   [NoModels; NoCostModel; NoVariance] [[Num (3 # 2)]]))
     <> TCostNULL
  /\ is_zero (variance (final (mkMainState
                   (mkSettings [MeanVar] (Num 0) DEFAULT_VARIANCE
                               (Num (7 # 100)) DEFAULT_TCOST TCostPerTrade)
                   [NoModels; NoCostModel; NoVariance] [[Num (3 # 2)]]))) = false
  /\ is_zero (mean_return (final (mkMainState
                   (mkSettings [MeanVar] (Num 0) DEFAULT_VARIANCE
                               (Num (7 # 100)) DEFAULT_TCOST TCostPerTrade)
                   [NoModels; NoCostModel; NoVariance] [[Num (3 # 2)]]))) = false.
Proof.
  apply (@main_settings_never_zero
           [lit "optimize"; lit "-v"; lit "0"; lit "-r0.07"]
           (ln "2018-01-01" ++ ln "2018-04-01" ++ ln "a.csv") two_files).
  reflexivity.
Defined.

Lemma take_word_word (word : cstring) (c : ascii) (rest : cstring) :
  Forall (fun x => isspace x = false) word -> isspace c = true ->
  take_word (word ++ c :: rest) = (word, c :: rest).
Proof.
  intros Hw Hc. induction Hw as [|x word Hx _ IH]; simpl.
  - rewrite Hc. reflexivity.
  - rewrite Hx, IH. reflexivity.
Qed.

Lemma cin_word_word (word : cstring) (c : ascii) (rest : cstring) :
  is_word word -> isspace c = true ->
  cin_word (word ++ c :: rest) = Some (word, c :: rest).
Proof.
  intros [Hne Hw] Hc. unfold cin_word.
  destruct word as [|x word]; [contradiction|].
  inversion Hw as [|x' w' Hx Hrest]; subst.
  cbn [app skip_space]. rewrite Hx.
  change (x :: word ++ c :: rest) with ((x :: word) ++ c :: rest).
  rewrite take_word_word by assumption. reflexivity.
Qed.

Lemma cin_word_space (c : ascii) (s : cstring) :
  isspace c = true -> cin_word (c :: s) = cin_word s.
Proof.
  intros Hc. unfold cin_word. cbn [skip_space]. rewrite Hc. reflexivity.
Qed.

(** X21.  The two dates that [main] reads are tested and not used: with
    any two pairs of dates that parse, the same arguments, file names
    and files give the same run, also when the second date is before the
    first. *)
Theorem main_dates_do_not_matter (argv : list cstring) (fs : filesystem)
        (b e b' e' rest : cstring) :
  is_word b -> is_word e -> is_word b' -> is_word e' ->
  parse_date b <> 0%Z -> parse_date e <> 0%Z ->
  parse_date b' <> 0%Z -> parse_date e' <> 0%Z ->
  main_cc argv (b ++ LF :: e ++ LF :: rest) fs
  = main_cc argv (b' ++ LF :: e' ++ LF :: rest) fs.
Proof.
  intros Hb He Hb' He' Pb Pe Pb' Pe'. unfold main_cc.
  destruct (main_options _ _ _ _ _) as [[[st ac] av]|x]; [|reflexivity].
  unfold main_run. destruct (apply_defaults st) as [st' warnings].
  rewrite (@cin_word_word b LF (e ++ LF :: rest) Hb eq_refl).
  rewrite (@cin_word_word b' LF (e' ++ LF :: rest) Hb' eq_refl).
  rewrite !(@cin_word_space LF _ eq_refl).
  rewrite (@cin_word_word e LF rest He eq_refl).
  rewrite (@cin_word_word e' LF rest He' eq_refl).
  apply Z.eqb_neq in Pb, Pe, Pb', Pe'. rewrite Pb, Pe, Pb', Pe'.
  reflexivity.
Qed.

Lemma main_dates_do_not_matter_witness :
  main_cc [lit "optimize"; lit "-v"; lit "0.04"]
          (lit "2018-01-01" ++ LF :: lit "2018-04-01" ++ LF :: ln "a.csv") two_files
  = main_cc [lit "optimize"; lit "-v"; lit "0.04"]
            (lit "2030-12-31" ++ LF :: lit "1999-01-01" ++ LF :: ln "a.csv")
            two_files.
Proof.
  apply (@main_dates_do_not_matter [lit "optimize"; lit "-v"; lit "0.04"]
           two_files (lit "2018-01-01") (lit "2018-04-01")
           (lit "2030-12-31") (lit "1999-01-01") (ln "a.csv"));
    try (split; [discriminate | repeat constructor]);
    discriminate.
Defined.

Lemma arg_at_app (pre : list cstring) (s : cstring) (post : list cstring) :
  arg_at (pre ++ s :: post) (length pre) = Arg s.
Proof.
  unfold arg_at. rewrite nth_error_app2 by lia. rewrite Nat.sub_diag.
  reflexivity.
Qed.

Lemma arg_at_end (argv : list cstring) : arg_at argv (length argv) = Null.
Proof.
  unfold arg_at. rewrite (proj2 (nth_error_None argv (length argv))) by lia.
  rewrite Nat.eqb_refl. reflexivity.
Qed.

Lemma arg_at_beyond (argv : list cstring) :
  arg_at argv (S (length argv)) = Wild.
Proof.
  unfold arg_at. rewrite (proj2 (nth_error_None argv (S (length argv)))) by lia.
  destruct (S (length argv) =? length argv) eqn:E; [|reflexivity].
  apply Nat.eqb_eq in E. lia.
Qed.

(** The loop of the case [m] over [n] times the name [meanvar] that end
    the command line. *)
Lemma models_loop_to_end :
  forall (n : nat) (pre : list cstring) (ms : list EModels) (fuel : nat),
    n <= fuel ->
    models_loop fuel (pre ++ repeat (lit "meanvar") n) ms (Z.of_nat n)
                (length pre)
                (arg_at (pre ++ repeat (lit "meanvar") n) (length pre))
    = Go (ms ++ repeat MeanVar n, 0%Z,
          length (pre ++ repeat (lit "meanvar") n), Null).
Proof.
  induction n as [|n IH]; intros pre ms fuel Hfuel.
  - cbn [repeat]. rewrite !app_nil_r, arg_at_end.
    destruct fuel; reflexivity.
  - destruct fuel as [|fuel]; [lia|].
    cbn [repeat]. rewrite arg_at_app.
    change (models_loop (S fuel) (pre ++ lit "meanvar" :: repeat (lit "meanvar") n)
              ms (Z.of_nat (S n)) (length pre) (Arg (lit "meanvar")))
      with (models_loop fuel (pre ++ lit "meanvar" :: repeat (lit "meanvar") n)
              (ms ++ [MeanVar]) (Z.of_nat (S n) - 1)%Z (S (length pre))
              (arg_at (pre ++ lit "meanvar" :: repeat (lit "meanvar") n)
                      (S (length pre)))).
    replace (pre ++ lit "meanvar" :: repeat (lit "meanvar") n)
      with ((pre ++ [lit "meanvar"]) ++ repeat (lit "meanvar") n)
      by (rewrite <- app_assoc; reflexivity).
    replace (S (length pre)) with (length (pre ++ [lit "meanvar"]))
      by (rewrite length_app; simpl; lia).
    replace (Z.of_nat (S n) - 1)%Z with (Z.of_nat n) by lia.
    rewrite IH by lia. rewrite <- app_assoc. reflexivity.
Qed.

(** The option loop at [-m] and [n] models that end the command line. *)
Lemma main_options_models_last (pre : list cstring) (st : settings)
      (n fuel : nat) :
  main_options (S fuel) (pre ++ lit "-m" :: repeat (lit "meanvar") n) st
               (Z.of_nat (S n)) (length pre)
  = Halt Undefined.
Proof.
  cbn [main_options].
  destruct (Z.of_nat (S n) =? 0)%Z eqn:E0; [apply Z.eqb_eq in E0; lia|].
  rewrite arg_at_app.
  change (lit "-m") with [DASH; "m"%char].
  cbv beta iota. rewrite Ascii.eqb_refl. cbn [negb].
  change (Ascii.eqb "m" DASH) with false. cbn [andb].
  unfold main_case.
  change (Ascii.eqb "m" "c") with false.
  change (Ascii.eqb "m" "t") with false.
  change (Ascii.eqb "m" "m") with true. cbv beta iota.
  match goal with
  | |- context [models_loop _ ?a _ _ _ _] => set (argv := a)
  end.
  assert (Ha : argv = (pre ++ [[DASH; "m"%char]]) ++ repeat (lit "meanvar") n)
    by (subst argv; rewrite <- app_assoc; reflexivity).
  clearbody argv. subst argv.
  replace (S (length pre)) with (length (pre ++ [[DASH; "m"%char]]))
    by (rewrite length_app; simpl; lia).
  replace (Z.of_nat (S n) - 1)%Z with (Z.of_nat n) by lia.
  rewrite models_loop_to_end
    by (rewrite !length_app, repeat_length; simpl; lia).
  cbv beta iota.
  replace (0 - 1)%Z with (-1)%Z by lia.
  destruct fuel; cbn [main_options Z.eqb]; rewrite arg_at_beyond; reflexivity.
Qed.


(** The option loop at an argument that starts with [-m-]: the case
    [m] steps [av] back for the dash, the loop steps it forward again,
    and the same argument is read again with nothing changed. *)
Lemma main_options_model_dash (pre post : list cstring) (x : cstring)
      (st : settings) :
  pre <> [] ->
  forall fuel : nat,
    main_options fuel (pre ++ (DASH :: "m"%char :: DASH :: x) :: post) st
                 (Z.of_nat (S (length post))) (length pre)
    = Halt Unfinished.
Proof.
  intros Hpre fuel. destruct st as [ms ic va mr tc tm].
  induction fuel as [|fuel IH].
  - cbn [main_options].
    destruct (Z.of_nat (S (length post)) =? 0)%Z eqn:E0;
      [apply Z.eqb_eq in E0; lia|].
    rewrite arg_at_app. cbv beta iota. rewrite Ascii.eqb_refl. reflexivity.
  - cbn [main_options].
    destruct (Z.of_nat (S (length post)) =? 0)%Z eqn:E0;
      [apply Z.eqb_eq in E0; lia|].
    rewrite arg_at_app. cbv beta iota. rewrite Ascii.eqb_refl. cbn [negb].
    change (Ascii.eqb "m" DASH) with false. cbn [andb].
    unfold main_case.
    change (Ascii.eqb "m" "c") with false.
    change (Ascii.eqb "m" "t") with false.
    change (Ascii.eqb "m" "m") with true. cbv beta iota.
    assert (Hloop : forall f argv,
               models_loop f argv ms (Z.of_nat (S (length post))) (length pre)
                           (Arg (DASH :: x))
               = Go (ms, Z.of_nat (S (length post)), length pre,
                     Arg (DASH :: x))).
    { intros f argv. destruct f; cbn [models_loop]; rewrite Ascii.eqb_refl;
        reflexivity. }
    rewrite Hloop. cbv beta iota. rewrite Ascii.eqb_refl.
    cbn [models initial_capital variance mean_return tcost tcm].
    replace (Z.of_nat (S (length post)) + 1 - 1)%Z
      with (Z.of_nat (S (length post))) by lia.
    replace (S (length pre - 1)) with (length pre)
      by (destruct pre; [contradiction | simpl; lia]).
    exact IH.
Qed.

(* ================================================================== *)
(** ** Columns by name: the header and the rows as fields *)














(* ================================================================== *)
(** ** [main] of [src/main.cc]: options in front of [-m] *)

Lemma parse_number_prefix (v : cstring) :
  has_numeric_prefix v = true -> exists x, parse_number v = Some x.
Proof.
  intros H. unfold parse_number.
  pose proof (strtod_with_prefix v H) as Hlt.
  destruct (strtod v) as [x endptr]. simpl in Hlt. unfold same_ptr.
  destruct (length endptr =? length v) eqn:E; [apply Nat.eqb_eq in E; lia|].
  rewrite andb_false_r. eauto.
Qed.

(** A case of the [switch] that takes one number goes on with [ac] and
    [av] as they are. *)
Lemma main_case_number (c : ascii) (v : cstring) :
  takes_number c = true -> has_numeric_prefix v = true ->
  forall (fuel : nat) (argv : list cstring) (st : settings) (ac : Z) (av : nat),
  exists st', main_case fuel argv st c (Arg v) ac av = Go (st', ac, av).
Proof.
  intros Hc Hv fuel argv st ac av.
  destruct (parse_number_prefix v Hv) as [x Hx].
  unfold takes_number in Hc. cbn [lit existsb list_ascii_of_string] in Hc.
  unfold main_case.
  destruct (Ascii.eqb c "c") eqn:Ec; [rewrite Hx; eauto|].
  destruct (Ascii.eqb c "v") eqn:Ev.
  { apply Ascii.eqb_eq in Ev. subst c. cbv beta iota.
    change (Ascii.eqb "v" "t") with false.
    change (Ascii.eqb "v" "m") with false. cbv beta iota.
    rewrite Hx. eauto. }
  destruct (Ascii.eqb c "r") eqn:Er; [|discriminate].
  apply Ascii.eqb_eq in Er. subst c.
  change (Ascii.eqb "r" "t") with false.
  change (Ascii.eqb "r" "m") with false. cbv beta iota.
  rewrite Hx. eauto.
Qed.

Lemma takes_number_not_dash (c : ascii) : takes_number c = true -> c <> DASH.
Proof. intros H ->. discriminate H. Qed.

Lemma arg_at_app_next (pre : list cstring) (s t : cstring)
      (post : list cstring) :
  arg_at (pre ++ s :: t :: post) (S (length pre)) = Arg t.
Proof.
  replace (pre ++ s :: t :: post) with ((pre ++ [s]) ++ t :: post)
    by (rewrite <- app_assoc; reflexivity).
  replace (S (length pre)) with (length (pre ++ [s]))
    by (rewrite length_app; simpl; lia).
  apply arg_at_app.
Qed.

(** The option loop at an option with its number attached, and at one
    with its number in the next argument. *)
Lemma main_options_attached (c : ascii) (v : cstring)
      (pre rest : list cstring) (st : settings) (fuel : nat) :
  takes_number c = true -> has_numeric_prefix v = true ->
  exists st',
    main_options (S fuel) (pre ++ (DASH :: c :: v) :: rest) st
                 (Z.of_nat (S (length rest))) (length pre)
    = main_options fuel ((pre ++ [DASH :: c :: v]) ++ rest) st'
                   (Z.of_nat (length rest)) (length (pre ++ [DASH :: c :: v])).
Proof.
  intros Hc Hv.
  destruct (@main_case_number c v Hc Hv
              (length (pre ++ (DASH :: c :: v) :: rest))
              (pre ++ (DASH :: c :: v) :: rest) st
              (Z.of_nat (S (length rest))) (length pre)) as [st' Hst'].
  exists st'. cbn [main_options].
  destruct (Z.of_nat (S (length rest)) =? 0)%Z eqn:E0;
    [apply Z.eqb_eq in E0; lia|].
  rewrite arg_at_app. cbv beta iota. rewrite Ascii.eqb_refl. cbn [negb].
  pose proof (@takes_number_not_dash c Hc) as Hd.
  apply Ascii.eqb_neq in Hd. rewrite Hd. cbn [andb].
  destruct v as [|y v]; [discriminate Hv|].
  rewrite Hst'.
  rewrite <- app_assoc. cbn [app]. rewrite length_app. cbn [length].
  replace (length pre + 1) with (S (length pre)) by lia.
  replace (Z.of_nat (S (length rest)) - 1)%Z with (Z.of_nat (length rest)) by lia.
  reflexivity.
Qed.

Lemma main_options_next (c : ascii) (v : cstring)
      (pre rest : list cstring) (st : settings) (fuel : nat) :
  takes_number c = true -> has_numeric_prefix v = true ->
  exists st',
    main_options (S fuel) (pre ++ [DASH; c] :: v :: rest) st
                 (Z.of_nat (S (S (length rest)))) (length pre)
    = main_options fuel ((pre ++ [[DASH; c]; v]) ++ rest) st'
                   (Z.of_nat (length rest)) (length (pre ++ [[DASH; c]; v])).
Proof.
  intros Hc Hv.
  destruct (@main_case_number c v Hc Hv
              (length (pre ++ [DASH; c] :: v :: rest))
              (pre ++ [DASH; c] :: v :: rest) st
              (Z.of_nat (S (S (length rest))) - 1)%Z (S (length pre)))
    as [st' Hst'].
  exists st'. cbn [main_options].
  destruct (Z.of_nat (S (S (length rest))) =? 0)%Z eqn:E0;
    [apply Z.eqb_eq in E0; lia|].
  rewrite arg_at_app. cbv beta iota. rewrite Ascii.eqb_refl. cbn [negb].
  pose proof (@takes_number_not_dash c Hc) as Hd.
  apply Ascii.eqb_neq in Hd. rewrite Hd. cbn [andb].
  rewrite arg_at_app_next. rewrite Hst'.
  rewrite <- app_assoc. cbn [app]. rewrite length_app. cbn [length].
  replace (length pre + 2) with (S (S (length pre))) by lia.
  replace (Z.of_nat (S (S (length rest))) - 1 - 1)%Z
    with (Z.of_nat (length rest)) by lia.
  reflexivity.
Qed.

(** With no step left the loop stops at an option. *)
Lemma main_options_out_of_steps (c : ascii) (v : cstring)
      (pre rest : list cstring) (st : settings) :
  takes_number c = true ->
  main_options 0 (pre ++ (DASH :: c :: v) :: rest) st
               (Z.of_nat (S (length rest))) (length pre)
  = Halt Unfinished.
Proof.
  intros Hc. cbn [main_options].
  destruct (Z.of_nat (S (length rest)) =? 0)%Z eqn:E0;
    [apply Z.eqb_eq in E0; lia|].
  rewrite arg_at_app. cbv beta iota. rewrite Ascii.eqb_refl. cbn [negb].
  pose proof (@takes_number_not_dash c Hc) as Hd.
  apply Ascii.eqb_neq in Hd. rewrite Hd. reflexivity.
Qed.

(** Options with their numbers, then [-m] and models to the end: the
    loop reads behind [argv]. *)
Lemma main_options_numbers_models (n : nat) (opts : list cstring) :
  number_options opts ->
  forall (pre : list cstring) (st : settings) (fuel : nat),
    length opts < fuel ->
    main_options fuel (pre ++ opts ++ lit "-m" :: repeat (lit "meanvar") n) st
                 (Z.of_nat (length opts + S n)) (length pre)
    = Halt Undefined.
Proof.
  induction 1 as [|c v opts Hc Hv _ IH|c v opts Hc Hv _ IH];
    intros pre st fuel Hfuel.
  - destruct fuel as [|fuel]; [simpl in Hfuel; lia|].
    cbn [app length Nat.add]. apply main_options_models_last.
  - destruct fuel as [|fuel]; [simpl in Hfuel; lia|].
    cbn [app length Nat.add].
    destruct (@main_options_attached c v pre
                (opts ++ lit "-m" :: repeat (lit "meanvar") n) st fuel Hc Hv)
      as [st' Hst'].
    rewrite length_app in Hst'. cbn [length] in Hst'.
    rewrite repeat_length in Hst'.
    etransitivity; [exact Hst'|]. apply IH. simpl in Hfuel. lia.
  - destruct fuel as [|fuel]; [simpl in Hfuel; lia|].
    cbn [app length Nat.add].
    destruct (@main_options_next c v pre
                (opts ++ lit "-m" :: repeat (lit "meanvar") n) st fuel Hc Hv)
      as [st' Hst'].
    rewrite length_app in Hst'. cbn [length] in Hst'.
    rewrite repeat_length in Hst'.
    etransitivity; [exact Hst'|]. apply IH. simpl in Hfuel. lia.
Qed.

(** X22.  When [-m] and its models are the last arguments, behind the
    name of the program and any number of options [-c], [-v] and [-r]
    with their numbers, the option loop steps over the null pointer that
    ends [argv] and reads what lies behind it: the run of [main] is
    undefined. *)
Theorem main_models_last_undefined (prog : cstring) (opts : list cstring)
        (n : nat) (input : cstring) (fs : filesystem) :
  number_options opts ->
  main_cc (prog :: opts ++ lit "-m" :: repeat (lit "meanvar") n) input fs
  = Halt Undefined.
Proof.
  intros Hopts. unfold main_cc.
  pose proof (@main_options_numbers_models n opts Hopts [prog] settings_start
                (length (prog :: opts ++ lit "-m" :: repeat (lit "meanvar") n)))
    as H.
  cbn [app length] in H.
  replace (Z.of_nat (length (prog :: opts ++ lit "-m" :: repeat (lit "meanvar") n))
           - 1)%Z
    with (Z.of_nat (length opts + S n))
    by (cbn [length]; rewrite length_app; cbn [length];
        rewrite repeat_length; lia).
  cbn [length]. rewrite H; [reflexivity|].
  rewrite length_app. simpl. lia.
Qed.

Lemma main_models_last_undefined_witness :
  main_cc (lit "optimize" :: [lit "-c"; lit "1000"; lit "-v0.04"]
             ++ lit "-m" :: repeat (lit "meanvar") 1)
          (ln "2018-01-01" ++ ln "2018-04-01" ++ ln "a.csv") two_files
  = Halt Undefined.
Proof.
  apply (@main_models_last_undefined (lit "optimize")
           [lit "-c"; lit "1000"; lit "-v0.04"] 1).
  apply (@number_options_next "c"%char (lit "1000")); try reflexivity.
  apply (@number_options_attached "v"%char (lit "0.04")); try reflexivity.
  constructor.
Defined.

(** Options with their numbers, then an argument that starts with
    [-m-]: the loop does not end. *)
Lemma main_options_numbers_model_dash (x : cstring) (post opts : list cstring) :
  number_options opts ->
  forall (pre : list cstring) (st : settings) (fuel : nat),
    pre <> [] ->
    main_options fuel (pre ++ opts ++ (DASH :: "m"%char :: DASH :: x) :: post)
                 st (Z.of_nat (length opts + S (length post))) (length pre)
    = Halt Unfinished.
Proof.
  induction 1 as [|c v opts Hc Hv _ IH|c v opts Hc Hv _ IH];
    intros pre st fuel Hpre.
  - cbn [app length Nat.add]. apply main_options_model_dash. exact Hpre.
  - cbn [app length Nat.add].
    destruct fuel as [|fuel].
    + pose proof (@main_options_out_of_steps c v pre
                    (opts ++ (DASH :: "m"%char :: DASH :: x) :: post) st Hc) as H0.
      rewrite length_app in H0. cbn [length] in H0. exact H0.
    + destruct (@main_options_attached c v pre
                  (opts ++ (DASH :: "m"%char :: DASH :: x) :: post) st fuel Hc Hv)
        as [st' Hst'].
      rewrite length_app in Hst'. cbn [length] in Hst'.
      etransitivity; [exact Hst'|]. apply IH. destruct pre; discriminate.
  - cbn [app length Nat.add].
    destruct fuel as [|fuel].
    + pose proof (@main_options_out_of_steps c [] pre
                    (v :: opts ++ (DASH :: "m"%char :: DASH :: x) :: post) st Hc)
        as H0.
      cbn [length] in H0. rewrite length_app in H0. cbn [length] in H0.
      exact H0.
    + destruct (@main_options_next c v pre
                  (opts ++ (DASH :: "m"%char :: DASH :: x) :: post) st fuel Hc Hv)
        as [st' Hst'].
      rewrite length_app in Hst'. cbn [length] in Hst'.
      etransitivity; [exact Hst'|]. apply IH. destruct pre; discriminate.
Qed.

(** X23.  An argument that starts with [-m-], behind the name of the
    program and any number of options [-c], [-v] and [-r] with their
    numbers, stops the option loop for good: the case [m] steps [av]
    back for the dash, the loop steps it forward again, and the same
    argument is read again with nothing changed.  The loop as [main]
    starts it is not through within any bound. *)
Theorem main_model_dash_never_ends (prog x : cstring)
        (opts post : list cstring) :
  number_options opts ->
  (forall fuel : nat,
      main_options fuel
        (prog :: opts ++ (DASH :: "m"%char :: DASH :: x) :: post)
        settings_start
        (Z.of_nat (length (prog :: opts
                             ++ (DASH :: "m"%char :: DASH :: x) :: post)) - 1)%Z
        1
      = Halt Unfinished)
  /\ (forall (input : cstring) (fs : filesystem),
         main_cc (prog :: opts ++ (DASH :: "m"%char :: DASH :: x) :: post)
                 input fs
         = Halt Unfinished).
Proof.
  intros Hopts.
  assert (Hloop : forall fuel : nat,
             main_options fuel
               (prog :: opts ++ (DASH :: "m"%char :: DASH :: x) :: post)
               settings_start
               (Z.of_nat (length (prog :: opts
                             ++ (DASH :: "m"%char :: DASH :: x) :: post)) - 1)%Z
               1
             = Halt Unfinished).
  { intros fuel.
    replace (Z.of_nat (length (prog :: opts
                         ++ (DASH :: "m"%char :: DASH :: x) :: post)) - 1)%Z
      with (Z.of_nat (length opts + S (length post)))
      by (cbn [length]; rewrite length_app; cbn [length]; lia).
    apply (@main_options_numbers_model_dash x post opts Hopts [prog]
             settings_start fuel).
    discriminate. }
  split; [exact Hloop|].
  intros input fs. unfold main_cc. rewrite Hloop. reflexivity.
Qed.

Lemma main_model_dash_never_ends_witness :
  (forall fuel : nat,
      main_options fuel
        (lit "optimize" :: [lit "-c"; lit "1000"]
           ++ (DASH :: "m"%char :: DASH :: lit "v") :: [lit "0.04"])
        settings_start
        (Z.of_nat (length (lit "optimize" :: [lit "-c"; lit "1000"]
                             ++ (DASH :: "m"%char :: DASH :: lit "v")
                             :: [lit "0.04"])) - 1)%Z
        1
      = Halt Unfinished)
  /\ (forall (input : cstring) (fs : filesystem),
         main_cc (lit "optimize" :: [lit "-c"; lit "1000"]
                    ++ (DASH :: "m"%char :: DASH :: lit "v") :: [lit "0.04"])
                 input fs
         = Halt Unfinished).
Proof.
  apply (@main_model_dash_never_ends (lit "optimize") (lit "v")
           [lit "-c"; lit "1000"] [lit "0.04"]).
  apply (@number_options_next "c"%char (lit "1000")); try reflexivity.
  constructor.
Defined.
